(** * superarray: the [List] container, its traversal primitive and sort engine

    A shallow embedding of the [List<T>] class (an ordered container wrapping a
    JavaScript array) together with the properties its specification states.

    Conventions of the embedding.
    - TypeScript generics are erased at run time, so the element type [T] is the
      type of JavaScript values.  The operators of the host language that the
      class applies to elements ([typeof], [-], [<], [Math.floor], the native
      [Array.prototype.sort], ...) are IEEE-754 and engine matters; they are
      the fields of the class [JsHost], and the handful of facts ECMAScript
      guarantees about them are the classes [KeyLaws], [NativeSortLaws],
      [RadixLaws], [OrderLaws], [NativeSortOrdered] and
      [FiniteNumberLaws].
    - The host operators are total functions: values on which an operator
      throws (a [Symbol] in arithmetic or in an ordering comparison) are
      outside [T], and the comparators and callbacks a caller passes do not
      throw.
    - Indices, lengths, [step], [k] and [size] are integers ([Z]).
    - Reading an array outside its bounds yields [undefined].
    - Objects live in a store ([Heap]): a [List] object holds a reference to
      its [items] array, so that "in place", "copy", "new list" and "same
      instance" keep their meaning.
    - Loops whose termination depends on the arguments take a fuel and answer
      [None] / [OutOfFuel] when it runs out. *)

From Stdlib Require Import ZArith QArith Qround Qpower Lqa Sorted.
From stdpp Require Import base numbers option list gmap strings.

Local Open Scope Z_scope.

(* ===================================================================== *)
(** * Part I: definitions *)
(* ===================================================================== *)

(** ** The host language *)

Class JsHost (T : Type) : Type := {
  undefined : T;
  (** numeric literal *)
  numLit : Z → T;
  (** [typeof v === 'number'] *)
  isNumber : T → bool;
  (** [a === b] *)
  strictEquals : T → T → bool;
  (** key equality of [Map] and [Set] *)
  sameValueZero : T → T → bool;
  (** [Map.prototype.set] and [Set.prototype.add] store [-0] as [+0] *)
  canonKey : T → T;
  jsAdd : T → T → T;
  jsSub : T → T → T;
  jsDiv : T → T → T;
  jsMod : T → T → T;
  (** [a < b]; [a > b] is [jsLt b a] *)
  jsLt : T → T → bool;
  (** [a <= b]; [a >= b] is [jsLe b a] *)
  jsLe : T → T → bool;
  (** [Number.isInteger] *)
  isInteger : T → bool;
  (** [Math.max(...xs)] *)
  mathMax : list T → T;
  mathFloor : T → T;
  mathLog10 : T → T;
  mathPow : T → T → T;
  (** the array index a value denotes when used as a property key *)
  asIndex : T → option nat;
  (** [Array.prototype.sort(compare)]: the contents after the call *)
  nativeSort : (T → T → T) → list T → list T;
}.

(** ** Arrays *)

Section Arrays.
Context {T : Type} `{JsHost T}.

(** [items[i]] *)
Definition arr_get (items : list T) (i : Z) : T :=
  if i <? 0 then undefined else default undefined (items !! Z.to_nat i).

(** [items[i] = v]; a write past the end extends the array, the skipped
    positions read as [undefined]; a negative key is not an element. *)
Definition arr_set (items : list T) (i : Z) (v : T) : list T :=
  if i <? 0 then items
  else if i <? Z.of_nat (length items) then <[Z.to_nat i := v]> items
  else items ++ replicate (Z.to_nat i - length items)%nat undefined ++ [v].

(** [[items[i], items[j]] = [items[j], items[i]]] *)
Definition swap (items : list T) (i j : Z) : list T :=
  let vj := arr_get items j in
  let vi := arr_get items i in
  arr_set (arr_set items i vj) j vi.

(** Relative index of [Array.prototype.slice]. *)
Definition relIndex (len k : Z) : Z :=
  if k <? 0 then Z.max (len + k) 0 else Z.min k len.

(** [items.slice(start, end)] *)
Definition slice (items : list T) (start end_ : option Z) : list T :=
  let len := Z.of_nat (length items) in
  let s := relIndex len (default 0 start) in
  let e := relIndex len (default len end_) in
  take (Z.to_nat (e - s)) (drop (Z.to_nat s) items).

(** [items.lastIndexOf(searchElement, fromIndex)]: scan downwards from
    position [c - 1]. *)
Fixpoint lastIndexOf_scan (items : list T) (searchElement : T) (c : nat) : Z :=
  match c with
  | O => -1
  | S k =>
      match items !! k with
      | Some v => if strictEquals v searchElement then Z.of_nat k
                  else lastIndexOf_scan items searchElement k
      | None => lastIndexOf_scan items searchElement k
      end
  end.

(** [items.indexOf(searchElement, fromIndex)]: scan upwards, [k] being the
    position of the head of [items]. *)
Fixpoint indexOf_scan (items : list T) (searchElement : T) (k : Z) : Z :=
  match items with
  | [] => -1
  | v :: rest =>
      if strictEquals v searchElement then k
      else indexOf_scan rest searchElement (k + 1)
  end.

Definition Array_indexOf (items : list T) (searchElement : T)
    (fromIndex : option Z) : Z :=
  let len := Z.of_nat (length items) in
  let n := default 0 fromIndex in
  let k := if 0 <=? n then n else Z.max (len + n) 0 in
  indexOf_scan (drop (Z.to_nat k) items) searchElement k.

Definition Array_lastIndexOf (items : list T) (searchElement : T)
    (fromIndex : option Z) : Z :=
  let len := Z.of_nat (length items) in
  if len =? 0 then -1
  else
    let n := default (len - 1) fromIndex in
    let k := if 0 <=? n then Z.min n (len - 1) else len + n in
    lastIndexOf_scan items searchElement (Z.to_nat (k + 1)).

End Arrays.

(** ** The traversal primitive *)

Record EachOptions := {
  reverse : option bool;
  step : option Z;
}.

Definition noOptions : EachOptions := {| reverse := None; step := None |}.

Record EachContext (T : Type) := {
  prevIndex : option Z;
  nextIndex : option Z;
  prev : T;
  next : T;
  isFirst : bool;
  isLast : bool;
}.
Arguments prevIndex {T}.
Arguments nextIndex {T}.
Arguments prev {T}.
Arguments next {T}.
Arguments isFirst {T}.
Arguments isLast {T}.

(** What a callback did with the two control functions of its context:
    [breakFn] and [continueFn] only ever set their flag. *)
Record Signals := {
  breakRequested : bool;
  continueRequested : bool;
}.

Definition noSignal : Signals :=
  {| breakRequested := false; continueRequested := false |}.
Definition breakSignal : Signals :=
  {| breakRequested := true; continueRequested := false |}.
Definition continueSignal : Signals :=
  {| breakRequested := false; continueRequested := true |}.

(** A callback runs in the caller's world [W] (everything it can reach and
    change, the list included) and reports the signals it raised. *)
Definition EachCallback (T W : Type) : Type :=
  T → Z → EachContext T → W → W * Signals.

(** The variables [each] closes over. *)
Record LoopState (W : Type) := {
  world : W;
  breakLoop : bool;
  continueLoop : bool;
}.
Arguments world {W}.
Arguments breakLoop {W}.
Arguments continueLoop {W}.

Section Each.
Context {T : Type} `{JsHost T} {W : Type}.
(** [this.items], as the world currently holds it. *)
Variable getItems : W → list T.
Variable callback : EachCallback T W.
Variable rev : bool.
Variable stp : Z.
Variable len : Z.

Definition inRange (i : Z) : option Z :=
  if (0 <=? i) && (i <? len) then Some i else None.

Definition mkContext (items : list T) (i : Z) : EachContext T :=
  let prevIdx := if rev then i + stp else i - stp in
  let nextIdx := if rev then i - stp else i + stp in
  {| prevIndex := inRange prevIdx;
     nextIndex := inRange nextIdx;
     prev := arr_get items prevIdx;
     next := arr_get items nextIdx;
     isFirst := if rev then i =? len - 1 else i =? 0;
     isLast := if rev then i =? 0 else i =? len - 1 |}.

(** [callback(value, i, context)] *)
Definition invoke (i : Z) (w : W) : W * Signals :=
  let items := getItems w in
  callback (arr_get items i) i (mkContext items i) w.

Definition iterate (i : Z) (st : LoopState W) : LoopState W :=
  if breakLoop st then st
  else if continueLoop st then
    {| world := world st; breakLoop := breakLoop st; continueLoop := false |}
  else
    let '(w, sg) := invoke i (world st) in
    {| world := w;
       breakLoop := if breakRequested sg then true else breakLoop st;
       continueLoop := if continueRequested sg then true else continueLoop st |}.

(** [for (let i = ...; i < length; i += step) iterate(i)] *)
Fixpoint each_forward (fuel : nat) (i : Z) (st : LoopState W)
    : option (LoopState W) :=
  if i <? len then
    match fuel with
    | O => None
    | S fuel' => each_forward fuel' (i + stp) (iterate i st)
    end
  else Some st.

(** [for (let i = ...; i >= 0; i -= step) iterate(i)] *)
Fixpoint each_reverse (fuel : nat) (i : Z) (st : LoopState W)
    : option (LoopState W) :=
  if 0 <=? i then
    match fuel with
    | O => None
    | S fuel' => each_reverse fuel' (i - stp) (iterate i st)
    end
  else Some st.

End Each.

Definition initState {W : Type} (w : W) : LoopState W :=
  {| world := w; breakLoop := false; continueLoop := false |}.

(** [each(callback, options)]: the world the traversal leaves. *)
Definition each {T : Type} `{JsHost T} {W : Type} (getItems : W → list T)
    (fuel : nat) (callback : EachCallback T W) (options : EachOptions) (w : W)
    : option W :=
  let rev := default false (reverse options) in
  let stp := default 1 (step options) in
  let len := Z.of_nat (length (getItems w)) in
  world <$>
    (if rev
     then each_reverse getItems callback rev stp len fuel (len - 1) (initState w)
     else each_forward getItems callback rev stp len fuel 0 (initState w)).

(** Traversal order: the indices the loop of [each] schedules, for a positive
    step. *)
Definition visitCount (stp len : Z) : nat := Z.to_nat ((len + stp - 1) / stp).

Definition schedule (rev : bool) (stp len : Z) : list Z :=
  (λ k : nat, if rev then len - 1 - Z.of_nat k * stp else Z.of_nat k * stp)
    <$> seq 0 (visitCount stp len).

(** ** Searching *)

Section Search.
Context {T : Type} `{JsHost T}.

Definition indexOf (items : list T) (searchElement : T)
    (fromIndex : option Z) : Z :=
  Array_indexOf items searchElement fromIndex.

(** [lastIndexOf(searchElement, fromIndex)] always passes its [fromIndex]
    on, so the array method is called with two arguments: an omitted
    [fromIndex] reaches it as [undefined], which it converts to [0] (the
    start [length - 1] is for a call without the argument). *)
Definition lastIndexOf (items : list T) (searchElement : T)
    (fromIndex : option Z) : Z :=
  Array_lastIndexOf items searchElement (Some (default 0 fromIndex)).

(** The callback of [lastIndexOfWithEach]; its world is [foundIndex]. *)
Definition lastIndexOfWithEach_callback (searchElement : T) (fromIndex : Z)
    : EachCallback T Z :=
  λ value index _context foundIndex,
    if (index <=? fromIndex) && strictEquals value searchElement
    then (index, noSignal)
    else (foundIndex, noSignal).

Definition lastIndexOfWithEach (fuel : nat) (items : list T) (searchElement : T)
    (fromIndex : option Z) : option Z :=
  let fromIndex := default (Z.of_nat (length items) - 1) fromIndex in
  each (λ _, items) fuel (lastIndexOfWithEach_callback searchElement fromIndex)
    {| reverse := Some true; step := None |} (-1).

(** The callback of [indexOfWithEach], which stops at the first match. *)
Definition indexOfWithEach_callback (searchElement : T) (fromIndex : Z)
    : EachCallback T Z :=
  λ value index _context foundIndex,
    if (fromIndex <=? index) && strictEquals value searchElement
    then (index, breakSignal)
    else (foundIndex, noSignal).

Definition indexOfWithEach (fuel : nat) (items : list T) (searchElement : T)
    (fromIndex : option Z) : option Z :=
  let fromIndex := default 0 fromIndex in
  each (λ _, items) fuel (indexOfWithEach_callback searchElement fromIndex)
    noOptions (-1).

End Search.

(** ** [Map] and [Set]

    Both iterate in insertion order and compare keys with SameValueZero. *)

Definition JsMap (T V : Type) : Type := list (T * V).
Definition JsSet (T : Type) : Type := list T.

Section Collections.
Context {T : Type} `{JsHost T}.

(** [m.get(k)] *)
Fixpoint map_get {V : Type} (m : JsMap T V) (k : T) : option V :=
  match m with
  | [] => None
  | (k', v) :: m' => if sameValueZero k' k then Some v else map_get m' k
  end.

(** [m.set(k, v)] *)
Fixpoint map_set {V : Type} (m : JsMap T V) (k : T) (v : V) : JsMap T V :=
  match m with
  | [] => [(canonKey k, v)]
  | (k', v') :: m' =>
      if sameValueZero k' k then (k', v) :: m' else (k', v') :: map_set m' k v
  end.

(** [s.has(x)] *)
Definition set_has (s : JsSet T) (x : T) : bool :=
  existsb (λ y, sameValueZero y x) s.

(** [s.add(x)] *)
Definition set_add (s : JsSet T) (x : T) : JsSet T :=
  if set_has s x then s else s ++ [canonKey x].

(** [new Set(items)] *)
Definition Set_from (items : list T) : JsSet T := fold_left set_add items [].

(** [[...s]] *)
Definition Set_spread (s : JsSet T) : list T := s.

End Collections.

(** ** Statistical accessors that only read *)

Section Mode.
Context {T : Type} `{JsHost T}.

(** The loop variables of [mode]. *)
Record ModeState := {
  counts : JsMap T nat;
  maxCount : nat;
  modeValue : T;
}.

(** [counts.get(item) || 0] *)
Definition getOrZero (m : JsMap T nat) (item : T) : nat :=
  match map_get m item with
  | Some c => if Nat.eqb c 0 then 0%nat else c
  | None => 0%nat
  end.

Definition mode_step (st : ModeState) (item : T) : ModeState :=
  let count := (getOrZero (counts st) item + 1)%nat in
  let counts' := map_set (counts st) item count in
  if (maxCount st <? count)%nat
  then {| counts := counts'; maxCount := count; modeValue := item |}
  else {| counts := counts'; maxCount := maxCount st; modeValue := modeValue st |}.

Definition mode_loop (items : list T) : ModeState :=
  fold_left mode_step items
    {| counts := []; maxCount := 0%nat; modeValue := undefined |}.

Definition mode (items : list T) : T := modeValue (mode_loop items).

(** Occurrences of [x] in [l] under the key equality of [Map]. *)
Definition occurrences (x : T) (l : list T) : nat :=
  length (filter (λ y, sameValueZero y x = true) l).

(** The largest occurrence count in [l]. *)
Definition maxOccurrences (l : list T) : nat :=
  max_list ((λ x, occurrences x l) <$> l).

(** What the loop of [mode] maintains once it has scanned the prefix [p]. *)
Definition mode_invariant (p : list T) (st : ModeState) : Prop :=
  (∀ x, map_get (counts st) x
        = if decide (occurrences x p = 0%nat) then None
          else Some (occurrences x p))
  ∧ maxCount st = maxOccurrences p
  ∧ (p = [] ∧ modeValue st = undefined
     ∨ ∃ p1 p2, p = p1 ++ modeValue st :: p2
                ∧ (occurrences (modeValue st) p1 + 1)%nat = maxCount st
                ∧ ∀ x, (occurrences x p1 < maxCount st)%nat).

(** Position of the first element of [l] equal to [x] as a key. *)
Fixpoint firstIndex (x : T) (l : list T) : option nat :=
  match l with
  | [] => None
  | y :: l' => if sameValueZero y x then Some 0%nat else S <$> firstIndex x l'
  end.

(** What [new Set(items)] maintains once it has added the prefix [l]: the
    members occur in [l], they are ordered by first occurrence, and every
    element of [l] has an equal member. *)
Definition set_invariant (l : list T) (u : JsSet T) : Prop :=
  (∀ a, a ∈ u → is_Some (firstIndex a l))
  ∧ (∀ i j a b, u !! i = Some a → u !! j = Some b → (i < j)%nat →
       ∃ fi fj, firstIndex a l = Some fi ∧ firstIndex b l = Some fj
                ∧ (fi < fj)%nat)
  ∧ (∀ x, is_Some (firstIndex x l) → ∃ y, y ∈ u ∧ sameValueZero y x = true).

End Mode.

(** ** Results of fallible code *)

Inductive Outcome (A : Type) : Type :=
  | Ok (a : A)
  | Throw (message : string)
  | OutOfFuel.
Arguments Ok {A}.
Arguments Throw {A}.
Arguments OutOfFuel {A}.

Definition outcome_bind {A B : Type} (f : A → Outcome B) (o : Outcome A)
    : Outcome B :=
  match o with
  | Ok a => f a
  | Throw m => Throw m
  | OutOfFuel => OutOfFuel
  end.

#[global] Instance outcome_ret : MRet Outcome := λ A a, Ok a.
#[global] Instance outcome_mbind : MBind Outcome := λ A B f o, outcome_bind f o.

(** [for (const x of xs) body] with a fallible body. *)
Fixpoint forM {A S : Type} (body : S → A → Outcome S) (xs : list A) (s : S)
    : Outcome S :=
  match xs with
  | [] => Ok s
  | x :: xs' => s' ← body s x; forM body xs' s'
  end.

(** ** The sort engine: algorithms on the contents of [this.items] *)

Inductive SortDirection := asc | desc.

Inductive SortMethod :=
  | merge | quick | bubble | insertion | selection | heap | radix.

(** The first argument of [sort]: absent, a direction, or a comparator. *)
Inductive DirectionOrCompare (T : Type) :=
  | NoDirection
  | Direction (d : SortDirection)
  | CompareFn (compare : T → T → T).
Arguments NoDirection {T}.
Arguments Direction {T}.
Arguments CompareFn {T}.

Section SortAlgorithms.
Context {T : Type} `{JsHost T}.

Definition getDefaultCompare (direction : SortDirection) : T → T → T :=
  λ a b,
    if isNumber a && isNumber b then
      match direction with asc => jsSub a b | desc => jsSub b a end
    else if jsLt a b then
      match direction with asc => numLit (-1) | desc => numLit 1 end
    else if jsLt b a then
      match direction with asc => numLit 1 | desc => numLit (-1) end
    else numLit 0.

(** [r <= 0], [r > 0] and [r < 0] on a comparator's result. *)
Definition leZero (r : T) : bool := jsLe r (numLit 0).
Definition gtZero (r : T) : bool := jsLt (numLit 0) r.
Definition ltZero (r : T) : bool := jsLt r (numLit 0).

Variable compare : T → T → T.

(** *** merge *)

Fixpoint merge_loop (fuel : nat) (left right : list T)
    (leftIndex rightIndex : Z) (result : list T) : Outcome (list T) :=
  if (leftIndex <? Z.of_nat (length left))
     && (rightIndex <? Z.of_nat (length right)) then
    match fuel with
    | O => OutOfFuel
    | S fuel' =>
        if leZero (compare (arr_get left leftIndex) (arr_get right rightIndex))
        then merge_loop fuel' left right (leftIndex + 1) rightIndex
               (result ++ [arr_get left leftIndex])
        else merge_loop fuel' left right leftIndex (rightIndex + 1)
               (result ++ [arr_get right rightIndex])
    end
  else
    Ok (result ++ slice left (Some leftIndex) None
               ++ slice right (Some rightIndex) None).

Definition merge_ (left right : list T) : Outcome (list T) :=
  merge_loop (length left + length right) left right 0 0 [].

Fixpoint mergeSort (fuel : nat) (arr : list T) : Outcome (list T) :=
  if (length arr <=? 1)%nat then Ok arr
  else
    match fuel with
    | O => OutOfFuel
    | S fuel' =>
        let mid := Z.of_nat (length arr) / 2 in
        let left := slice arr (Some 0) (Some mid) in
        let right := slice arr (Some mid) None in
        l ← mergeSort fuel' left;
        r ← mergeSort fuel' right;
        merge_ l r
    end.

(** *** quick *)

Definition sortPartition (low high : Z) (items : list T) : list T * Z :=
  let pivot := arr_get items high in
  let '(items', i) :=
    fold_left
      (λ '(items, i) j,
         if leZero (compare (arr_get items j) pivot)
         then (swap items (i + 1) j, i + 1)
         else (items, i))
      (seqZ low (high - low)) (items, low - 1) in
  (swap items' (i + 1) high, i + 1).

Fixpoint quickSort (fuel : nat) (low high : Z) (items : list T)
    : Outcome (list T) :=
  if low <? high then
    match fuel with
    | O => OutOfFuel
    | S fuel' =>
        let '(items1, pivotIndex) := sortPartition low high items in
        items2 ← quickSort fuel' low (pivotIndex - 1) items1;
        quickSort fuel' (pivotIndex + 1) high items2
    end
  else Ok items.

(** *** bubble *)

Definition bubbleSort (items : list T) : list T :=
  let n := Z.of_nat (length items) in
  fold_left
    (λ items i,
       fold_left
         (λ items j,
            if gtZero (compare (arr_get items j) (arr_get items (j + 1)))
            then swap items j (j + 1)
            else items)
         (seqZ 0 (n - i - 1)) items)
    (seqZ 0 (n - 1)) items.

(** *** insertion *)

(** The inner [while (j >= 0 && compare(items[j], key) > 0)], entered with
    [j = c - 1]; answers the array and the final [j]. *)
Fixpoint insertion_shift (key : T) (c : nat) (items : list T) : list T * Z :=
  match c with
  | O => (items, -1)
  | S c' =>
      let j := Z.of_nat c' in
      if gtZero (compare (arr_get items j) key)
      then insertion_shift key c' (arr_set items (j + 1) (arr_get items j))
      else (items, j)
  end.

Definition insertionSort (items : list T) : list T :=
  let n := Z.of_nat (length items) in
  fold_left
    (λ items i,
       let key := arr_get items i in
       let '(items', j) := insertion_shift key (Z.to_nat i) items in
       arr_set items' (j + 1) key)
    (seqZ 1 (n - 1)) items.

(** *** selection *)

Definition selectionSort (items : list T) : list T :=
  let n := Z.of_nat (length items) in
  fold_left
    (λ items i,
       let minIndex :=
         fold_left
           (λ minIndex j,
              if ltZero (compare (arr_get items j) (arr_get items minIndex))
              then j else minIndex)
           (seqZ (i + 1) (n - (i + 1))) i in
       if minIndex =? i then items else swap items i minIndex)
    (seqZ 0 (n - 1)) items.

(** *** heap *)

Fixpoint heapify (fuel : nat) (n i : Z) (items : list T) : Outcome (list T) :=
  let left := 2 * i + 1 in
  let right := 2 * i + 2 in
  let largest :=
    if (left <? n) && gtZero (compare (arr_get items left) (arr_get items i))
    then left else i in
  let largest :=
    if (right <? n)
       && gtZero (compare (arr_get items right) (arr_get items largest))
    then right else largest in
  if largest =? i then Ok items
  else
    match fuel with
    | O => OutOfFuel
    | S fuel' => heapify fuel' n largest (swap items i largest)
    end.

Definition heapSort (fuel : nat) (items : list T) : Outcome (list T) :=
  let n := Z.of_nat (length items) in
  items1 ← forM (λ items i, heapify fuel n i items)
              (List.rev (seqZ 0 (n / 2))) items;
  forM (λ items i, heapify fuel i 0 (swap items 0 i))
    (List.rev (seqZ 1 (n - 1))) items1.

End SortAlgorithms.

(** *** radix *)

Section Radix.
Context {T : Type} `{JsHost T}.

Definition isRadixSortableItem (item : T) : bool :=
  isNumber item && jsLe (numLit 0) item && isInteger item.

Definition isRadixSortable (items : list T) : bool :=
  forallb isRadixSortableItem items.

(** [Math.floor(Math.log10(max)) + 1] *)
Definition maxDigitsOf (items : list T) : T :=
  jsAdd (mathFloor (mathLog10 (mathMax items))) (numLit 1).

(** [Math.floor((item / Math.pow(10, digit)) % 10)] *)
Definition digitValueOf (item : T) (digit : Z) : T :=
  mathFloor
    (jsMod (jsDiv item (mathPow (numLit 10) (numLit digit))) (numLit 10)).

(** [buckets[digitValue].push(item)]; calling [push] on a missing bucket is a
    [TypeError]. *)
Definition bucketPush (buckets : list (list T)) (item : T) (digit : Z)
    : Outcome (list (list T)) :=
  match asIndex (digitValueOf item digit) with
  | Some d =>
      match buckets !! d with
      | Some b => Ok (<[d := b ++ [item]]> buckets)
      | None => Throw "TypeError"
      end
  | None => Throw "TypeError"
  end.

(** One pass of the digit loop: the contents of the array it builds. *)
Definition radixPass (direction : SortDirection) (digit : Z) (items : list T)
    : Outcome (list T) :=
  buckets ← forM (λ buckets item, bucketPush buckets item digit)
              items (replicate 10 []);
  Ok (match direction with
      | asc => concat buckets
      | desc => concat (List.rev buckets)
      end).

End Radix.

(** ** The object store *)

Definition loc := nat.

(** [arrays]: the JavaScript arrays; [lists]: the [List] objects, each with
    the reference held by its [items] field; [console]: what was logged. *)
Record Heap (T : Type) := {
  arrays : gmap loc (list T);
  lists : gmap loc loc;
  console : list string;
}.
Arguments arrays {T}.
Arguments lists {T}.
Arguments console {T}.

Definition HeapM (T A : Type) : Type := Heap T → Outcome (A * Heap T).

Definition heap_ret {T A : Type} (a : A) : HeapM T A := λ h, Ok (a, h).

Definition heap_bind {T A B : Type} (m : HeapM T A) (f : A → HeapM T B)
    : HeapM T B :=
  λ h, match m h with
       | Ok (a, h') => f a h'
       | Throw msg => Throw msg
       | OutOfFuel => OutOfFuel
       end.

Declare Scope heap_scope.
Delimit Scope heap_scope with heap.
Notation "'let!' x ':=' m 'in' k" := (heap_bind m (λ x, k))
  (at level 10, x name, m at level 100, k at level 200) : heap_scope.
Notation "'do!' m 'in' k" := (heap_bind m (λ _, k))
  (at level 10, m at level 100, k at level 200) : heap_scope.

Section Store.
Context {T : Type}.

(** A pure, fallible computation inside a method. *)
Definition liftOutcome {A : Type} (o : Outcome A) : HeapM T A :=
  λ h, match o with
       | Ok a => Ok (a, h)
       | Throw msg => Throw msg
       | OutOfFuel => OutOfFuel
       end.

(** A fresh array holding [l]: an array literal, a spread, [slice], ... *)
Definition newArray (l : list T) : HeapM T loc :=
  λ h, let a := fresh (dom (arrays h)) in
       Ok (a, {| arrays := <[a := l]> (arrays h);
                 lists := lists h; console := console h |}).

Definition readArray (a : loc) : HeapM T (list T) :=
  λ h, match arrays h !! a with
       | Some l => Ok (l, h)
       | None => Throw "invalid array reference"
       end.

(** Overwrite the contents of an existing array, in place. *)
Definition writeArray (a : loc) (l : list T) : HeapM T unit :=
  λ h, match arrays h !! a with
       | Some _ => Ok (tt, {| arrays := <[a := l]> (arrays h);
                              lists := lists h; console := console h |})
       | None => Throw "invalid array reference"
       end.

(** [this.items] *)
Definition loadItems (this : loc) : HeapM T loc :=
  λ h, match lists h !! this with
       | Some a => Ok (a, h)
       | None => Throw "invalid object reference"
       end.

(** [this.items = a] *)
Definition storeItems (this : loc) (a : loc) : HeapM T unit :=
  λ h, match lists h !! this with
       | Some _ => Ok (tt, {| arrays := arrays h;
                              lists := <[this := a]> (lists h);
                              console := console h |})
       | None => Throw "invalid object reference"
       end.

(** [new List(arr)] with [arr] an array: the constructor copies it. *)
Definition newList (arr : loc) : HeapM T loc :=
  (let! l := readArray arr in
   let! a := newArray l in
   λ h, let o := fresh (dom (lists h)) in
        Ok (o, {| arrays := arrays h;
                  lists := <[o := a]> (lists h);
                  console := console h |}))%heap.

(** [console.warn(msg)] *)
Definition console_warn (msg : string) : HeapM T unit :=
  λ h, Ok (tt, {| arrays := arrays h; lists := lists h;
                  console := console h ++ [msg] |}).

(** The sequence a [List] object currently holds. *)
Definition contents (h : Heap T) (this : loc) : option (list T) :=
  a ← lists h !! this; arrays h !! a.

End Store.

(** ** Methods of [List] that touch the store *)

Definition radixWarning : string :=
  "Radix sort is only applicable for lists of positive integers. Falling back to quicksort.".

Definition radixError : string :=
  "Radix sort is only applicable for lists of positive integers.".

Section Methods.
Context {T : Type} `{JsHost T}.

(** The digit loop of [radixSort]; every pass assigns a new array to
    [this.items]. *)
Fixpoint radix_loop (fuel : nat) (this : loc) (direction : SortDirection)
    (maxDigits : T) (digit : Z) : HeapM T unit :=
  if jsLt (numLit digit) maxDigits then
    match fuel with
    | O => λ _, OutOfFuel
    | S fuel' =>
        (let! a := loadItems this in
         let! items := readArray a in
         let! items' := liftOutcome (radixPass direction digit items) in
         let! a' := newArray items' in
         do! storeItems this a' in
         radix_loop fuel' this direction maxDigits (digit + 1))%heap
    end
  else heap_ret tt.

Definition radixSort (fuel : nat) (this : loc) (direction : SortDirection)
    : HeapM T unit :=
  (let! a := loadItems this in
   let! items := readArray a in
   if negb (isRadixSortable items) then λ _, Throw radixError
   else radix_loop fuel this direction (maxDigitsOf items) 0)%heap.

(** An algorithm that rearranges [this.items] in place. *)
Definition sortInPlace (this : loc) (algorithm : list T → Outcome (list T))
    : HeapM T unit :=
  (let! a := loadItems this in
   let! items := readArray a in
   let! items' := liftOutcome (algorithm items) in
   writeArray a items')%heap.

Definition sort (fuel : nat) (this : loc)
    (directionOrCompare : DirectionOrCompare T) (method : option SortMethod)
    : HeapM T loc :=
  let '(compareFunction, direction) :=
    match directionOrCompare with
    | CompareFn f => (f, asc)
    | Direction d => (getDefaultCompare d, d)
    | NoDirection => (getDefaultCompare asc, asc)
    end in
  (do! (match method with
   | Some merge =>
       (* [this.items = this.mergeSort(this.items, compare)]: [mergeSort]
          answers its argument itself when it has at most one element and
          the array built by [merge] otherwise *)
       let! a := loadItems this in
       let! items := readArray a in
       let! items' := liftOutcome (mergeSort compareFunction fuel items) in
       if (length items <=? 1)%nat then storeItems this a
       else (let! a' := newArray items' in storeItems this a')
   | Some quick =>
       sortInPlace this
         (λ items, quickSort compareFunction fuel 0
                     (Z.of_nat (length items) - 1) items)
   | Some bubble => sortInPlace this (λ items, Ok (bubbleSort compareFunction items))
   | Some insertion =>
       sortInPlace this (λ items, Ok (insertionSort compareFunction items))
   | Some selection =>
       sortInPlace this (λ items, Ok (selectionSort compareFunction items))
   | Some heap => sortInPlace this (heapSort compareFunction fuel)
   | Some radix =>
       let! a := loadItems this in
       let! items := readArray a in
       if isRadixSortable items then radixSort fuel this direction
       else
         do! console_warn radixWarning in
         sortInPlace this
           (λ items, quickSort compareFunction fuel 0
                       (Z.of_nat (length items) - 1) items)
   | None => sortInPlace this (λ items, Ok (nativeSort compareFunction items))
   end) in
   heap_ret this)%heap.

(** The comparator of [median]. *)
Definition medianCompare : T → T → T :=
  λ a b, if isNumber a && isNumber b then jsSub a b else numLit 0.

Definition median (this : loc) : HeapM T T :=
  (let! a := loadItems this in
   let! items := readArray a in
   let! copy := newArray items in
   do! writeArray copy (nativeSort medianCompare items) in
   let! sorted := readArray copy in
   let mid := Z.of_nat (length sorted) / 2 in
   heap_ret
     (if negb (Z.of_nat (length sorted) mod 2 =? 0)
      then arr_get sorted mid
      else jsDiv (jsAdd (arr_get sorted (mid - 1)) (arr_get sorted mid))
             (numLit 2)))%heap.

Definition unique (this : loc) : HeapM T loc :=
  (let! a := loadItems this in
   let! items := readArray a in
   let! spread := newArray (Set_spread (Set_from items)) in
   newList spread)%heap.

(** The contents [rotate] assigns for a non-empty list. *)
Definition rotated (k : Z) (items : list T) : list T :=
  let len := Z.of_nat (length items) in
  let k := Z.rem k len in
  let k := if k <? 0 then k + len else k in
  slice items (Some (- k)) None ++ slice items (Some 0) (Some (- k)).

Definition rotate (this : loc) (k : Z) : HeapM T loc :=
  (let! a := loadItems this in
   let! items := readArray a in
   if (length items =? 0)%nat then heap_ret this
   else
     let! a' := newArray (rotated k items) in
     do! storeItems this a' in
     heap_ret this)%heap.

End Methods.

(** ** [chunk]: the groups it builds, as sequences *)

Section Chunk.
Context {T : Type} `{JsHost T}.

(** [for (let i = ...; i < this.items.length; i += size)] *)
Fixpoint chunk_loop (fuel : nat) (items : list T) (size : Z) (i : Z)
    (chunks : list (list T)) : option (list (list T)) :=
  if i <? Z.of_nat (length items) then
    match fuel with
    | O => None
    | S fuel' =>
        chunk_loop fuel' items size (i + size)
          (chunks ++ [slice items (Some i) (Some (i + size))])
    end
  else Some chunks.

Definition chunk (fuel : nat) (items : list T) (size : Z)
    : option (list (list T)) :=
  chunk_loop fuel items size 0 [].

End Chunk.

(** ** The operations derived from [each] *)

Module Traverse.
Section Traverse.
Context {T : Type} `{JsHost T} {W : Type}.
(** [this.items], as the world currently holds it. *)
Variable getItems : W → list T.

(** A callback that answers a value: [EachCallback<T, R>]. *)
Definition Callback (R : Type) : Type :=
  T → Z → EachContext T → W → R * W * Signals.

(** A callback without effects. *)
Definition pure {R : Type} (f : T → Z → EachContext T → R) : Callback R :=
  λ value index context w, (f value index context, w, noSignal).

Definition map {U : Type} (fuel : nat) (callback : Callback U)
    (options : EachOptions) (w : W) : option (list U * W) :=
  each (λ s : list U * W, getItems s.2) fuel
    (λ value index context s,
       let '(u, w', sg) := callback value index context s.2 in
       ((s.1 ++ [u], w'), sg))
    options ([], w).

Definition filter (fuel : nat) (predicate : Callback bool)
    (options : EachOptions) (w : W) : option (list T * W) :=
  each (λ s : list T * W, getItems s.2) fuel
    (λ value index context s,
       let '(b, w', sg) := predicate value index context s.2 in
       ((if b then s.1 ++ [value] else s.1, w'), sg))
    options ([], w).

(** [context.breakFn()] after whatever the predicate raised. *)
Definition withBreak (sg : Signals) : Signals :=
  {| breakRequested := true; continueRequested := continueRequested sg |}.

Definition find (fuel : nat) (predicate : Callback bool)
    (options : EachOptions) (w : W) : option (T * W) :=
  each (λ s : T * W, getItems s.2) fuel
    (λ value index context s,
       let '(b, w', sg) := predicate value index context s.2 in
       if b then ((value, w'), withBreak sg) else ((s.1, w'), sg))
    options (undefined, w).

Definition findIndex (fuel : nat) (predicate : Callback bool)
    (options : EachOptions) (w : W) : option (Z * W) :=
  each (λ s : Z * W, getItems s.2) fuel
    (λ value index context s,
       let '(b, w', sg) := predicate value index context s.2 in
       if b then ((index, w'), withBreak sg) else ((s.1, w'), sg))
    options (-1, w).

Definition every (fuel : nat) (predicate : Callback bool)
    (options : EachOptions) (w : W) : option (bool * W) :=
  each (λ s : bool * W, getItems s.2) fuel
    (λ value index context s,
       let '(b, w', sg) := predicate value index context s.2 in
       if negb b then ((false, w'), withBreak sg) else ((s.1, w'), sg))
    options (true, w).

Definition some (fuel : nat) (predicate : Callback bool)
    (options : EachOptions) (w : W) : option (bool * W) :=
  each (λ s : bool * W, getItems s.2) fuel
    (λ value index context s,
       let '(b, w', sg) := predicate value index context s.2 in
       if b then ((true, w'), withBreak sg) else ((s.1, w'), sg))
    options (false, w).

Definition reduce {U : Type} (fuel : nat)
    (callback : U → Callback U) (initialValue : U)
    (options : EachOptions) (w : W) : option (U * W) :=
  each (λ s : U * W, getItems s.2) fuel
    (λ value index context s,
       let '(u, w', sg) := callback s.1 value index context s.2 in
       ((u, w'), sg))
    options (initialValue, w).

End Traverse.
End Traverse.

(** What a traversal of [items] visits, in order, for a positive step: the
    value, the index and the context of each scheduled visit. *)
Definition visits {T : Type} `{JsHost T} (items : list T)
    (options : EachOptions) : list (T * Z * EachContext T) :=
  let rev := default false (reverse options) in
  let stp := default 1 (step options) in
  let len := Z.of_nat (length items) in
  (λ i, (arr_get items i, i, mkContext rev stp len items i))
    <$> schedule rev stp len.

(** ** More host array operations *)

Section MoreArrays.
Context {T : Type} `{JsHost T}.

(** [items.splice(start, deleteCount, ...inserted)]: the removed elements
    and the contents left. *)
Definition Array_splice (items : list T) (start deleteCount : Z)
    (inserted : list T) : list T * list T :=
  let len := Z.of_nat (length items) in
  let actualStart := relIndex len start in
  let actualDeleteCount := Z.min (Z.max deleteCount 0) (len - actualStart) in
  (take (Z.to_nat actualDeleteCount) (drop (Z.to_nat actualStart) items),
   take (Z.to_nat actualStart) items ++ inserted
     ++ drop (Z.to_nat (actualStart + actualDeleteCount)) items).

End MoreArrays.

(** ** More methods of [List] that touch the store *)

Module ListMethods.
Section ListMethods.
Context {T : Type} `{JsHost T}.

(** [push(...elements)]: the new length. *)
Definition push (this : loc) (elements : list T) : HeapM T Z :=
  (let! a := loadItems this in
   let! items := readArray a in
   do! writeArray a (items ++ elements) in
   heap_ret (Z.of_nat (length (items ++ elements))))%heap.

Definition pop (this : loc) : HeapM T T :=
  (let! a := loadItems this in
   let! items := readArray a in
   match items with
   | [] => heap_ret undefined
   | _ :: _ =>
       do! writeArray a (removelast items) in
       heap_ret (List.last items undefined)
   end)%heap.

Definition shift (this : loc) : HeapM T T :=
  (let! a := loadItems this in
   let! items := readArray a in
   match items with
   | [] => heap_ret undefined
   | first :: rest =>
       do! writeArray a rest in
       heap_ret first
   end)%heap.

(** [unshift(...elements)]: the new length. *)
Definition unshift (this : loc) (elements : list T) : HeapM T Z :=
  (let! a := loadItems this in
   let! items := readArray a in
   do! writeArray a (elements ++ items) in
   heap_ret (Z.of_nat (length (elements ++ items))))%heap.

(** [insert(element, index)]: [this.items.splice(index, 0, element)] *)
Definition insert (this : loc) (element : T) (index : Z) : HeapM T unit :=
  (let! a := loadItems this in
   let! items := readArray a in
   writeArray a (Array_splice items index 0 [element]).2)%heap.

(** [remove(index)]: [this.items.splice(index, 1)[0]] *)
Definition remove (this : loc) (index : Z) : HeapM T T :=
  (let! a := loadItems this in
   let! items := readArray a in
   let '(removed, items') := Array_splice items index 1 [] in
   do! writeArray a items' in
   heap_ret (arr_get removed 0))%heap.

(** [toArray()]: [this.items.slice()] *)
Definition toArray (this : loc) : HeapM T loc :=
  (let! a := loadItems this in
   let! items := readArray a in
   newArray (slice items None None))%heap.

(** [slice(start, end)]: [new List(this.items.slice(start, end))] *)
Definition sliceOf (this : loc) (start end_ : option Z) : HeapM T loc :=
  (let! a := loadItems this in
   let! items := readArray a in
   let! sliced := newArray (slice items start end_) in
   newList sliced)%heap.

(** [clone()]: [this.slice()] *)
Definition clone (this : loc) : HeapM T loc := sliceOf this None None.

(** [toJSON()]: [this.items] itself *)
Definition toJSON (this : loc) : HeapM T loc := loadItems this.

(** [reverse()]: [this.items.reverse()], in place *)
Definition reverse (this : loc) : HeapM T loc :=
  (let! a := loadItems this in
   let! items := readArray a in
   do! writeArray a (List.rev items) in
   heap_ret this)%heap.

(** The callback of [reverseWithEach]; its world is [reversed]. *)
Definition reverseWithEach_callback : EachCallback T (list T) :=
  λ value _index _context reversed, (value :: reversed, noSignal).

Definition reverseWithEach (fuel : nat) (this : loc) : HeapM T loc :=
  (let! a := loadItems this in
   let! items := readArray a in
   match each (λ _, items) fuel reverseWithEach_callback noOptions [] with
   | None => λ _, OutOfFuel
   | Some reversed =>
       let! a' := newArray reversed in
       do! storeItems this a' in
       heap_ret this
   end)%heap.

(** The contents [shuffle] leaves when the [i]-th iteration draws
    [draws i] for [Math.floor(Math.random() * (i + 1))]. *)
Definition shuffled (draws : Z → Z) (items : list T) : list T :=
  fold_left (λ items i, swap items i (draws i))
    (List.rev (seqZ 1 (Z.of_nat (length items) - 1))) items.

Definition shuffle (draws : Z → Z) (this : loc) : HeapM T loc :=
  (do! sortInPlace this (λ items, Ok (shuffled draws items)) in
   heap_ret this)%heap.

End ListMethods.
End ListMethods.

(** ** Leaf utilities, as sequences *)

Module Utilities.
Section Utilities.
Context {T : Type} `{JsHost T}.

(** [sum]: the native [reduce] from [0]. *)
Definition sum (items : list T) : T :=
  fold_left (λ acc val, jsAdd acc (if isNumber val then val else numLit 0))
    items (numLit 0).

(** [cumulativeSum]: the running [sum += ...] of the native [map]. *)
Definition cumulativeSum (items : list T) : list T :=
  (fold_left
     (λ '(sum, out) item,
        let sum' := jsAdd sum (if isNumber item then item else numLit 0) in
        (sum', out ++ [sum']))
     items (numLit 0, [])).2.

Definition average (items : list T) : T :=
  jsDiv (sum items) (numLit (Z.of_nat (length items))).

(** [isSorted]: no element is [<] its predecessor. *)
Definition isSorted (items : list T) : bool :=
  forallb (λ i, negb (jsLt (arr_get items i) (arr_get items (i - 1))))
    (seqZ 1 (Z.of_nat (length items) - 1)).

Definition zip (items other : list T) : list (T * T) :=
  let minLength := Z.min (Z.of_nat (length items)) (Z.of_nat (length other)) in
  fold_left (λ result i, result ++ [(arr_get items i, arr_get other i)])
    (seqZ 0 minLength) [].

Definition interleave (items other : list T) : list T :=
  let maxLength := Z.max (Z.of_nat (length items)) (Z.of_nat (length other)) in
  fold_left
    (λ result i,
       let result :=
         if i <? Z.of_nat (length items) then result ++ [arr_get items i]
         else result in
       if i <? Z.of_nat (length other) then result ++ [arr_get other i]
       else result)
    (seqZ 0 maxLength) [].

Definition partition (predicate : T → bool) (items : list T)
    : list T * list T :=
  fold_left
    (λ '(trueList, falseList) item,
       if predicate item then (trueList ++ [item], falseList)
       else (trueList, falseList ++ [item]))
    items ([], []).

Definition adjacentReduce {U : Type} (reducer : T → T → U) (items : list T)
    : list U :=
  fold_left
    (λ result i, result ++ [reducer (arr_get items (i - 1)) (arr_get items i)])
    (seqZ 1 (Z.of_nat (length items) - 1)) [].

Definition slidingWindow (items : list T) (windowSize : Z) : list (list T) :=
  let len := Z.of_nat (length items) in
  if len <? windowSize then []
  else
    fold_left
      (λ result i, result ++ [slice items (Some i) (Some (i + windowSize))])
      (seqZ 0 (len - windowSize + 1)) [].

Definition slidingApply {U : Type} (items : list T) (windowSize : Z)
    (fn : list T → U) : list U :=
  let len := Z.of_nat (length items) in
  fold_left
    (λ result i,
       result ++ [fn (slice items (Some i) (Some (i + windowSize)))])
    (seqZ 0 (len - windowSize + 1)) [].

(** [for (let i = ...; i < this.items.length; i += n)] of [divideInto];
    [fill] is [undefined] when the argument is omitted. *)
Fixpoint divideInto_loop (fuel : nat) (items : list T) (n : Z) (fill : T)
    (i : Z) (result : list (list T)) : option (list (list T)) :=
  if i <? Z.of_nat (length items) then
    match fuel with
    | O => None
    | S fuel' =>
        let chunk := slice items (Some i) (Some (i + n)) in
        let chunk :=
          if negb (strictEquals fill undefined)
             && (Z.of_nat (length chunk) <? n)
          then chunk ++ replicate (Z.to_nat (n - Z.of_nat (length chunk))) fill
          else chunk in
        divideInto_loop fuel' items n fill (i + n) (result ++ [chunk])
    end
  else Some result.

Definition divideInto (fuel : nat) (items : list T) (n : Z) (fill : T)
    : option (list (list T)) :=
  divideInto_loop fuel items n fill 0 [].

Definition sublists (items : list T) : list (list T) :=
  let len := Z.of_nat (length items) in
  fold_left
    (λ result i,
       fold_left
         (λ result j, result ++ [slice items (Some i) (Some (j + 1))])
         (seqZ i (len - i)) result)
    (seqZ 0 len) [[]].

Definition foldLeft {U : Type} (items : list T) (initial : U)
    (fn : U → T → U) : U :=
  fold_left fn items initial.

Definition foldRight {U : Type} (items : list T) (initial : U)
    (fn : T → U → U) : U :=
  fold_left (λ result i, fn (arr_get items i) result)
    (List.rev (seqZ 0 (Z.of_nat (length items)))) initial.

(** [permutations()]: the recursion is on a list one element shorter. *)
Fixpoint permutations (fuel : nat) (items : list T)
    : option (list (list T)) :=
  if (length items =? 0)%nat then Some [[]]
  else
    match fuel with
    | O => None
    | S fuel' =>
        foldr
          (λ i acc,
             let rest := slice items (Some 0) (Some i)
                         ++ slice items (Some (i + 1)) None in
             perms ← permutations fuel' rest;
             later ← acc;
             Some (((λ perm, arr_get items i :: perm) <$> perms) ++ later))
          (Some []) (seqZ 0 (Z.of_nat (length items)))
    end.

(** [combine(start, current)] of [combinations(k)], pushing onto [result]. *)
Fixpoint combine (fuel : nat) (items : list T) (k : Z) (start : Z)
    (current : list T) (result : list (list T)) : option (list (list T)) :=
  if Z.of_nat (length current) =? k then Some (result ++ [current])
  else
    match fuel with
    | O => None
    | S fuel' =>
        fold_left
          (λ acc i,
             result ← acc;
             combine fuel' items k (i + 1) (current ++ [arr_get items i])
               result)
          (seqZ start (Z.of_nat (length items) - start)) (Some result)
    end.

Definition combinations (fuel : nat) (items : list T) (k : Z)
    : option (list (list T)) :=
  combine fuel items k 0 [] [].

(** [groupBy(keyFn)]: the groups, as a [Map] from keys to sequences. *)
Definition groupBy_step (keyFn : T → T) (groups : JsMap T (list T))
    (item : T) : JsMap T (list T) :=
  let key := keyFn item in
  let groups :=
    match map_get groups key with
    | Some _ => groups
    | None => map_set groups key []
    end in
  map_set groups key (default [] (map_get groups key) ++ [item]).

Definition groupBy (keyFn : T → T) (items : list T) : JsMap T (list T) :=
  fold_left (groupBy_step keyFn) items [].

(** The function [memoize(fn)] returns, applied to [item] with the cache as
    it stands; [fn] runs in the caller's world. *)
Definition memoized {U W : Type} (fn : T → W → U * W) (item : T)
    (s : JsMap T U * W) : U * (JsMap T U * W) :=
  let '(cache, w) := s in
  match map_get cache item with
  | Some u => (u, (cache, w))
  | None =>
      let '(u, w') := fn item w in
      (u, (map_set cache item u, w'))
  end.

End Utilities.
End Utilities.

(** ** Order *)

Section Order.
Context {T : Type} `{JsHost T}.

(** No element stands right before one the comparator puts it after:
    [compare(l[k], l[k + 1]) > 0] for no [k]. *)
Definition adjacentOrdered (compare : T → T → T) (l : list T) : Prop :=
  ∀ (k : nat) (x y : T),
    l !! k = Some x → l !! S k = Some y → gtZero (compare x y) = false.

End Order.

(** ** What ECMAScript guarantees about the host operations *)

(** SameValueZero is an equivalence, and the key a collection stores is
    equivalent to the key it was given. *)
Class KeyLaws (T : Type) `{JsHost T} : Prop := {
  sameValueZero_refl : ∀ x : T, sameValueZero x x = true;
  sameValueZero_sym :
    ∀ x y : T, sameValueZero x y = true → sameValueZero y x = true;
  sameValueZero_trans :
    ∀ x y z : T, sameValueZero x y = true → sameValueZero y z = true →
                 sameValueZero x z = true;
  canonKey_same : ∀ x : T, sameValueZero (canonKey x) x = true;
}.

(** The native sort rearranges the elements it is given, whatever the
    comparator. *)
Class NativeSortLaws (T : Type) `{JsHost T} : Prop := {
  nativeSort_permutation :
    ∀ (compare : T → T → T) (l : list T), nativeSort compare l ≡ₚ l;
}.

(** For non-negative integers, a decimal digit is one of the ten bucket
    indices, and the number of digits of the maximum is finite. *)
Class RadixLaws (T : Type) `{JsHost T} : Prop := {
  radix_digit_index :
    ∀ (item : T) (digit : Z),
      isRadixSortableItem item = true → 0 ≤ digit →
      ∃ d : nat, asIndex (digitValueOf item digit) = Some d ∧ (d < 10)%nat;
  radix_digits_finite :
    ∀ items : list T,
      isRadixSortable items = true →
      ∃ n : nat, jsLt (numLit (Z.of_nat n)) (maxDigitsOf items) = false;
}.

(** [<] never holds in both directions; between numbers, [a - b > 0]
    exactly when [b < a] (also for [NaN] and the infinities); and [0 < 1]
    but not [0 < -1]. *)
Class OrderLaws (T : Type) `{JsHost T} : Prop := {
  jsLt_asym : ∀ a b : T, jsLt a b = true → jsLt b a = false;
  jsSub_positive :
    ∀ a b : T, isNumber a = true → isNumber b = true →
               jsLt (numLit 0) (jsSub a b) = jsLt b a;
  zero_lt_one : jsLt (numLit 0) (numLit 1) = true;
  zero_lt_minus_one : jsLt (numLit 0) (numLit (-1)) = false;
}.

(** ** Comparators

    What ECMAScript asks of the function given to [Array.prototype.sort],
    and what it promises in return. *)

Section Comparators.
Context {T : Type} `{JsHost T}.

(** [Number.isFinite(x)]: a number whose difference with itself is [0]
    ([NaN - NaN] and [Infinity - Infinity] are [NaN]). *)
Definition isFiniteNumber (x : T) : bool :=
  isNumber x && strictEquals (jsSub x x) (numLit 0).

Variable compare : T → T → T.

(** [a <CF b], [a =CF b] and [a >CF b]: the result of [compare(a, b)] is
    negative, zero, positive. *)
Definition lessCF (a b : T) : bool := ltZero (compare a b).
Definition equalCF (a b : T) : bool := strictEquals (compare a b) (numLit 0).
Definition greaterCF (a b : T) : bool := gtZero (compare a b).

(** A consistent comparator for the values in [S]: every result is a number
    other than [NaN], so exactly one of the three relations holds; [=CF] is
    an equivalence; [<CF] and [>CF] are transitive. *)
Record consistentComparator (S : T → Prop) : Prop := {
  consistent_number :
    ∀ a b, S a → S b →
      (lessCF a b = true ∧ equalCF a b = false ∧ greaterCF a b = false)
      ∨ (lessCF a b = false ∧ equalCF a b = true ∧ greaterCF a b = false)
      ∨ (lessCF a b = false ∧ equalCF a b = false ∧ greaterCF a b = true);
  consistent_refl : ∀ a, S a → equalCF a a = true;
  consistent_sym : ∀ a b, S a → S b → equalCF a b = true → equalCF b a = true;
  consistent_trans :
    ∀ a b c, S a → S b → S c →
      equalCF a b = true → equalCF b c = true → equalCF a c = true;
  consistent_less_trans :
    ∀ a b c, S a → S b → S c →
      lessCF a b = true → lessCF b c = true → lessCF a c = true;
  consistent_greater_trans :
    ∀ a b c, S a → S b → S c →
      greaterCF a b = true → greaterCF b c = true → greaterCF a c = true;
}.

End Comparators.

(** With a consistent comparator and no [undefined] element, the native
    sort puts [a] before [b] whenever [compare(a, b) < 0]: no element of the
    result is less than an element before it.  (For any other comparator
    the order is implementation-defined.) *)
Class NativeSortOrdered (T : Type) `{JsHost T} : Prop := {
  nativeSort_ordered :
    ∀ (compare : T → T → T) (l : list T),
      Forall (λ x, strictEquals x undefined = false) l →
      consistentComparator compare (λ x, x ∈ l) →
      ∀ (p q : nat) (x y : T),
        (p < q)%nat →
        nativeSort compare l !! p = Some x →
        nativeSort compare l !! q = Some y →
        lessCF compare y x = false;
}.

(** Finite numbers: a number is not [undefined]; [a - b] is negative, zero
    or positive exactly when [a < b], neither is less than the other, or
    [b < a]; and [<] is a strict weak order on them. *)
Class FiniteNumberLaws (T : Type) `{JsHost T} : Prop := {
  number_defined :
    ∀ x : T, isNumber x = true → strictEquals x undefined = false;
  finite_sub_negative :
    ∀ a b : T, isFiniteNumber a = true → isFiniteNumber b = true →
               jsLt (jsSub a b) (numLit 0) = jsLt a b;
  finite_sub_positive :
    ∀ a b : T, isFiniteNumber a = true → isFiniteNumber b = true →
               jsLt (numLit 0) (jsSub a b) = jsLt b a;
  finite_sub_zero :
    ∀ a b : T, isFiniteNumber a = true → isFiniteNumber b = true →
               strictEquals (jsSub a b) (numLit 0)
               = negb (jsLt a b) && negb (jsLt b a);
  finite_lt_asym :
    ∀ a b : T, isFiniteNumber a = true → isFiniteNumber b = true →
               jsLt a b = true → jsLt b a = false;
  finite_lt_trans :
    ∀ a b c : T,
      isFiniteNumber a = true → isFiniteNumber b = true →
      isFiniteNumber c = true →
      jsLt a b = true → jsLt b c = true → jsLt a c = true;
  finite_lt_between :
    ∀ a b c : T,
      isFiniteNumber a = true → isFiniteNumber b = true →
      isFiniteNumber c = true →
      jsLt a c = true → jsLt a b = true ∨ jsLt b c = true;
}.

(** ** A reference host

    JavaScript values restricted to [undefined], strings and numbers, the
    finite numbers being exact rationals (so there is no rounding and no
    negative zero).  Operators applied to operands this host does not
    convert (a string in arithmetic, a mixed comparison) answer [NaN] or
    [false].  It is used to run the class on concrete lists. *)

Module RationalHost.

Inductive value : Type :=
  | VUndefined
  | VString (s : string)
  | VNaN
  | VInfinity (negative : bool)
  | VNumber (q : Q).

Definition num (z : Z) : value := VNumber (inject_Z z).

Definition is_number (v : value) : bool :=
  match v with
  | VNaN | VInfinity _ | VNumber _ => true
  | _ => false
  end.

Definition Qlt_bool (p q : Q) : bool := Qle_bool p q && negb (Qeq_bool p q).

Definition strict_equals (a b : value) : bool :=
  match a, b with
  | VUndefined, VUndefined => true
  | VString s, VString t => String.eqb s t
  | VInfinity x, VInfinity y => Bool.eqb x y
  | VNumber p, VNumber q => Qeq_bool p q
  | _, _ => false
  end.

Definition same_value_zero (a b : value) : bool :=
  match a, b with
  | VNaN, VNaN => true
  | _, _ => strict_equals a b
  end.

Definition negate (a : value) : value :=
  match a with
  | VNumber q => VNumber (Qred (- q))
  | VInfinity s => VInfinity (negb s)
  | _ => VNaN
  end.

Definition add (a b : value) : value :=
  match a, b with
  | VString s, VString t => VString (s ++ t)
  | VNumber p, VNumber q => VNumber (Qred (p + q))
  | VInfinity s, VNumber _ | VNumber _, VInfinity s => VInfinity s
  | VInfinity s, VInfinity t => if Bool.eqb s t then VInfinity s else VNaN
  | _, _ => VNaN
  end.

Definition sub (a b : value) : value :=
  match a, b with
  | VString _, _ | _, VString _ => VNaN
  | _, _ => add a (negate b)
  end.

Definition Qnegative (q : Q) : bool := Qlt_bool q 0.

Definition div (a b : value) : value :=
  match a, b with
  | VNumber p, VNumber q =>
      if Qeq_bool q 0
      then (if Qeq_bool p 0 then VNaN else VInfinity (Qnegative p))
      else VNumber (Qred (p / q))
  | VNumber _, VInfinity _ => VNumber 0
  | VInfinity s, VNumber q => VInfinity (xorb s (Qnegative q))
  | _, _ => VNaN
  end.

Definition Qtruncate (q : Q) : Z :=
  if Qnegative q then Qceiling q else Qfloor q.

Definition modulo (a b : value) : value :=
  match a, b with
  | VNumber p, VNumber q =>
      if Qeq_bool q 0 then VNaN
      else VNumber (Qred (p - q * inject_Z (Qtruncate (p / q))))
  | VNumber p, VInfinity _ => VNumber p
  | _, _ => VNaN
  end.

Definition lt (a b : value) : bool :=
  match a, b with
  | VString s, VString t => String.ltb s t
  | VNumber p, VNumber q => Qlt_bool p q
  | VInfinity true, VNumber _ | VNumber _, VInfinity false
  | VInfinity true, VInfinity false => true
  | _, _ => false
  end.

Definition le (a b : value) : bool :=
  match a, b with
  | VString s, VString t => String.leb s t
  | VNumber p, VNumber q => Qle_bool p q
  | VInfinity true, VNumber _ | VNumber _, VInfinity false => true
  | VInfinity s, VInfinity t => implb t s
  | _, _ => false
  end.

Definition is_integer (v : value) : bool :=
  match v with
  | VNumber q => Qeq_bool q (inject_Z (Qfloor q))
  | _ => false
  end.

Definition max2 (a b : value) : value :=
  if negb (is_number a && is_number b) then VNaN
  else match a, b with
       | VNaN, _ | _, VNaN => VNaN
       | _, _ => if lt a b then b else a
       end.

Definition math_max (xs : list value) : value :=
  fold_left max2 xs (VInfinity true).

Definition math_floor (v : value) : value :=
  match v with
  | VNumber q => VNumber (inject_Z (Qfloor q))
  | VInfinity s => VInfinity s
  | _ => VNaN
  end.

(** The number of decimal digits of a positive integer. *)
Fixpoint digits_fuel (fuel : nat) (n : Z) : Z :=
  match fuel with
  | O => 1
  | S fuel' => if n <? 10 then 1 else 1 + digits_fuel fuel' (n / 10)
  end.

Definition digits (n : Z) : Z := digits_fuel (Z.to_nat (Z.log2 n)) n.

(** The floor of the decimal logarithm; this program only ever uses
    [Math.log10] under [Math.floor]. *)
Definition math_log10 (v : value) : value :=
  match v with
  | VNumber q =>
      if Qeq_bool q 0 then VInfinity true
      else if Qnegative q then VNaN
      else if Qle_bool 1 q then num (digits (Qfloor q) - 1)
      else num (- digits (Qceiling (/ q) - 1))
  | VInfinity false => VInfinity false
  | _ => VNaN
  end.

(** Powers with an integer exponent. *)
Definition math_pow (a b : value) : value :=
  match a, b with
  | VNumber p, VNumber q =>
      if negb (is_integer b) then VNaN
      else if Qeq_bool p 0 && Qnegative q then VInfinity false
      else VNumber (Qred (p ^ Qfloor q))
  | _, _ => VNaN
  end.

Definition as_index (v : value) : option nat :=
  match v with
  | VNumber q =>
      if is_integer v && Qle_bool 0 q then Some (Z.to_nat (Qfloor q)) else None
  | _ => None
  end.

(** A stable insertion sort; [undefined] goes last and is never compared. *)
Fixpoint sorted_insert (compare : value → value → value) (x : value)
    (l : list value) : list value :=
  match l with
  | [] => [x]
  | y :: l' =>
      if lt (compare x y) (num 0) then x :: y :: l'
      else y :: sorted_insert compare x l'
  end.

Definition is_undefined (v : value) : bool :=
  match v with VUndefined => true | _ => false end.

Definition native_sort (compare : value → value → value) (l : list value)
    : list value :=
  fold_left (λ acc x, sorted_insert compare x acc)
    (List.filter (λ v, negb (is_undefined v)) l) []
  ++ List.filter is_undefined l.

#[global] Instance host : JsHost value := {|
  undefined := VUndefined;
  numLit := num;
  isNumber := is_number;
  strictEquals := strict_equals;
  sameValueZero := same_value_zero;
  canonKey := id;
  jsAdd := add;
  jsSub := sub;
  jsDiv := div;
  jsMod := modulo;
  jsLt := lt;
  jsLe := le;
  isInteger := is_integer;
  mathMax := math_max;
  mathFloor := math_floor;
  mathLog10 := math_log10;
  mathPow := math_pow;
  asIndex := as_index;
  nativeSort := native_sort;
|}.

(** A store holding one [List] object, at reference [0]. *)
Definition singleList (items : list value) : Heap value :=
  {| arrays := {[ 0%nat := items ]}; lists := {[ 0%nat := 0%nat ]};
     console := [] |}.

(** A callback that records each index it is called with and raises the
    signals [signals] prescribes for that index. *)
Definition logging (signals : Z → Signals) : EachCallback value (list Z) :=
  λ _ index _ log, (log ++ [index], signals index).

(** A callback that records the index and the two position flags of every
    context it is given. *)
Definition flagLogging : EachCallback value (list (Z * bool * bool)) :=
  λ _ index context log,
    (log ++ [(index, isFirst context, isLast context)], noSignal).

(** Raise [continueFn] at index [0] only. *)
Definition continueAtZero (index : Z) : Signals :=
  if index =? 0 then continueSignal else noSignal.

(** Raise both [breakFn] and [continueFn] at index [0] only. *)
Definition breakAndContinueAtZero (index : Z) : Signals :=
  if index =? 0
  then {| breakRequested := true; continueRequested := true |}
  else noSignal.

End RationalHost.

(* ===================================================================== *)
(** * Part II: properties *)
(* ===================================================================== *)

(** ** The traversal primitive *)

Section EachFacts.
Context {T : Type} `{JsHost T} {W : Type}.
Variable getItems : W → list T.
Variable callback : EachCallback T W.
Variable rev : bool.
Variable stp : Z.
Variable len : Z.

Local Abbreviation iterate' := (iterate getItems callback rev stp len).
Local Abbreviation invoke' := (invoke getItems callback rev stp len).

(** With both flags clear, [iterate] is the call of the callback. *)
Lemma iterate_flags_clear (i : Z) (w : W) :
  iterate' i (initState w) =
    {| world := (invoke' i w).1;
       breakLoop := breakRequested (invoke' i w).2;
       continueLoop := continueRequested (invoke' i w).2 |}.
Proof.
  unfold iterate, initState; simpl.
  destruct (invoke' i w) as [w' [b c]]; simpl.
  by destruct b, c.
Qed.

(** Once [breakLoop] is set, no visit does anything. *)
Lemma iterate_after_break (i : Z) (st : LoopState W) :
  breakLoop st = true → iterate' i st = st.
Proof. intros Hb. unfold iterate. by rewrite Hb. Qed.

(** A pending [continueLoop] is consumed by the visit that finds it. *)
Lemma iterate_consumes_continue (i : Z) (w : W) :
  iterate' i {| world := w; breakLoop := false; continueLoop := true |}
  = initState w.
Proof. reflexivity. Qed.

(** The loops of [each] call [iterate] on the scheduled indices, in order. *)
Lemma each_forward_steps (n : nat) :
  0 < stp →
  ∀ (fuel : nat) (k : nat) (st : LoopState W),
    (n ≤ fuel)%nat →
    Z.to_nat ((len - Z.of_nat k * stp + stp - 1) / stp) = n →
    each_forward getItems callback rev stp len fuel (Z.of_nat k * stp) st =
      Some (fold_left (λ s i, iterate' i s)
              ((λ j : nat, Z.of_nat j * stp) <$> seq k n) st).
Proof.
  intros Hs. induction n as [|n IH]; intros fuel k st Hf Hn.
  - assert (len ≤ Z.of_nat k * stp).
    { destruct (Z.le_gt_cases len (Z.of_nat k * stp)) as [|Hlt]; [done|].
      exfalso.
      assert (1 ≤ (len - Z.of_nat k * stp + stp - 1) / stp).
      { apply Z.div_le_lower_bound; lia. }
      lia. }
    destruct fuel; simpl;
      (destruct (Z.ltb_spec (Z.of_nat k * stp) len); [lia|done]).
  - assert (Z.of_nat k * stp < len).
    { destruct (Z.lt_ge_cases (Z.of_nat k * stp) len) as [|Hge]; [done|].
      exfalso.
      assert ((len - Z.of_nat k * stp + stp - 1) / stp ≤ 0).
      { apply Z.lt_succ_r. apply Z.div_lt_upper_bound; lia. }
      lia. }
    destruct fuel as [|fuel]; [lia|]. simpl.
    destruct (Z.ltb_spec (Z.of_nat k * stp) len); [|lia].
    replace (Z.of_nat k * stp + stp) with (Z.of_nat (S k) * stp) by lia.
    rewrite (IH fuel (S k)); [done|lia|].
    replace (len - Z.of_nat (S k) * stp + stp - 1)
      with ((len - Z.of_nat k * stp + stp - 1) + (-1) * stp) by lia.
    rewrite Z.div_add by lia. lia.
Qed.

Lemma each_reverse_steps (n : nat) :
  0 < stp →
  ∀ (fuel : nat) (k : nat) (st : LoopState W),
    (n ≤ fuel)%nat →
    Z.to_nat ((len - Z.of_nat k * stp + stp - 1) / stp) = n →
    each_reverse getItems callback rev stp len fuel
      (len - 1 - Z.of_nat k * stp) st =
      Some (fold_left (λ s i, iterate' i s)
              ((λ j : nat, len - 1 - Z.of_nat j * stp) <$> seq k n) st).
Proof.
  intros Hs. induction n as [|n IH]; intros fuel k st Hf Hn.
  - assert (len ≤ Z.of_nat k * stp).
    { destruct (Z.le_gt_cases len (Z.of_nat k * stp)) as [|Hlt]; [done|].
      exfalso.
      assert (1 ≤ (len - Z.of_nat k * stp + stp - 1) / stp).
      { apply Z.div_le_lower_bound; lia. }
      lia. }
    destruct fuel; simpl;
      (destruct (Z.leb_spec 0 (len - 1 - Z.of_nat k * stp)); [lia|done]).
  - assert (Z.of_nat k * stp < len).
    { destruct (Z.lt_ge_cases (Z.of_nat k * stp) len) as [|Hge]; [done|].
      exfalso.
      assert ((len - Z.of_nat k * stp + stp - 1) / stp ≤ 0).
      { apply Z.lt_succ_r. apply Z.div_lt_upper_bound; lia. }
      lia. }
    destruct fuel as [|fuel]; [lia|]. simpl.
    destruct (Z.leb_spec 0 (len - 1 - Z.of_nat k * stp)); [|lia].
    replace (len - 1 - Z.of_nat k * stp - stp)
      with (len - 1 - Z.of_nat (S k) * stp) by lia.
    rewrite (IH fuel (S k)); [done|lia|].
    replace (len - Z.of_nat (S k) * stp + stp - 1)
      with ((len - Z.of_nat k * stp + stp - 1) + (-1) * stp) by lia.
    rewrite Z.div_add by lia. lia.
Qed.

End EachFacts.

(** For a positive step and fuel for every scheduled visit, [each] returns,
    having called [iterate] on [schedule], in that order. *)
Lemma each_runs_schedule {T : Type} `{JsHost T} {W : Type}
    (getItems : W → list T) (callback : EachCallback T W)
    (options : EachOptions) (fuel : nat) (w : W) :
  let rev := default false (reverse options) in
  let stp := default 1 (step options) in
  let len := Z.of_nat (length (getItems w)) in
  0 < stp →
  (visitCount stp len ≤ fuel)%nat →
  each getItems fuel callback options w =
    Some (world (fold_left (λ s i, iterate getItems callback rev stp len i s)
                   (schedule rev stp len) (initState w))).
Proof.
  simpl. intros Hs Hf. unfold each, schedule.
  set (stp := default 1 (step options)) in *.
  set (len := Z.of_nat (length (getItems w))) in *.
  destruct (default false (reverse options)).
  - pose proof (each_reverse_steps getItems callback true stp len
                  (visitCount stp len) Hs fuel 0%nat (initState w) Hf) as E.
    rewrite Z.mul_0_l in E.
    replace (len - 1 - 0) with (len - 1) in E by lia. rewrite E; [done|].
    unfold visitCount. f_equal. f_equal. lia.
  - pose proof (each_forward_steps getItems callback false stp len
                  (visitCount stp len) Hs fuel 0%nat (initState w) Hf) as E.
    rewrite Z.mul_0_l in E. rewrite E; [done|].
    unfold visitCount. f_equal. f_equal. lia.
Qed.

(** C1 (amended).  When the callback of a visit calls [continueFn] and
    [breakFn] has not been called, the visit itself completes (the world is
    the one the callback left), the next scheduled visit does not call the
    callback and clears the flag, and the visit after that calls the callback
    again; in both loops of [each] the traversal thus resumes two steps
    further with both flags clear. *)
Theorem each_continue_skips_next_visit {T : Type} `{JsHost T} {W : Type}
    (getItems : W → list T) (callback : EachCallback T W)
    (rev : bool) (stp len i : Z) (w : W) :
  let iterate' := iterate getItems callback rev stp len in
  let invoke' := invoke getItems callback rev stp len in
  let r := invoke' i w in
  continueRequested r.2 = true →
  breakRequested r.2 = false →
  iterate' i (initState w)
    = {| world := r.1; breakLoop := false; continueLoop := true |}
  ∧ (∀ j, iterate' j (iterate' i (initState w)) = initState r.1)
  ∧ (∀ j k, iterate' k (iterate' j (iterate' i (initState w)))
            = {| world := (invoke' k r.1).1;
                 breakLoop := breakRequested (invoke' k r.1).2;
                 continueLoop := continueRequested (invoke' k r.1).2 |})
  ∧ (∀ fuel, i < len → i + stp < len →
       each_forward getItems callback rev stp len (S (S fuel)) i (initState w)
       = each_forward getItems callback rev stp len fuel (i + stp + stp)
           (initState r.1))
  ∧ (∀ fuel, 0 ≤ i → 0 ≤ i - stp →
       each_reverse getItems callback rev stp len (S (S fuel)) i (initState w)
       = each_reverse getItems callback rev stp len fuel (i - stp - stp)
           (initState r.1)).
Proof.
  intros iterate' invoke' r Hc Hb.
  assert (E1 : iterate' i (initState w)
               = {| world := r.1; breakLoop := false; continueLoop := true |}).
  { unfold iterate'. rewrite iterate_flags_clear.
    fold invoke' r. by rewrite Hc, Hb. }
  assert (E2 : ∀ j, iterate' j (iterate' i (initState w)) = initState r.1).
  { intros j. rewrite E1. apply iterate_consumes_continue. }
  repeat split.
  - exact E1.
  - exact E2.
  - intros j k. rewrite E2. apply iterate_flags_clear.
  - intros fuel Hi Hj. simpl.
    destruct (Z.ltb_spec i len); [|lia].
    destruct (Z.ltb_spec (i + stp) len); [|lia].
    fold iterate'. by rewrite E2.
  - intros fuel Hi Hj. simpl.
    destruct (Z.leb_spec 0 i); [|lia].
    destruct (Z.leb_spec 0 (i - stp)); [|lia].
    fold iterate'. by rewrite E2.
Qed.

(** C5 (amended).  For a positive step, [each] returns once it has called
    [iterate] on every index of the schedule, in order; at the [k]-th
    scheduled index, [isFirst] holds exactly for the first visit, and
    [isLast] holds exactly when the visit is the last one and the step
    divides [length - 1], that is, exactly at the boundary index where the
    traversal direction ends. *)
Theorem each_isFirst_isLast {T : Type} `{JsHost T}
    (rev : bool) (stp : Z) (items : list T) (k : nat) (i : Z) :
  let len := Z.of_nat (length items) in
  let context := mkContext rev stp len items i in
  0 < stp →
  schedule rev stp len !! k = Some i →
  (∀ (W : Type) (getItems : W → list T) (callback : EachCallback T W)
     (w : W) (fuel : nat),
     getItems w = items → (visitCount stp len ≤ fuel)%nat →
     each getItems fuel callback {| reverse := Some rev; step := Some stp |} w
     = Some (world (fold_left
                      (λ s i, iterate getItems callback rev stp len i s)
                      (schedule rev stp len) (initState w))))
  ∧ (isFirst context = true ↔ k = 0%nat)
  ∧ (isLast context = true
     ↔ S k = length (schedule rev stp len) ∧ (stp | len - 1))
  ∧ (isLast context = true ↔ i = if rev then 0 else len - 1).
Proof.
  intros len context Hs Hk. split.
  { intros W getItems callback w fuel Hw Hf.
    pose proof (each_runs_schedule getItems callback
                  {| reverse := Some rev; step := Some stp |} fuel w) as E.
    simpl in E. rewrite Hw in E. fold len in E. by apply E. }
  unfold schedule in *.
  rewrite length_fmap, length_seq.
  apply list_lookup_fmap_Some in Hk as (j & Hi & Hj).
  apply lookup_seq in Hj as [-> Hlt]. simpl in Hi, Hlt.
  unfold visitCount in *.
  set (q := (len + stp - 1) / stp) in *.
  assert (Hq : stp * q ≤ len + stp - 1 < stp * q + stp).
  { pose proof (Z.div_mod (len + stp - 1) stp ltac:(lia)) as Hd.
    pose proof (Z.mod_pos_bound (len + stp - 1) stp Hs) as Hm.
    fold q in Hd. lia. }
  assert (Hkq : Z.of_nat k < q) by lia.
  assert (Hlast : Z.of_nat k * stp = len - 1
                  ↔ S k = Z.to_nat q ∧ (stp | len - 1)).
  { split.
    - intros E. split; [|exists (Z.of_nat k); lia]. nia.
    - intros [E [c Hc]].
      assert (q = c + 1) by nia.
      assert (Z.of_nat k = c) by lia. nia. }
  assert (Hzero : Z.of_nat k * stp = 0 ↔ k = 0%nat) by nia.
  unfold context, mkContext; simpl. destruct rev; subst i; simpl;
    rewrite !Z.eqb_eq.
  - split; [|split].
    + rewrite <- Hzero. lia.
    + rewrite <- Hlast. lia.
    + lia.
  - split; [|split].
    + exact Hzero.
    + exact Hlast.
    + lia.
Qed.

(** ** Searching with [each] *)

Section SearchFacts.
Context {T : Type} `{JsHost T}.

Lemma fold_left_pointwise {A B : Type} (f g : A → B → A) (l : list B) (a : A) :
  (∀ a b, f a b = g a b) → fold_left f l a = fold_left g l a.
Proof.
  intros E. revert a. induction l as [|b l IH]; intros a; [done|].
  simpl. by rewrite E, IH.
Qed.

(** A callback that never raises a signal is called at every visit. *)
Lemma fold_iterate_no_signal {W : Type} (getItems : W → list T)
    (callback : EachCallback T W) (rev : bool) (stp len : Z) :
  (∀ i w, (invoke getItems callback rev stp len i w).2 = noSignal) →
  ∀ (indices : list Z) (w : W),
    fold_left (λ s i, iterate getItems callback rev stp len i s) indices
      (initState w)
    = initState
        (fold_left (λ w i, (invoke getItems callback rev stp len i w).1)
           indices w).
Proof.
  intros Hquiet. induction indices as [|i indices IH]; intros w; [done|].
  simpl. rewrite iterate_flags_clear, Hquiet. apply IH.
Qed.

(** Visiting the positions of [l] (a suffix of the items, starting at
    position [o]) from the last one down to the first one, and recording
    every match, leaves the position of the first match. *)
Lemma record_matches_downwards (x : T) (items l : list T) :
  ∀ (before : list T) (found o : Z),
    items = before ++ l → o = Z.of_nat (length before) →
    fold_left
      (λ found i,
         if (i <=? Z.of_nat (length items) - 1)
            && strictEquals (arr_get items i) x
         then i else found)
      ((λ k : nat, o + Z.of_nat (length l) - 1 - Z.of_nat k * 1)
         <$> seq 0 (length l))
      found
    = if decide (indexOf_scan l x o = -1) then found else indexOf_scan l x o.
Proof.
  induction l as [|v l IH]; intros before found o Hitems Ho; [done|].
  change (length (v :: l)) with (S (length l)).
  rewrite seq_S, fmap_app, fold_left_app.
  rewrite (list_fmap_ext _
             (λ k : nat, (o + 1) + Z.of_nat (length l) - 1 - Z.of_nat k * 1)
             (seq 0 (length l)))
    by (intros; lia).
  rewrite (IH (before ++ [v]) found (o + 1));
    [|by rewrite <- app_assoc|rewrite length_app; simpl; lia].
  cbn [fmap list_fmap fold_left].
  replace (o + Z.of_nat (S (length l)) - 1 - Z.of_nat (0 + length l) * 1)
    with o by lia.
  assert (Hget : arr_get items o = v).
  { subst. unfold arr_get.
    destruct (Z.ltb_spec (Z.of_nat (length before)) 0); [lia|].
    by rewrite Nat2Z.id, list_lookup_middle. }
  assert (Hle : (o <=? Z.of_nat (length items) - 1) = true).
  { apply Z.leb_le. subst. rewrite length_app. simpl. lia. }
  rewrite Hget, Hle. simpl.
  destruct (strictEquals v x); [|done].
  case_decide; [lia|done].
Qed.

(** What [lastIndexOfWithEach] computes, with fuel for every visit, is the
    position of the first occurrence: the answer of [indexOf]. *)
Lemma lastIndexOfWithEach_is_indexOf (fuel : nat) (items : list T) (x : T) :
  (length items ≤ fuel)%nat →
  lastIndexOfWithEach fuel items x None = Some (indexOf items x None).
Proof.
  intros Hf. unfold lastIndexOfWithEach.
  set (len := Z.of_nat (length items)).
  pose proof (each_runs_schedule (λ _ : Z, items)
                (lastIndexOfWithEach_callback x (default (len - 1) None))
                {| reverse := Some true; step := None |} fuel (-1)) as E.
  cbn zeta in E. rewrite E; clear E; [|done|].
  2:{ unfold visitCount. simpl. rewrite Z.add_simpl_r, Z.div_1_r. lia. }
  f_equal. simpl. fold len.
  rewrite fold_iterate_no_signal.
  2:{ intros i w. unfold invoke, lastIndexOfWithEach_callback.
      by destruct (_ && _). }
  simpl. unfold schedule, visitCount.
  replace (Z.to_nat ((len + 1 - 1) / 1)) with (length items)
    by (rewrite Z.add_simpl_r, Z.div_1_r; lia).
  pose proof (record_matches_downwards x items items [] (-1) 0
                eq_refl eq_refl) as R.
  unfold indexOf, Array_indexOf. simpl. rewrite drop_0.
  etrans; [|etrans; [exact R|by case_decide]].
  fold len.
  rewrite (list_fmap_ext _
             (λ k : nat, 0 + len - 1 - Z.of_nat k * 1) (seq 0 (length items)))
    by (intros; lia).
  apply fold_left_pointwise. intros w i.
  unfold invoke, lastIndexOfWithEach_callback. simpl.
  by destruct (_ && _).
Qed.

End SearchFacts.

(** C6.  [lastIndexOfWithEach] does not answer the last occurrence, and
    it does not answer what [lastIndexOf] answers either.  On [[1, 2, 1]],
    searching [1], the last occurrence is at index [2] (what the array
    method answers when it is called without a start index), while
    [lastIndexOfWithEach] answers [0]: its callback never stops the reverse
    traversal, so later visits (lower indices) overwrite the index found
    first.  [lastIndexOf] answers [0] there as well, for another reason: it
    passes its omitted start index on as [undefined], so the array method
    looks at index [0] only, whatever the list.  On [[2, 1]] the two
    disagree: [lastIndexOfWithEach] answers [1] and [lastIndexOf] answers
    [-1]. *)
Theorem lastIndexOfWithEach_differs_from_lastIndexOf :
  (let items := RationalHost.num <$> [1; 2; 1] in
   Array_lastIndexOf items (RationalHost.num 1) None = 2
   ∧ lastIndexOfWithEach 3 items (RationalHost.num 1) None = Some 0
   ∧ lastIndexOf items (RationalHost.num 1) None = 0)
  ∧ (let items := RationalHost.num <$> [2; 1] in
     Array_lastIndexOf items (RationalHost.num 1) None = 1
     ∧ lastIndexOfWithEach 2 items (RationalHost.num 1) None = Some 1
     ∧ lastIndexOf items (RationalHost.num 1) None = -1)
  ∧ (∀ (T : Type) (H : JsHost T) (items : list T) (x : T),
       lastIndexOf items x None
       = match items with
         | [] => -1
         | v :: _ => if strictEquals v x then 0 else -1
         end).
Proof.
  split; [by vm_compute|]. split; [by vm_compute|].
  intros T H items x. unfold lastIndexOf, Array_lastIndexOf.
  destruct items as [|v items]; [done|].
  replace (Z.of_nat (length (v :: items)) =? 0) with false
    by (symmetry; apply Z.eqb_neq; simpl; lia).
  cbn [default]. change (0 <=? 0) with true. cbv iota.
  rewrite Z.min_l by (simpl; lia). change (Z.to_nat (0 + 1)) with 1%nat.
  simpl. by destruct (strictEquals v x).
Qed.

(** ** Key equality *)

Section KeyFacts.
Context {T : Type} `{JsHost T} `{!KeyLaws T}.

Lemma sameValueZero_congr_r (x y z : T) :
  sameValueZero x y = true → sameValueZero z x = sameValueZero z y.
Proof.
  intros E. destruct (sameValueZero z x) eqn:E1, (sameValueZero z y) eqn:E2;
    try done.
  - rewrite (sameValueZero_trans z x y E1 E) in E2. done.
  - apply sameValueZero_sym in E.
    rewrite (sameValueZero_trans z y x E2 E) in E1. done.
Qed.

Lemma sameValueZero_congr_l (x y z : T) :
  sameValueZero x y = true → sameValueZero x z = sameValueZero y z.
Proof.
  intros E. destruct (sameValueZero x z) eqn:E1, (sameValueZero y z) eqn:E2;
    try done.
  - apply sameValueZero_sym in E.
    rewrite (sameValueZero_trans y x z E E1) in E2. done.
  - rewrite (sameValueZero_trans x y z E E2) in E1. done.
Qed.

Lemma map_get_map_set {V : Type} (m : JsMap T V) (k x : T) (v : V) :
  map_get (map_set m k v) x
  = if sameValueZero k x then Some v else map_get m x.
Proof.
  induction m as [|[k' v'] m IH]; simpl.
  - by rewrite (sameValueZero_congr_l _ _ x (canonKey_same k)).
  - destruct (sameValueZero k' k) eqn:E; simpl.
    + rewrite (sameValueZero_congr_l _ _ x E).
      by destruct (sameValueZero k x).
    + rewrite IH. destruct (sameValueZero k' x) eqn:E1; [|done].
      destruct (sameValueZero k x) eqn:E2; [|done].
      apply sameValueZero_sym in E2.
      by rewrite (sameValueZero_trans _ _ _ E1 E2) in E.
Qed.

(** *** Occurrence counts *)

Lemma occurrences_app (x : T) (l1 l2 : list T) :
  occurrences x (l1 ++ l2) = (occurrences x l1 + occurrences x l2)%nat.
Proof. unfold occurrences. by rewrite filter_app, length_app. Qed.

Lemma occurrences_cons (x y : T) (l : list T) :
  occurrences x (y :: l)
  = ((if sameValueZero y x then 1 else 0) + occurrences x l)%nat.
Proof.
  unfold occurrences. rewrite filter_cons.
  destruct (sameValueZero y x); by case_decide.
Qed.

Lemma occurrences_same (x y : T) (l : list T) :
  sameValueZero x y = true → occurrences x l = occurrences y l.
Proof.
  intros E. induction l as [|z l IH]; [done|].
  rewrite !occurrences_cons, IH. by rewrite (sameValueZero_congr_r _ _ z E).
Qed.

Lemma occurrences_pos (x : T) (l : list T) :
  (0 < occurrences x l)%nat → ∃ y, y ∈ l ∧ sameValueZero y x = true.
Proof.
  induction l as [|z l IH]; [unfold occurrences; simpl; lia|].
  rewrite occurrences_cons. destruct (sameValueZero z x) eqn:E.
  - intros _. exists z. split; [left|done].
  - intros Hp. destruct IH as (y & Hy & E'); [lia|].
    exists y. split; [by right|done].
Qed.

Lemma maxOccurrences_upper (x : T) (l : list T) :
  (occurrences x l ≤ maxOccurrences l)%nat.
Proof.
  destruct (occurrences x l) as [|n] eqn:E; [lia|].
  destruct (occurrences_pos x l) as (y & Hy & Hs); [lia|].
  rewrite <- E, <- (occurrences_same y x l Hs).
  apply max_list_elem_of_le. apply list_elem_of_fmap.
  by exists y.
Qed.

Lemma maxOccurrences_attained (l : list T) :
  l ≠ [] → ∃ x, x ∈ l ∧ occurrences x l = maxOccurrences l.
Proof.
  intros Hl.
  assert (Hne : (λ x, occurrences x l) <$> l ≠ []) by by destruct l.
  apply max_list_elem_of in Hne.
  apply list_elem_of_fmap in Hne as (x & E & Hx). by exists x.
Qed.

Lemma maxOccurrences_nil : maxOccurrences ([] : list T) = 0%nat.
Proof. reflexivity. Qed.

Lemma maxOccurrences_snoc (p : list T) (y : T) :
  maxOccurrences (p ++ [y])
  = (maxOccurrences p `max` (occurrences y p + 1))%nat.
Proof.
  assert (Hy : occurrences y (p ++ [y]) = (occurrences y p + 1)%nat).
  { rewrite occurrences_app, occurrences_cons, sameValueZero_refl.
    unfold occurrences; simpl. lia. }
  apply Nat.le_antisymm.
  - destruct (maxOccurrences_attained (p ++ [y])) as (x & _ & <-);
      [by destruct p|].
    rewrite occurrences_app, occurrences_cons.
    destruct (sameValueZero y x) eqn:E.
    + rewrite <- (occurrences_same y x p E). unfold occurrences; simpl. lia.
    + pose proof (maxOccurrences_upper x p). unfold occurrences in *; simpl.
      lia.
  - apply Nat.max_lub.
    + destruct p as [|z p]; [rewrite maxOccurrences_nil; lia|].
      destruct (maxOccurrences_attained (z :: p)) as (x & _ & <-); [done|].
      etrans; [|apply (maxOccurrences_upper x)].
      rewrite occurrences_app. lia.
    + rewrite <- Hy. apply maxOccurrences_upper.
Qed.

End KeyFacts.

(** ** [mode] *)

Section ModeFacts.
Context {T : Type} `{JsHost T} `{!KeyLaws T}.

Lemma mode_step_invariant (p : list T) (st : ModeState) (y : T) :
  mode_invariant p st → mode_invariant (p ++ [y]) (mode_step st y).
Proof.
  intros (Hc & Hm & Hv).
  assert (Hcount : getOrZero (counts st) y = occurrences y p).
  { unfold getOrZero. rewrite Hc. case_decide as E; [done|].
    by destruct (occurrences y p). }
  assert (Hcounts : ∀ x,
    map_get (map_set (counts st) y (occurrences y p + 1)%nat) x
    = if decide (occurrences x (p ++ [y]) = 0%nat) then None
      else Some (occurrences x (p ++ [y]))).
  { intros x. rewrite map_get_map_set, occurrences_app, occurrences_cons.
    destruct (sameValueZero y x) eqn:E.
    - rewrite (occurrences_same y x p E). unfold occurrences at 3; simpl.
      case_decide; [lia|]. f_equal; lia.
    - rewrite Hc. unfold occurrences at 3 5; simpl.
      rewrite !Nat.add_0_r. done. }
  unfold mode_step. rewrite Hcount.
  destruct (Nat.ltb_spec (maxCount st) (occurrences y p + 1)) as [Hlt|Hge];
    (split; [exact Hcounts|]); simpl; rewrite maxOccurrences_snoc.
  - split; [lia|]. right. exists p, []. split; [done|]. split; [done|].
    intros x. pose proof (maxOccurrences_upper x p). lia.
  - split; [lia|]. right.
    destruct Hv as [[-> _]|(p1 & p2 & -> & E1 & E2)].
    + rewrite maxOccurrences_nil in Hm. lia.
    + exists p1, (p2 ++ [y]). by rewrite <- app_assoc.
Qed.

Lemma mode_loop_invariant (rest p : list T) (st : ModeState) :
  mode_invariant p st →
  mode_invariant (p ++ rest) (fold_left mode_step rest st).
Proof.
  revert p st. induction rest as [|y rest IH]; intros p st Hinv; simpl.
  - by rewrite app_nil_r.
  - replace (p ++ y :: rest) with ((p ++ [y]) ++ rest)
      by by rewrite <- app_assoc.
    apply IH. by apply mode_step_invariant.
Qed.

Lemma mode_invariant_holds (items : list T) :
  mode_invariant items (mode_loop items).
Proof.
  apply (mode_loop_invariant items []). split; [|split].
  - intros x. reflexivity.
  - done.
  - by left.
Qed.

End ModeFacts.

(** C2 (amended).  [mode] of the empty list is [undefined]; on a non-empty
    list it returns an element that attains the largest occurrence count,
    namely the one whose count is the first to reach that maximum during the
    scan in storage order: the list splits at an occurrence of the result
    where the result's count becomes the maximum while, before it, every
    count is still below the maximum. *)
Theorem mode_first_to_reach_maximum {T : Type} `{JsHost T} `{!KeyLaws T}
    (items : list T) :
  mode ([] : list T) = undefined
  ∧ (items ≠ [] →
     occurrences (mode items) items = maxOccurrences items
     ∧ ∃ before after,
         items = before ++ mode items :: after
         ∧ occurrences (mode items) (before ++ [mode items])
           = maxOccurrences items
         ∧ ∀ x, (occurrences x before < maxOccurrences items)%nat).
Proof.
  split; [done|]. intros Hne.
  destruct (mode_invariant_holds items) as (_ & Hm & Hv).
  destruct Hv as [[-> _]|(p1 & p2 & E & E1 & E2)]; [done|].
  fold (mode items) in E, E1. rewrite Hm in E1, E2.
  remember (mode items) as m eqn:Em. clear Em.
  assert (Hpre : occurrences m (p1 ++ [m]) = maxOccurrences items).
  { rewrite occurrences_app, occurrences_cons, sameValueZero_refl.
    unfold occurrences at 2; simpl. lia. }
  split.
  - apply Nat.le_antisymm; [apply maxOccurrences_upper|].
    rewrite <- Hpre.
    assert (Hitems : items = (p1 ++ [m]) ++ p2) by by rewrite <- app_assoc.
    rewrite Hitems at 1. rewrite (occurrences_app _ (p1 ++ [m]) p2). lia.
  - by exists p1, p2.
Qed.

(** ** [Set] and [unique] *)

Section SetFacts.
Context {T : Type} `{JsHost T} `{!KeyLaws T}.

Lemma firstIndex_same (x y : T) (l : list T) :
  sameValueZero x y = true → firstIndex x l = firstIndex y l.
Proof.
  intros E. induction l as [|z l IH]; [done|]. simpl.
  by rewrite IH, (sameValueZero_congr_r _ _ z E).
Qed.

Lemma firstIndex_lt (x : T) (l : list T) (i : nat) :
  firstIndex x l = Some i → (i < length l)%nat.
Proof.
  revert i. induction l as [|z l IH]; intros i; simpl; [done|].
  destruct (sameValueZero z x).
  - intros [= <-]. lia.
  - destruct (firstIndex x l) as [k|]; simpl; [|done].
    intros [= <-]. specialize (IH k eq_refl). lia.
Qed.

Lemma firstIndex_snoc (x y : T) (l : list T) :
  firstIndex x (l ++ [y])
  = match firstIndex x l with
    | Some i => Some i
    | None => if sameValueZero y x then Some (length l) else None
    end.
Proof.
  induction l as [|z l IH]; simpl.
  - by destruct (sameValueZero y x).
  - destruct (sameValueZero z x); [done|]. rewrite IH.
    destruct (firstIndex x l); [done|]. by destruct (sameValueZero y x).
Qed.

Lemma firstIndex_is_Some (x : T) (l : list T) :
  is_Some (firstIndex x l) ↔ ∃ y, y ∈ l ∧ sameValueZero y x = true.
Proof.
  induction l as [|z l IH]; simpl.
  - split; [by intros [? ?]|]. intros (y & Hy & _). by apply elem_of_nil in Hy.
  - destruct (sameValueZero z x) eqn:E.
    + split; [|by eexists]. intros _. exists z. split; [left|done].
    + rewrite fmap_is_Some, IH. split.
      * intros (y & Hy & Hs). exists y. split; [by right|done].
      * intros (y & Hy & Hs). apply elem_of_cons in Hy as [->|Hy].
        -- congruence.
        -- by exists y.
Qed.

Lemma set_has_true (s : JsSet T) (x : T) :
  set_has s x = true ↔ ∃ y, y ∈ s ∧ sameValueZero y x = true.
Proof.
  unfold set_has. rewrite existsb_exists. split.
  - intros (y & Hy & E). exists y. by rewrite list_elem_of_In.
  - intros (y & Hy & E). exists y. by rewrite <- list_elem_of_In.
Qed.

Lemma set_add_invariant (l : list T) (u : JsSet T) (x : T) :
  set_invariant l u → set_invariant (l ++ [x]) (set_add u x).
Proof.
  intros (HA & HB & HC). unfold set_add.
  assert (Hkeep : ∀ a, is_Some (firstIndex a l) →
                       firstIndex a (l ++ [x]) = firstIndex a l).
  { intros a [i Hi]. by rewrite firstIndex_snoc, Hi. }
  destruct (set_has u x) eqn:Hhas.
  - apply set_has_true in Hhas as (y & Hy & Hs).
    split; [|split].
    + intros a Ha. rewrite Hkeep; by apply HA.
    + intros i j a b Hi Hj Hlt.
      rewrite !Hkeep; [by eapply HB| |];
        apply HA; by eapply list_elem_of_lookup_2.
    + intros z Hz. rewrite firstIndex_snoc in Hz.
      destruct (firstIndex z l) eqn:Ez; [apply HC; by rewrite Ez|].
      destruct (sameValueZero x z) eqn:Exz; [|by destruct Hz].
      exists y. split; [done|]. by eapply sameValueZero_trans.
  - assert (Hnew : firstIndex x l = None).
    { destruct (firstIndex x l) eqn:E; [|done].
      destruct (HC x) as (y & Hy & Hs); [by rewrite E|].
      assert (set_has u x = true) by (apply set_has_true; by exists y).
      congruence. }
    assert (Hcanon : firstIndex (canonKey x) (l ++ [x]) = Some (length l)).
    { rewrite (firstIndex_same _ x _ (canonKey_same x)), firstIndex_snoc, Hnew.
      by rewrite sameValueZero_refl. }
    split; [|split].
    + intros a Ha. apply elem_of_app in Ha as [Ha|Ha].
      * rewrite Hkeep; by apply HA.
      * apply list_elem_of_singleton in Ha as ->. by rewrite Hcanon.
    + intros i j a b Hi Hj Hlt.
      assert (Hi' : u !! i = Some a).
      { apply lookup_lt_Some in Hj. rewrite length_app in Hj. simpl in Hj.
        rewrite lookup_app_l in Hi by lia. done. }
      assert (Ha : is_Some (firstIndex a l)).
      { apply HA. by eapply list_elem_of_lookup_2. }
      destruct (decide (j < length u)%nat) as [Hj'|Hj'].
      * rewrite lookup_app_l in Hj by done.
        rewrite !Hkeep; [by eapply HB|apply HA; by eapply list_elem_of_lookup_2|done].
      * rewrite lookup_app_r in Hj by lia.
        apply list_lookup_singleton_Some in Hj as [_ <-].
        destruct Ha as [fi Hfi]. exists fi, (length l).
        rewrite Hkeep, Hfi, Hcanon by by rewrite Hfi.
        repeat split. by eapply firstIndex_lt.
    + intros z Hz. rewrite firstIndex_snoc in Hz.
      destruct (firstIndex z l) eqn:Ez.
      * destruct (HC z) as (y & Hy & Hs); [by rewrite Ez|].
        exists y. split; [apply elem_of_app; by left|done].
      * destruct (sameValueZero x z) eqn:Exz; [|by destruct Hz].
        exists (canonKey x). split; [apply elem_of_app; right; by left|].
        eapply sameValueZero_trans; [apply canonKey_same|done].
Qed.

Lemma Set_from_invariant (items : list T) :
  set_invariant items (Set_from items).
Proof.
  unfold Set_from.
  assert (G : ∀ rest l u, set_invariant l u →
                set_invariant (l ++ rest) (fold_left set_add rest u)).
  { induction rest as [|x rest IH]; intros l u Hinv; simpl.
    - by rewrite app_nil_r.
    - replace (l ++ x :: rest) with ((l ++ [x]) ++ rest)
        by by rewrite <- app_assoc.
      apply IH. by apply set_add_invariant. }
  apply (G items [] []). split; [|split].
  - intros a Ha. by apply elem_of_nil in Ha.
  - intros i j a b Hi. done.
  - intros x [i Hi]. done.
Qed.

End SetFacts.

(** ** The store *)

Section StoreFacts.
Context {T : Type}.

Lemma contents_Some (h : Heap T) (this : loc) (l : list T) :
  contents h this = Some l
  ↔ ∃ a, lists h !! this = Some a ∧ arrays h !! a = Some l.
Proof.
  unfold contents. destruct (lists h !! this) as [a|]; simpl.
  - split; [by exists a|]. by intros (a' & [= <-] & ?).
  - split; [done|]. by intros (a' & ? & ?).
Qed.

Lemma fresh_array_unused (m : gmap loc (list T)) : m !! fresh (dom m) = None.
Proof. apply not_elem_of_dom. apply is_fresh. Qed.

Lemma fresh_list_unused (m : gmap loc loc) : m !! fresh (dom m) = None.
Proof. apply not_elem_of_dom. apply is_fresh. Qed.

End StoreFacts.

(** C10.  [unique] returns a new [List] object holding a new array; the
    receiver and every other object and array of the store are unchanged;
    the new list has one member for each distinct value of the receiver (as
    keys of a [Set]), no two members are equal, and the members are ordered
    by the position of their first occurrence in the receiver. *)
Theorem unique_first_occurrences {T : Type} `{JsHost T} `{!KeyLaws T}
    (h : Heap T) (this : loc) (items : list T) :
  contents h this = Some items →
  ∃ (r : loc) (h' : Heap T) (u : list T),
    unique this h = Ok (r, h')
    ∧ lists h !! r = None
    ∧ (∃ a, lists h' !! r = Some a ∧ arrays h !! a = None
            ∧ arrays h' !! a = Some u)
    ∧ contents h' this = Some items
    ∧ (∀ o, o ≠ r → lists h' !! o = lists h !! o)
    ∧ (∀ a, is_Some (arrays h !! a) → arrays h' !! a = arrays h !! a)
    ∧ (∀ x, x ∈ items → ∃ y, y ∈ u ∧ sameValueZero y x = true)
    ∧ (∀ y, y ∈ u → ∃ x, x ∈ items ∧ sameValueZero x y = true)
    ∧ (∀ i j a b, u !! i = Some a → u !! j = Some b →
                  sameValueZero a b = true → i = j)
    ∧ (∀ i j a b, u !! i = Some a → u !! j = Some b → (i < j)%nat →
         ∃ fi fj, firstIndex a items = Some fi ∧ firstIndex b items = Some fj
                  ∧ (fi < fj)%nat).
Proof.
  intros Hc. apply contents_Some in Hc as (a0 & Hl & Ha).
  destruct (Set_from_invariant items) as (HA & HB & HC).
  set (u := Set_from items) in *.
  set (a1 := fresh (dom (arrays h))).
  set (a2 := fresh (dom (<[a1 := u]> (arrays h)))).
  set (r := fresh (dom (lists h))).
  assert (Ha1 : arrays h !! a1 = None) by apply fresh_array_unused.
  assert (Ha2 : (<[a1 := u]> (arrays h)) !! a2 = None)
    by apply fresh_array_unused.
  assert (Hr : lists h !! r = None) by apply fresh_list_unused.
  assert (Ha2' : arrays h !! a2 = None ∧ a1 ≠ a2).
  { rewrite lookup_insert in Ha2. by case_decide. }
  destruct Ha2' as [Ha2' Hne].
  exists r,
    {| arrays := <[a2 := u]> (<[a1 := u]> (arrays h));
       lists := <[r := a2]> (lists h); console := console h |}, u.
  split.
  { unfold unique, heap_bind, loadItems. rewrite Hl.
    unfold readArray at 1. rewrite Ha.
    unfold newArray at 1. fold a1. unfold Set_spread. fold u.
    unfold newList, heap_bind, readArray; simpl.
    rewrite lookup_insert_eq. unfold newArray; simpl. done. }
  split; [done|]. split.
  { exists a2. simpl. by rewrite !lookup_insert_eq. }
  split.
  { apply contents_Some. exists a0; simpl. split.
    - rewrite lookup_insert_ne; [done|]. intros ->. congruence.
    - rewrite !lookup_insert_ne; [done| |]; intros ->; congruence. }
  split.
  { intros o Ho. simpl. by rewrite lookup_insert_ne. }
  split.
  { intros a [l Hal]. simpl.
    rewrite !lookup_insert_ne; [done| |]; intros ->; congruence. }
  split.
  { intros x Hx. apply HC. apply firstIndex_is_Some.
    exists x. split; [done|apply sameValueZero_refl]. }
  split.
  { intros y Hy. apply HA in Hy. apply firstIndex_is_Some in Hy.
    destruct Hy as (x & Hx & E). by exists x. }
  split; [|exact HB].
  intros i j a b Hi Hj E.
  destruct (Nat.lt_trichotomy i j) as [Hlt|[->|Hlt]]; [|done|].
  - destruct (HB i j a b Hi Hj Hlt) as (fi & fj & Ei & Ej & Hf).
    rewrite (firstIndex_same a b items E) in Ei. simplify_eq. lia.
  - destruct (HB j i b a Hj Hi Hlt) as (fj & fi & Ej & Ei & Hf).
    rewrite (firstIndex_same a b items E) in Ei. simplify_eq. lia.
Qed.

(** ** [rotate] *)

Section RotateFacts.
Context {T : Type} `{JsHost T}.

(** The two lines that normalise [k] compute the mathematical residue. *)
Lemma rotate_normalises (k len : Z) :
  0 < len →
  (if Z.rem k len <? 0 then Z.rem k len + len else Z.rem k len) = k mod len.
Proof.
  intros Hlen.
  pose proof (Z.quot_rem' k len) as Hq.
  assert (Hb : 0 ≤ k → 0 ≤ Z.rem k len < len)
    by (intros; apply Z.rem_bound_pos; lia).
  assert (Hb' : k ≤ 0 → - len < Z.rem k len ≤ 0).
  { intros Hk. apply Z.rem_bound_pos_neg; lia. }
  destruct (Z.ltb_spec (Z.rem k len) 0).
  - apply (Z.mod_unique k len (Z.quot k len - 1)); [left|]; lia.
  - apply (Z.mod_unique k len (Z.quot k len)); [left|]; lia.
Qed.

Lemma rotated_drop_take (k : Z) (items : list T) :
  items ≠ [] →
  let len := Z.of_nat (length items) in
  rotated k items
  = drop (Z.to_nat (len - k mod len)) items
    ++ take (Z.to_nat (len - k mod len)) items.
Proof.
  intros Hne len.
  assert (Hlen : 0 < len) by (destruct items; [done|simpl in len; lia]).
  unfold rotated. fold len. rewrite (rotate_normalises k len Hlen).
  pose proof (Z.mod_pos_bound k len Hlen) as Hm.
  generalize dependent (k mod len). intros n Hm.
  unfold slice, relIndex; simpl. fold len.
  assert (El : length items = Z.to_nat len) by lia.
  clearbody len.
  destruct (Z.ltb_spec (- n) 0).
  - destruct (Z.ltb_spec len 0); [lia|].
    rewrite (Z.max_l (len + - n) 0), (Z.min_l len len) by lia.
    rewrite (Z.min_l 0 len) by lia. simpl.
    replace (len + - n) with (len - n) by lia.
    f_equal.
    + apply take_ge. rewrite length_drop, El. lia.
    + f_equal. lia.
  - assert (n = 0) as -> by lia. change (- 0) with 0.
    destruct (Z.ltb_spec len 0); [lia|].
    rewrite (Z.min_l 0 len), (Z.min_l len len) by lia.
    rewrite !Z.sub_0_r, <- El. change (Z.to_nat 0) with 0%nat.
    rewrite drop_0, drop_all, !firstn_all. simpl. by rewrite app_nil_r.
Qed.

Lemma rotated_length (k : Z) (items : list T) :
  items ≠ [] → length (rotated k items) = length items.
Proof.
  intros Hne. rewrite rotated_drop_take by done.
  rewrite length_app, length_drop, length_take. lia.
Qed.

Lemma rotated_round_trip (k : Z) (items : list T) :
  let len := Z.of_nat (length items) in
  0 ≤ k < len → rotated (len - k) (rotated k items) = items.
Proof.
  intros len Hk.
  assert (Hne : items ≠ []) by (destruct items; [simpl in len; lia|done]).
  assert (Hne' : rotated k items ≠ []).
  { intros E. apply (f_equal length) in E.
    rewrite rotated_length in E by done. simpl in E. lia. }
  rewrite (rotated_drop_take _ _ Hne'). rewrite rotated_length by done.
  fold len. rewrite (rotated_drop_take k items Hne). fold len.
  rewrite (Z.mod_small k len) by lia.
  destruct (decide (k = 0)) as [->|Hk0].
  - rewrite Z.sub_0_r, Z_mod_same_full, Z.sub_0_r.
    rewrite (drop_ge items), (take_ge items) by lia. simpl.
    rewrite drop_ge, take_ge by lia. done.
  - rewrite (Z.mod_small (len - k) len) by lia.
    replace (len - (len - k)) with k by lia.
    rewrite drop_app_length', take_app_length'
      by (rewrite length_drop; lia).
    apply take_drop.
Qed.

Lemma rotate_runs (h : Heap T) (this : loc) (items : list T) (k : Z) :
  contents h this = Some items → items ≠ [] →
  ∃ h', rotate this k h = Ok (this, h')
        ∧ contents h' this = Some (rotated k items).
Proof.
  intros Hc Hne. apply contents_Some in Hc as (a & Hl & Ha).
  exists {| arrays := <[fresh (dom (arrays h)) := rotated k items]> (arrays h);
            lists := <[this := fresh (dom (arrays h))]> (lists h);
            console := console h |}.
  split.
  - unfold rotate, heap_bind, loadItems. rewrite Hl.
    unfold readArray. rewrite Ha.
    destruct items; [done|]. simpl.
    unfold storeItems; simpl. by rewrite Hl.
  - apply contents_Some. eexists. simpl.
    split; by rewrite lookup_insert_eq.
Qed.

End RotateFacts.

(** C7.  On a non-empty list, [rotate(j)] for any integer [j] acts as the
    rotation by [j mod length], which lies in [[0, length)]: the last
    [j mod length] elements move to the front; and for [0 <= k < length],
    [rotate(k)] followed by [rotate(length - k)] restores the original
    sequence.  Both calls return the receiver. *)
Theorem rotate_round_trip {T : Type} `{JsHost T}
    (h : Heap T) (this : loc) (items : list T) :
  let len := Z.of_nat (length items) in
  contents h this = Some items →
  items ≠ [] →
  (∀ j : Z,
     0 ≤ j mod len < len
     ∧ rotated j items = rotated (j mod len) items
     ∧ ∃ h1, rotate this j h = Ok (this, h1)
             ∧ contents h1 this
               = Some (drop (Z.to_nat (len - j mod len)) items
                       ++ take (Z.to_nat (len - j mod len)) items))
  ∧ (∀ k : Z,
       0 ≤ k < len →
       ∃ h1 h2, rotate this k h = Ok (this, h1)
                ∧ rotate this (len - k) h1 = Ok (this, h2)
                ∧ contents h2 this = Some items).
Proof.
  intros len Hc Hne.
  assert (Hlen : 0 < len) by (destruct items; [done|simpl in len; lia]).
  split.
  - intros j. split; [by apply Z.mod_pos_bound|]. split.
    + rewrite !rotated_drop_take by done. fold len.
      by rewrite Z.mod_mod by lia.
    + destruct (rotate_runs h this items j Hc Hne) as (h1 & E & Hc1).
      exists h1. split; [done|]. by rewrite Hc1, rotated_drop_take.
  - intros k Hk.
    destruct (rotate_runs h this items k Hc Hne) as (h1 & E1 & Hc1).
    assert (Hne1 : rotated k items ≠ []).
    { intros E. apply (f_equal length) in E.
      rewrite rotated_length in E by done. simpl in E. lia. }
    destruct (rotate_runs h1 this _ (len - k) Hc1 Hne1) as (h2 & E2 & Hc2).
    exists h1, h2. split; [done|]. split; [done|].
    rewrite Hc2. f_equal. by apply rotated_round_trip.
Qed.

(** ** [chunk] *)

Section ChunkFacts.
Context {T : Type} `{JsHost T}.

Lemma chunk_loop_positive (items : list T) (size : Z) (n : nat) :
  1 ≤ size →
  ∀ (fuel : nat) (i : Z) (chunks : list (list T)),
    (n ≤ fuel)%nat →
    Z.to_nat ((Z.of_nat (length items) - i + size - 1) / size) = n →
    ∃ r, chunk_loop fuel items size i chunks = Some r
         ∧ length r = (length chunks + n)%nat.
Proof.
  intros Hs. set (len := Z.of_nat (length items)).
  induction n as [|n IH]; intros fuel i chunks Hf Hn.
  - assert (len ≤ i).
    { destruct (Z.le_gt_cases len i) as [|Hlt]; [done|]. exfalso.
      assert (1 ≤ (len - i + size - 1) / size)
        by (apply Z.div_le_lower_bound; lia).
      lia. }
    exists chunks. split; [|lia].
    destruct fuel; simpl; fold len;
      (destruct (Z.ltb_spec i len); [lia|done]).
  - assert (i < len).
    { destruct (Z.lt_ge_cases i len) as [|Hge]; [done|]. exfalso.
      assert ((len - i + size - 1) / size ≤ 0).
      { apply Z.lt_succ_r. apply Z.div_lt_upper_bound; lia. }
      lia. }
    destruct fuel as [|fuel]; [lia|]. simpl. fold len.
    destruct (Z.ltb_spec i len); [|lia].
    destruct (IH fuel (i + size)
                (chunks ++ [slice items (Some i) (Some (i + size))]))
      as (r & E & Hr); [lia| |].
    + replace (len - (i + size) + size - 1)
        with ((len - i + size - 1) + (-1) * size) by lia.
      rewrite Z.div_add by lia. lia.
    + exists r. split; [done|]. rewrite Hr, length_app. simpl. lia.
Qed.

Lemma chunk_loop_stuck (items : list T) (size : Z) :
  size ≤ 0 →
  ∀ (fuel : nat) (i : Z) (chunks : list (list T)),
    i < Z.of_nat (length items) →
    chunk_loop fuel items size i chunks = None.
Proof.
  intros Hs. induction fuel as [|fuel IH]; intros i chunks Hi; simpl;
    (destruct (Z.ltb_spec i (Z.of_nat (length items))); [|lia]); [done|].
  apply IH. lia.
Qed.

End ChunkFacts.

(** C9.  For [size >= 1] the loop of [chunk] ends: with fuel for
    [ceil(length / size)] iterations it returns, and it returns that many
    groups.  For [size <= 0] on a non-empty list the loop index never
    reaches the length: no amount of fuel makes [chunk] return. *)
Theorem chunk_terminates_iff_positive_size {T : Type} `{JsHost T}
    (items : list T) (size : Z) :
  let len := Z.of_nat (length items) in
  (1 ≤ size →
   ∀ fuel : nat,
     (Z.to_nat ((len + size - 1) / size) ≤ fuel)%nat →
     ∃ chunks, chunk fuel items size = Some chunks
               ∧ Z.of_nat (length chunks) = (len + size - 1) / size)
  ∧ (size ≤ 0 → items ≠ [] → ∀ fuel : nat, chunk fuel items size = None).
Proof.
  intros len. split.
  - intros Hs fuel Hf.
    destruct (chunk_loop_positive items size
                (Z.to_nat ((len + size - 1) / size)) Hs fuel 0 [] Hf)
      as (r & E & Hr).
    { fold len. f_equal. f_equal. lia. }
    exists r. split; [done|]. rewrite Hr. simpl.
    apply Z2Nat.id. apply Z.div_pos; lia.
  - intros Hs Hne fuel. apply chunk_loop_stuck; [done|].
    destruct items; [done|simpl; lia].
Qed.

(** ** The sort engine *)

Section SortFacts.
Context {T : Type} `{JsHost T}.

(** The partition loop moves [i] up by at most one per scanned index. *)
Lemma partition_loop_bounds (compare : T → T → T) (pivot : T) (js : list Z)
    (items : list T) (i : Z) :
  let r := fold_left
             (λ '(items, i) j,
                if leZero (compare (arr_get items j) pivot)
                then (swap items (i + 1) j, i + 1)
                else (items, i))
             js (items, i) in
  i ≤ r.2 ≤ i + Z.of_nat (length js).
Proof.
  revert items i. induction js as [|j js IH]; intros items i; simpl; [lia|].
  destruct (leZero (compare (arr_get items j) pivot)).
  - specialize (IH (swap items (i + 1) j) (i + 1)). simpl in IH. lia.
  - specialize (IH items i). simpl in IH. lia.
Qed.

Lemma sortPartition_bounds (compare : T → T → T) (low high : Z)
    (items : list T) :
  low ≤ high →
  low ≤ (sortPartition compare low high items).2 ≤ high.
Proof.
  intros Hlh. unfold sortPartition.
  pose proof (partition_loop_bounds compare (arr_get items high)
                (seqZ low (high - low)) items (low - 1)) as Hb.
  simpl in Hb. rewrite length_seqZ in Hb.
  destruct (fold_left _ _ _) as [items' i]. simpl in *. lia.
Qed.

(** [quickSort] returns on every array, for every comparator, once the fuel
    covers the width of the range. *)
Lemma quickSort_total (compare : T → T → T) (fuel : nat) :
  ∀ (low high : Z) (items : list T),
    (Z.to_nat (high - low) ≤ fuel)%nat →
    ∃ r, quickSort compare fuel low high items = Ok r.
Proof.
  induction fuel as [|fuel IH]; intros low high items Hf.
  - exists items. simpl. destruct (Z.ltb_spec low high); [lia|done].
  - simpl. destruct (Z.ltb_spec low high) as [Hlt|]; [|by exists items].
    pose proof (sortPartition_bounds compare low high items ltac:(lia)) as Hp.
    destruct (sortPartition compare low high items) as [items1 p].
    simpl in Hp.
    destruct (IH low (p - 1) items1) as (items2 & E2); [lia|].
    rewrite E2. simpl. apply IH. lia.
Qed.

Lemma isRadixSortable_false (items : list T) :
  (∃ x, x ∈ items ∧ isRadixSortableItem x = false)
  ↔ isRadixSortable items = false.
Proof.
  unfold isRadixSortable. induction items as [|y items IH]; simpl.
  - split; [|done]. intros (x & Hx & _). by apply elem_of_nil in Hx.
  - destruct (isRadixSortableItem y) eqn:E; simpl.
    + rewrite <- IH. split.
      * intros (x & Hx & Ex). apply elem_of_cons in Hx as [->|Hx];
          [congruence|by exists x].
      * intros (x & Hx & Ex). exists x. split; [by right|done].
    + split; [done|]. intros _. exists y. split; [left|done].
Qed.

(** Running an in-place algorithm overwrites the receiver's array. *)
Lemma sortInPlace_runs (h : Heap T) (this a : loc) (items r : list T)
    (algorithm : list T → Outcome (list T)) :
  lists h !! this = Some a → arrays h !! a = Some items →
  algorithm items = Ok r →
  sortInPlace this algorithm h
  = Ok (tt, {| arrays := <[a := r]> (arrays h); lists := lists h;
               console := console h |}).
Proof.
  intros Hl Ha E. unfold sortInPlace, heap_bind, loadItems. rewrite Hl.
  unfold readArray. rewrite Ha. unfold liftOutcome. rewrite E.
  unfold writeArray. by rewrite Ha.
Qed.

End SortFacts.

(** C3.  When some element of the list is not a non-negative integer,
    [sort(direction, 'radix')] does not throw: with fuel for the length of
    the list it returns the receiver, having logged the warning and run
    quicksort with the default comparator of the direction, so that the
    store it leaves differs from the one [sort(direction, 'quick')] leaves
    only by the logged line; an absent direction counts as ['asc']. *)
Theorem sort_radix_falls_back_to_quick {T : Type} `{JsHost T}
    (h : Heap T) (this : loc) (items : list T) (direction : SortDirection)
    (fuel : nat) :
  contents h this = Some items →
  (∃ x, x ∈ items ∧ isRadixSortableItem x = false) →
  (length items ≤ fuel)%nat →
  ∃ (sorted : list T) (h1 h2 : Heap T),
    quickSort (getDefaultCompare direction) fuel 0
      (Z.of_nat (length items) - 1) items = Ok sorted
    ∧ sort fuel this (Direction direction) (Some radix) h = Ok (this, h1)
    ∧ sort fuel this (Direction direction) (Some quick) h = Ok (this, h2)
    ∧ console h1 = console h ++ [radixWarning]
    ∧ console h2 = console h
    ∧ arrays h1 = arrays h2 ∧ lists h1 = lists h2
    ∧ contents h1 this = Some sorted
    ∧ contents h2 this = Some sorted
    ∧ sort fuel this NoDirection (Some radix) h
      = sort fuel this (Direction asc) (Some radix) h.
Proof.
  intros Hc Hx Hf. apply contents_Some in Hc as (a & Hl & Ha).
  apply isRadixSortable_false in Hx.
  destruct (quickSort_total (getDefaultCompare direction) fuel 0
              (Z.of_nat (length items) - 1) items) as (sorted & E); [lia|].
  exists sorted,
    {| arrays := <[a := sorted]> (arrays h); lists := lists h;
       console := console h ++ [radixWarning] |},
    {| arrays := <[a := sorted]> (arrays h); lists := lists h;
       console := console h |}.
  split; [done|]. split; [|split].
  - unfold sort. unfold heap_bind at 1. unfold heap_bind at 1.
    unfold loadItems at 1. rewrite Hl. unfold heap_bind at 1.
    unfold readArray at 1. rewrite Ha, Hx.
    unfold heap_bind at 1. unfold console_warn.
    erewrite sortInPlace_runs; [done|done|done|]. simpl. exact E.
  - unfold sort. unfold heap_bind at 1.
    erewrite sortInPlace_runs; [done|done|done|]. exact E.
  - repeat split; simpl; try done.
    + apply contents_Some. exists a. simpl. by rewrite lookup_insert_eq.
    + apply contents_Some. exists a. simpl. by rewrite lookup_insert_eq.
Qed.

(** ** Short lists *)

Section ShortListFacts.
Context {T : Type} `{JsHost T}.

(** One pass of the digit loop leaves a list of at most one sortable element
    as it is. *)
Lemma radixPass_short `{!RadixLaws T} (direction : SortDirection) (digit : Z)
    (items : list T) :
  (length items ≤ 1)%nat → isRadixSortable items = true → 0 ≤ digit →
  radixPass direction digit items = Ok items.
Proof.
  intros Hlen Hs Hd. destruct items as [|x [|]]; [| |simpl in Hlen; lia].
  - by destruct direction.
  - unfold isRadixSortable in Hs. simpl in Hs. rewrite andb_true_r in Hs.
    destruct (radix_digit_index x digit Hs Hd) as (d & Ed & Hlt).
    unfold radixPass. simpl. unfold bucketPush. rewrite Ed.
    do 10 (destruct d as [|d]; [by destruct direction|]). lia.
Qed.

Lemma radix_loop_short `{!RadixLaws T} (this : loc) (direction : SortDirection)
    (maxDigits : T) (items : list T) (n : nat) :
  (length items ≤ 1)%nat → isRadixSortable items = true →
  ∀ (fuel : nat) (digit : Z) (h : Heap T),
    0 ≤ digit →
    jsLt (numLit (digit + Z.of_nat n)) maxDigits = false →
    (n ≤ fuel)%nat →
    contents h this = Some items →
    ∃ h', radix_loop fuel this direction maxDigits digit h = Ok (tt, h')
          ∧ contents h' this = Some items
          ∧ console h' = console h.
Proof.
  intros Hlen Hs.
  induction n as [|n IH]; intros fuel digit h Hd Hstop Hf Hc.
  - rewrite Z.add_0_r in Hstop. exists h.
    destruct fuel; simpl; by rewrite Hstop.
  - destruct (jsLt (numLit digit) maxDigits) eqn:Hgo.
    + destruct fuel as [|fuel]; [lia|]. simpl. rewrite Hgo.
      pose proof Hc as Hc'. apply contents_Some in Hc' as (a & Hl & Ha).
      unfold heap_bind at 1. unfold loadItems at 1. rewrite Hl.
      unfold heap_bind at 1. unfold readArray at 1. rewrite Ha.
      unfold heap_bind at 1. unfold liftOutcome.
      rewrite (radixPass_short direction digit items Hlen Hs Hd).
      unfold heap_bind at 1. unfold newArray.
      unfold heap_bind at 1. unfold storeItems; simpl. rewrite Hl.
      set (h1 := {| arrays := <[fresh (dom (arrays h)) := items]> (arrays h);
                    lists := <[this := fresh (dom (arrays h))]> (lists h);
                    console := console h |}).
      destruct (IH fuel (digit + 1) h1) as (h' & E & Hc2 & Hcon);
        [lia| |lia| |].
      * by replace (digit + 1 + Z.of_nat n) with (digit + Z.of_nat (S n))
          by lia.
      * apply contents_Some. eexists. simpl.
        split; by rewrite lookup_insert_eq.
      * exists h'. by rewrite E, Hcon.
    + exists h. destruct fuel; simpl; by rewrite Hgo.
Qed.

Lemma short_list_permutation (items sorted : list T) :
  (length items ≤ 1)%nat → sorted ≡ₚ items → sorted = items.
Proof.
  intros Hlen Hp. destruct items as [|x [|]]; [| |simpl in Hlen; lia].
  - by apply Permutation_nil_r.
  - by apply Permutation_singleton_r.
Qed.

End ShortListFacts.

(** C4.  On a list of at most one element, [sort] with any method (the
    native default included) and any first argument (absent, a direction or a
    comparator) does not throw: given enough fuel it returns the receiver,
    whose contents are unchanged. *)
Theorem sort_short_list_unchanged {T : Type} `{JsHost T}
    `{!NativeSortLaws T} `{!RadixLaws T}
    (h : Heap T) (this : loc) (items : list T)
    (directionOrCompare : DirectionOrCompare T) (method : option SortMethod) :
  contents h this = Some items →
  (length items ≤ 1)%nat →
  ∃ fuel0 : nat, ∀ fuel : nat, (fuel0 ≤ fuel)%nat →
    ∃ h', sort fuel this directionOrCompare method h = Ok (this, h')
          ∧ contents h' this = Some items.
Proof.
  intros Hc Hlen. pose proof Hc as Hc'.
  apply contents_Some in Hc' as (a & Hl & Ha).
  assert (Hsame : contents
            {| arrays := <[a := items]> (arrays h); lists := lists h;
               console := console h |} this = Some items).
  { apply contents_Some. exists a. simpl. by rewrite lookup_insert_eq. }
  assert (Hin : ∀ (algorithm : list T → Outcome (list T)),
            algorithm items = Ok items →
            ∃ h', heap_bind (sortInPlace this algorithm) (λ _, heap_ret this) h
                  = Ok (this, h')
                  ∧ contents h' this = Some items).
  { intros algorithm E. unfold heap_bind.
    rewrite (sortInPlace_runs h this a items items algorithm Hl Ha E).
    eexists. split; [reflexivity|exact Hsame]. }
  assert (Hquick : ∀ compare fuel,
            quickSort compare fuel 0 (Z.of_nat (length items) - 1) items
            = Ok items).
  { intros compare fuel.
    destruct fuel; simpl;
      (destruct (Z.ltb_spec 0 (Z.of_nat (length items) - 1)); [lia|done]). }
  set (compareFunction :=
         match directionOrCompare with
         | CompareFn f => f
         | Direction d => getDefaultCompare d
         | NoDirection => getDefaultCompare asc
         end).
  set (direction :=
         match directionOrCompare with
         | Direction d => d
         | _ => asc
         end).
  destruct method as [[]|].
  - (* merge *)
    exists 0%nat. intros fuel _.
    exists {| arrays := arrays h; lists := <[this := a]> (lists h);
              console := console h |}.
    split.
    + unfold sort. destruct directionOrCompare; fold compareFunction;
        unfold heap_bind, loadItems; rewrite Hl;
        unfold readArray; rewrite Ha; unfold liftOutcome;
        (destruct items as [|x [|]]; [| |simpl in Hlen; lia]);
        destruct fuel; simpl; unfold storeItems; simpl; by rewrite Hl.
    + apply contents_Some. exists a. simpl. by rewrite lookup_insert_eq.
  - (* quick *)
    exists 0%nat. intros fuel _.
    destruct directionOrCompare; apply Hin, Hquick.
  - (* bubble *)
    exists 0%nat. intros fuel _.
    destruct directionOrCompare; apply Hin;
      by (destruct items as [|x [|]]; [| |simpl in Hlen; lia]).
  - (* insertion *)
    exists 0%nat. intros fuel _.
    destruct directionOrCompare; apply Hin;
      by (destruct items as [|x [|]]; [| |simpl in Hlen; lia]).
  - (* selection *)
    exists 0%nat. intros fuel _.
    destruct directionOrCompare; apply Hin;
      by (destruct items as [|x [|]]; [| |simpl in Hlen; lia]).
  - (* heap *)
    exists 0%nat. intros fuel _.
    destruct directionOrCompare; apply Hin;
      by (destruct items as [|x [|]]; [| |simpl in Hlen; lia]).
  - (* radix *)
    destruct (isRadixSortable items) eqn:Hs.
    + destruct (radix_digits_finite items Hs) as (n & Hn).
      exists n. intros fuel Hf.
      destruct (radix_loop_short this direction (maxDigitsOf items) items n
                  Hlen Hs fuel 0 h ltac:(lia) Hn Hf Hc) as (h' & E & Hc2 & _).
      exists h'. split; [|done].
      unfold sort. destruct directionOrCompare; fold direction;
        unfold heap_bind at 1; unfold heap_bind at 1;
        unfold loadItems at 1; rewrite Hl; unfold heap_bind at 1;
        unfold readArray at 1; rewrite Ha, Hs;
        unfold radixSort; unfold heap_bind at 1;
        unfold loadItems at 1; rewrite Hl; unfold heap_bind at 1;
        unfold readArray at 1; rewrite Ha, Hs; simpl; by rewrite E.
    + exists 0%nat. intros fuel _.
      exists {| arrays := <[a := items]> (arrays h); lists := lists h;
                console := console h ++ [radixWarning] |}.
      split.
      * unfold sort. destruct directionOrCompare;
          unfold heap_bind at 1; unfold heap_bind at 1;
          unfold loadItems at 1; rewrite Hl; unfold heap_bind at 1;
          unfold readArray at 1; rewrite Ha, Hs;
          unfold heap_bind at 1; unfold console_warn;
          (erewrite sortInPlace_runs; [done|done|done|]); apply Hquick.
      * apply contents_Some. exists a. simpl. by rewrite lookup_insert_eq.
  - (* the native sort *)
    exists 0%nat. intros fuel _.
    destruct directionOrCompare; apply Hin; f_equal;
      apply short_list_permutation; try done; apply nativeSort_permutation.
Qed.

(** ** [median] *)

(** ** The comparator of [median] *)

Section MedianFacts.
Context {T : Type} `{JsHost T} `{!FiniteNumberLaws T}.

Lemma finite_is_number (x : T) : isFiniteNumber x = true → isNumber x = true.
Proof. unfold isFiniteNumber. by intros [? _]%andb_true_iff. Qed.

Lemma medianCompare_finite (a b : T) :
  isFiniteNumber a = true → isFiniteNumber b = true →
  medianCompare a b = jsSub a b.
Proof.
  intros Ha Hb. unfold medianCompare.
  by rewrite (finite_is_number a Ha), (finite_is_number b Hb).
Qed.

(** On finite numbers [a - b] is a consistent comparator. *)
Lemma medianCompare_consistent (items : list T) :
  Forall (λ x, isFiniteNumber x = true) items →
  consistentComparator medianCompare (λ x, x ∈ items).
Proof.
  intros Hfin. rewrite Forall_forall in Hfin.
  assert (Hless : ∀ a b, a ∈ items → b ∈ items →
            lessCF medianCompare a b = jsLt a b).
  { intros a b Ha Hb. unfold lessCF, ltZero.
    rewrite medianCompare_finite by auto. apply finite_sub_negative; auto. }
  assert (Hgreater : ∀ a b, a ∈ items → b ∈ items →
            greaterCF medianCompare a b = jsLt b a).
  { intros a b Ha Hb. unfold greaterCF, gtZero.
    rewrite medianCompare_finite by auto. apply finite_sub_positive; auto. }
  assert (Hequal : ∀ a b, a ∈ items → b ∈ items →
            equalCF medianCompare a b = negb (jsLt a b) && negb (jsLt b a)).
  { intros a b Ha Hb. unfold equalCF.
    rewrite medianCompare_finite by auto. apply finite_sub_zero; auto. }
  split.
  - intros a b Ha Hb. rewrite Hless, Hequal, Hgreater by done.
    pose proof (finite_lt_asym a b (Hfin a Ha) (Hfin b Hb)) as Hasym.
    destruct (jsLt a b), (jsLt b a); simpl; auto.
  - intros a Ha. rewrite Hequal by done.
    pose proof (finite_lt_asym a a (Hfin a Ha) (Hfin a Ha)) as Hasym.
    destruct (jsLt a a); [by specialize (Hasym eq_refl)|done].
  - intros a b Ha Hb. rewrite !Hequal by done. by rewrite andb_comm.
  - intros a b c Ha Hb Hc. rewrite !Hequal by done.
    intros [Eab Eba]%andb_true_iff [Ebc Ecb]%andb_true_iff.
    apply negb_true_iff in Eab, Eba, Ebc, Ecb.
    apply andb_true_iff. split; apply negb_true_iff.
    + destruct (jsLt a c) eqn:E; [|done].
      destruct (finite_lt_between a b c (Hfin a Ha) (Hfin b Hb) (Hfin c Hc) E);
        congruence.
    + destruct (jsLt c a) eqn:E; [|done].
      destruct (finite_lt_between c b a (Hfin c Hc) (Hfin b Hb) (Hfin a Ha) E);
        congruence.
  - intros a b c Ha Hb Hc. rewrite !Hless by done.
    apply finite_lt_trans; auto.
  - intros a b c Ha Hb Hc. rewrite !Hgreater by done. intros Eba Ecb.
    exact (finite_lt_trans c b a (Hfin c Hc) (Hfin b Hb) (Hfin a Ha) Ecb Eba).
Qed.

(** Sorted with the comparator of [median], a list of finite numbers is in
    ascending order. *)
Lemma median_copy_ascending `{!NativeSortLaws T} `{!NativeSortOrdered T}
    (items : list T) :
  Forall (λ x, isFiniteNumber x = true) items →
  ∀ (p q : nat) (x y : T),
    (p < q)%nat →
    nativeSort medianCompare items !! p = Some x →
    nativeSort medianCompare items !! q = Some y →
    jsLt y x = false.
Proof.
  intros Hfin p q x y Hpq Hx Hy.
  assert (Hdefined : Forall (λ x, strictEquals x undefined = false) items).
  { eapply Forall_impl; [exact Hfin|]. intros z Hz. simpl in Hz.
    by apply number_defined, finite_is_number. }
  pose proof (nativeSort_ordered medianCompare items Hdefined
                (medianCompare_consistent items Hfin) p q x y Hpq Hx Hy)
    as Hless.
  pose proof (nativeSort_permutation medianCompare items) as Hp.
  assert (Hfin' : Forall (λ x, isFiniteNumber x = true)
                    (nativeSort medianCompare items)) by by rewrite Hp.
  pose proof (Forall_lookup_1 _ _ _ _ Hfin' Hx) as Fx.
  pose proof (Forall_lookup_1 _ _ _ _ Hfin' Hy) as Fy.
  simpl in Fx, Fy. unfold lessCF, ltZero in Hless.
  rewrite medianCompare_finite in Hless by done.
  by rewrite finite_sub_negative in Hless.
Qed.

End MedianFacts.

(** C8.  Reading [median] never throws and leaves the receiver's sequence,
    every existing array, every object and the console as they were: the
    sort runs on a fresh copy.  The copy is a rearrangement of the sequence;
    for an even length the value returned is
    [(sorted[mid - 1] + sorted[mid]) / 2] with [mid = length / 2], and when the
    list is moreover non-empty and all-numeric these are two elements of the
    sorted copy, both numbers; for an odd length it is [sorted[mid]].  When
    the elements are finite numbers (the numbers for which [a - b] is a
    consistent comparator, so that the language fixes the order of the
    result) the copy is in ascending order: no element of it is less than
    an element before it. *)
Theorem median_sorts_a_copy {T : Type} `{JsHost T} `{!NativeSortLaws T}
    (h : Heap T) (this : loc) (items : list T) :
  contents h this = Some items →
  let sorted := nativeSort medianCompare items in
  let mid := Z.of_nat (length items) / 2 in
  ∃ (v : T) (h' : Heap T),
    median this h = Ok (v, h')
    ∧ contents h' this = Some items
    ∧ lists h' = lists h
    ∧ console h' = console h
    ∧ (∀ a, is_Some (arrays h !! a) → arrays h' !! a = arrays h !! a)
    ∧ (∃ copy, arrays h !! copy = None ∧ arrays h' !! copy = Some sorted)
    ∧ sorted ≡ₚ items
    ∧ (Z.of_nat (length items) mod 2 = 0 →
       v = jsDiv (jsAdd (arr_get sorted (mid - 1)) (arr_get sorted mid))
             (numLit 2)
       ∧ (items ≠ [] → Forall (λ x, isNumber x = true) items →
          ∃ x y, sorted !! Z.to_nat (mid - 1) = Some x
                 ∧ sorted !! Z.to_nat mid = Some y
                 ∧ isNumber x = true ∧ isNumber y = true
                 ∧ v = jsDiv (jsAdd x y) (numLit 2)))
    ∧ (Z.of_nat (length items) mod 2 ≠ 0 → v = arr_get sorted mid)
    ∧ (NativeSortOrdered T → FiniteNumberLaws T →
       Forall (λ x, isFiniteNumber x = true) items →
       ∀ (p q : nat) (x y : T),
         (p < q)%nat → sorted !! p = Some x → sorted !! q = Some y →
         jsLt y x = false).
Proof.
  intros Hc sorted mid. apply contents_Some in Hc as (a & Hl & Ha).
  pose proof (nativeSort_permutation medianCompare items) as Hp.
  fold sorted in Hp.
  assert (Hlen : length sorted = length items) by by rewrite Hp.
  set (copy := fresh (dom (arrays h))).
  assert (Hcopy : arrays h !! copy = None) by apply fresh_array_unused.
  set (h' := {| arrays := <[copy := sorted]> (<[copy := items]> (arrays h));
                lists := lists h; console := console h |}).
  set (v := if negb (Z.of_nat (length sorted) mod 2 =? 0)
            then arr_get sorted (Z.of_nat (length sorted) / 2)
            else jsDiv (jsAdd (arr_get sorted (Z.of_nat (length sorted) / 2 - 1))
                          (arr_get sorted (Z.of_nat (length sorted) / 2)))
                   (numLit 2)).
  exists v, h'. split.
  { unfold median, heap_bind, loadItems. rewrite Hl.
    unfold readArray at 1. rewrite Ha. unfold newArray. fold copy.
    unfold writeArray; simpl. rewrite lookup_insert_eq.
    unfold readArray; simpl. by rewrite lookup_insert_eq. }
  assert (Hframe : ∀ b, is_Some (arrays h !! b) →
                        arrays h' !! b = arrays h !! b).
  { intros b [l Hb]. simpl.
    rewrite !lookup_insert_ne; [done| |]; intros ->; congruence. }
  split.
  { apply contents_Some. exists a. split; [done|].
    rewrite Hframe; [done|by eexists]. }
  split; [done|]. split; [done|]. split; [exact Hframe|]. split.
  { exists copy. split; [done|]. simpl. by rewrite lookup_insert_eq. }
  split; [done|].
  split; [|split].
  2:{ intros Hodd. unfold v. rewrite Hlen. fold mid.
      by destruct (Z.eqb_spec (Z.of_nat (length items) mod 2) 0). }
  2:{ intros Hordered Hfinite Hfin. by apply median_copy_ascending. }
  intros Heven. unfold v. rewrite Hlen. fold mid.
  rewrite Heven. simpl. split; [done|].
  intros Hne Hnum.
  assert (Hpos : 0 < Z.of_nat (length items))
    by (destruct items; [done|simpl; lia]).
  assert (Hmid : 1 ≤ mid ∧ 2 * mid = Z.of_nat (length items)).
  { unfold mid. pose proof (Z.div_mod (Z.of_nat (length items)) 2). lia. }
  destruct (lookup_lt_is_Some_2 sorted (Z.to_nat (mid - 1))) as [x Hx];
    [lia|].
  destruct (lookup_lt_is_Some_2 sorted (Z.to_nat mid)) as [y Hy]; [lia|].
  assert (Hnum' : Forall (λ x, isNumber x = true) sorted) by by rewrite Hp.
  exists x, y. split; [done|]. split; [done|].
  split; [exact (Forall_lookup_1 _ _ _ _ Hnum' Hx)|].
  split; [exact (Forall_lookup_1 _ _ _ _ Hnum' Hy)|].
  unfold arr_get.
  destruct (Z.ltb_spec (mid - 1) 0); [lia|].
  destruct (Z.ltb_spec mid 0); [lia|].
  by rewrite Hx, Hy.
Qed.

(** ** The reference host satisfies the laws *)

Section ReferenceHostFacts.
Import RationalHost.

Lemma Qnegative_false (x : Q) : (0 <= x)%Q → Qnegative x = false.
Proof.
  intros Hx. unfold Qnegative, Qlt_bool.
  destruct (Qle_bool x 0) eqn:E; [|done]. simpl.
  apply Qle_bool_iff in E.
  rewrite (Qeq_eq_bool x 0); [done|]. by apply Qle_antisym.
Qed.

Lemma rational_digit_range (a : Q) :
  (0 <= a)%Q →
  0 ≤ Qfloor (Qred (a - 10 * inject_Z (Qtruncate (a / 10)))) < 10.
Proof.
  intros Ha. unfold Qtruncate.
  rewrite Qnegative_false by (apply Qle_shift_div_l; lra).
  set (m := Qfloor (a / 10)).
  pose proof (Qfloor_le (a / 10)) as H1.
  pose proof (Qlt_floor (a / 10)) as H2. fold m in H1, H2.
  rewrite inject_Z_plus in H2. change (inject_Z 1) with 1%Q in H2.
  assert (E : (a == (a / 10) * 10)%Q) by (field).
  set (b := (a / 10)%Q) in *.
  assert (Hr : (0 <= Qred (a - 10 * inject_Z m) < 10)%Q).
  { rewrite Qred_correct. split; lra. }
  destruct Hr as [Hr1 Hr2]. split.
  - rewrite <- (Qfloor_Z 0). by apply Qfloor_resp_le.
  - rewrite Zlt_Qlt. eapply Qle_lt_trans; [apply Qfloor_le|]. exact Hr2.
Qed.

Lemma rational_key_refl (x : value) : same_value_zero x x = true.
Proof.
  destruct x; simpl; try done.
  - apply String.eqb_refl.
  - apply eqb_reflx.
  - apply Qeq_bool_refl.
Qed.

Lemma rational_key_sym (x y : value) :
  same_value_zero x y = true → same_value_zero y x = true.
Proof.
  destruct x, y; simpl; try done.
  - by rewrite String.eqb_sym.
  - intros E%eqb_prop. subst. apply eqb_reflx.
  - apply Qeq_bool_sym.
Qed.

Lemma rational_key_trans (x y z : value) :
  same_value_zero x y = true → same_value_zero y z = true →
  same_value_zero x z = true.
Proof.
  destruct x, y, z; simpl; try done.
  - intros E1%String.eqb_eq E2%String.eqb_eq. subst. apply String.eqb_refl.
  - intros E1%eqb_prop E2%eqb_prop. subst. apply eqb_reflx.
  - apply Qeq_bool_trans.
Qed.

#[global] Instance rational_key_laws : KeyLaws value.
Proof.
  split.
  - exact rational_key_refl.
  - exact rational_key_sym.
  - exact rational_key_trans.
  - exact rational_key_refl.
Qed.

Lemma sorted_insert_permutation (compare : value → value → value) (x : value)
    (l : list value) :
  sorted_insert compare x l ≡ₚ x :: l.
Proof.
  induction l as [|y l IH]; simpl; [done|].
  destruct (lt (compare x y) (num 0)); [done|].
  rewrite IH. apply Permutation_swap.
Qed.

Lemma insertion_fold_permutation (compare : value → value → value)
    (l acc : list value) :
  fold_left (λ acc x, sorted_insert compare x acc) l acc ≡ₚ l ++ acc.
Proof.
  revert acc. induction l as [|x l IH]; intros acc; simpl; [done|].
  rewrite IH, sorted_insert_permutation. by rewrite Permutation_middle.
Qed.

Lemma filter_split_permutation (f : value → bool) (l : list value) :
  List.filter (λ v, negb (f v)) l ++ List.filter f l ≡ₚ l.
Proof.
  induction l as [|x l IH]; simpl; [done|].
  destruct (f x); simpl.
  - rewrite <- Permutation_middle. by rewrite IH.
  - by rewrite IH.
Qed.

#[global] Instance rational_native_sort_laws : NativeSortLaws value.
Proof.
  split. intros compare l. simpl. unfold native_sort.
  rewrite insertion_fold_permutation, app_nil_r.
  apply filter_split_permutation.
Qed.

Lemma Qeq_bool_pos_false (p : Q) : (0 < p)%Q → Qeq_bool p 0 = false.
Proof.
  intros Hp. destruct (Qeq_bool p 0) eqn:E; [|done].
  apply Qeq_bool_eq in E. rewrite E in Hp. by apply Qlt_irrefl in Hp.
Qed.

Lemma math_pow_ten (digit : Z) :
  math_pow (num 10) (num digit) = VNumber (Qred (10 ^ digit)).
Proof.
  unfold math_pow, num, is_integer.
  rewrite Qfloor_Z, Qeq_bool_refl. reflexivity.
Qed.

Lemma rational_digit_index (q : Q) (digit : Z) :
  (0 <= q)%Q →
  ∃ d : nat,
    as_index (math_floor (modulo (div (VNumber q)
                                    (math_pow (num 10) (num digit)))
                            (num 10))) = Some d
    ∧ (d < 10)%nat.
Proof.
  intros Hq. rewrite math_pow_ten.
  set (p := Qred (10 ^ digit)).
  assert (Hp : (0 < p)%Q).
  { unfold p. rewrite Qred_correct. by apply Qpower_0_lt. }
  unfold div. rewrite (Qeq_bool_pos_false p Hp).
  set (a := Qred (q / p)).
  assert (Ha : (0 <= a)%Q).
  { unfold a. rewrite Qred_correct. apply Qle_shift_div_l; [done|].
    by rewrite Qmult_0_l. }
  pose proof (rational_digit_range a Ha) as Hr.
  unfold modulo, num.
  change (Qeq_bool (inject_Z 10) 0) with false.
  change (inject_Z 10) with 10%Q. cbv iota.
  set (z := Qfloor (Qred (a - 10 * inject_Z (Qtruncate (a / 10))))) in *.
  unfold math_floor, as_index, is_integer.
  rewrite Qfloor_Z, Qeq_bool_refl.
  assert (Hz : Qle_bool 0 (inject_Z z) = true).
  { apply Qle_bool_iff. change 0%Q with (inject_Z 0). rewrite <- Zle_Qle. lia. }
  fold z. rewrite Hz. exists (Z.to_nat z). split; [done|lia].
Qed.

Lemma rational_radix_digit (item : value) (digit : Z) :
  isRadixSortableItem item = true → 0 ≤ digit →
  ∃ d : nat, asIndex (digitValueOf item digit) = Some d ∧ (d < 10)%nat.
Proof.
  intros Hs Hd. unfold isRadixSortableItem in Hs.
  destruct item as [| | | |q]; try done;
    try by (simpl in Hs; rewrite andb_false_r in Hs).
  apply andb_true_iff in Hs as [Hs _].
  apply andb_true_iff in Hs as [_ Hq]. apply Qle_bool_iff in Hq.
  exact (rational_digit_index q digit Hq).
Qed.

Lemma math_max_sortable (items : list value) (acc : value) :
  isRadixSortable items = true →
  (acc = VInfinity true ∨ ∃ q, acc = VNumber q) →
  fold_left max2 items acc = VInfinity true
  ∨ ∃ q, fold_left max2 items acc = VNumber q.
Proof.
  revert acc. induction items as [|x items IH]; intros acc Hs Hacc; [done|].
  unfold isRadixSortable in Hs. simpl in Hs.
  apply andb_true_iff in Hs as [Hx Hs]. simpl. apply IH; [done|].
  unfold isRadixSortableItem in Hx. simpl in Hx.
  destruct x as [| | | |q]; simpl in Hx; try done;
    try by rewrite andb_false_r in Hx.
  right. destruct Hacc as [->|[p ->]]; unfold max2; simpl.
  - by exists q.
  - destruct (Qlt_bool p q); by eexists.
Qed.

Lemma rational_loop_bound (v : value) :
  v ≠ VInfinity false → ∃ n : nat, lt (num (Z.of_nat n)) v = false.
Proof.
  intros Hv. destruct v as [| | |[]|m]; try by exists 0%nat.
  exists (Z.to_nat (Qfloor m + 1)). simpl. unfold Qlt_bool.
  destruct (Qle_bool _ m) eqn:E; [|done]. exfalso.
  apply Qle_bool_iff in E.
  pose proof (Qlt_floor m) as Hm.
  pose proof (Qfloor_le m) as Hm'.
  assert (Hle : (inject_Z (Qfloor m + 1)
                 <= inject_Z (Z.of_nat (Z.to_nat (Qfloor m + 1))))%Q).
  { rewrite <- Zle_Qle. lia. }
  apply (Qlt_irrefl m).
  eapply Qlt_le_trans; [exact Hm|]. by eapply Qle_trans.
Qed.

Lemma rational_radix_finite (items : list value) :
  isRadixSortable items = true →
  ∃ n : nat, jsLt (numLit (Z.of_nat n)) (maxDigitsOf items) = false.
Proof.
  intros Hs. apply rational_loop_bound.
  unfold maxDigitsOf. simpl. unfold math_max.
  destruct (math_max_sortable items (VInfinity true) Hs ltac:(by left))
    as [->|[q ->]]; [done|].
  unfold math_log10.
  destruct (Qeq_bool q 0); [done|].
  destruct (Qnegative q); [done|].
  by destruct (Qle_bool 1 q).
Qed.

#[global] Instance rational_radix_laws : RadixLaws value.
Proof.
  split.
  - exact rational_radix_digit.
  - exact rational_radix_finite.
Qed.

End ReferenceHostFacts.

(** *** The reference host sorts, and orders its finite numbers *)

Section ReferenceSortFacts.
Import RationalHost.

Lemma Qlt_bool_iff (p q : Q) : Qlt_bool p q = true ↔ (p < q)%Q.
Proof.
  unfold Qlt_bool. rewrite andb_true_iff, negb_true_iff, Qle_bool_iff.
  split.
  - intros [Hle Hne]. apply Qle_lt_or_eq in Hle as [Hlt|Heq]; [done|].
    apply Qeq_bool_iff in Heq. congruence.
  - intros Hlt. split; [by apply Qlt_le_weak|].
    destruct (Qeq_bool p q) eqn:E; [|done].
    apply Qeq_bool_iff in E. rewrite E in Hlt.
    by apply Qlt_irrefl in Hlt.
Qed.

Lemma Qlt_bool_false (p q : Q) : Qlt_bool p q = false ↔ (q <= p)%Q.
Proof.
  destruct (Qlt_bool p q) eqn:E.
  - apply Qlt_bool_iff in E. split; [done|]. intros. lra.
  - split; [|done]. intros _. destruct (Qlt_le_dec p q) as [Hlt|]; [|done].
    apply Qlt_bool_iff in Hlt. congruence.
Qed.

(** The finite numbers of the reference host are its rationals. *)
Lemma rational_finite (x : value) :
  isFiniteNumber x = true → ∃ q, x = VNumber q.
Proof.
  unfold isFiniteNumber. destruct x as [|s| |[]|q]; try done.
  intros _. by exists q.
Qed.

#[global] Instance rational_finite_number_laws : FiniteNumberLaws value.
Proof.
  split.
  - by intros [|s| |[]|q].
  - intros a b [p ->]%rational_finite [q ->]%rational_finite.
    cbn [jsLt jsSub numLit host]. unfold sub, add, negate, lt, num.
    apply eq_true_iff_eq. rewrite !Qlt_bool_iff, !Qred_correct.
    change (inject_Z 0) with 0%Q. split; intros; lra.
  - intros a b [p ->]%rational_finite [q ->]%rational_finite.
    cbn [jsLt jsSub numLit host]. unfold sub, add, negate, lt, num.
    apply eq_true_iff_eq. rewrite !Qlt_bool_iff, !Qred_correct.
    change (inject_Z 0) with 0%Q. split; intros; lra.
  - intros a b [p ->]%rational_finite [q ->]%rational_finite.
    cbn [jsLt jsSub numLit strictEquals host].
    unfold sub, add, negate, lt, num, strict_equals.
    apply eq_true_iff_eq.
    rewrite andb_true_iff, !negb_true_iff, !Qlt_bool_false, Qeq_bool_iff,
      !Qred_correct.
    change (inject_Z 0) with 0%Q. split; [intros; split; lra|intros []; lra].
  - intros a b [p ->]%rational_finite [q ->]%rational_finite.
    cbn [jsLt host]. unfold lt. rewrite Qlt_bool_iff, Qlt_bool_false. lra.
  - intros a b c [p ->]%rational_finite [q ->]%rational_finite
      [r ->]%rational_finite.
    cbn [jsLt host]. unfold lt. rewrite !Qlt_bool_iff. lra.
  - intros a b c [p ->]%rational_finite [q ->]%rational_finite
      [r ->]%rational_finite.
    cbn [jsLt host]. unfold lt. rewrite !Qlt_bool_iff. intros Hpr.
    destruct (Qlt_le_dec p q); [by left|right; lra].
Qed.

(** Inserting into a list in which no element is less than an earlier one
    keeps it so, for a consistent comparator. *)
Lemma sorted_insert_ordered (compare : value → value → value)
    (S : value → Prop) (x : value) (l : list value) :
  consistentComparator compare S → S x → Forall S l →
  StronglySorted (λ a b, lessCF compare b a = false) l →
  StronglySorted (λ a b, lessCF compare b a = false)
    (sorted_insert compare x l).
Proof.
  intros Hcc Hx Hl Hsorted.
  assert (Hirrefl : ∀ a, S a → lessCF compare a a = false).
  { intros a Ha. pose proof (consistent_refl _ _ Hcc a Ha) as E.
    destruct (consistent_number _ _ Hcc a a Ha Ha) as [(_ & E' & _)|[(? & _)|(_ & E' & _)]];
      congruence. }
  induction Hsorted as [|y l Hsorted IH Hy]; cbn [sorted_insert].
  - by repeat constructor.
  - apply Forall_cons in Hl as [Sy Hl].
    change (lt (compare x y) (num 0)) with (lessCF compare x y).
    destruct (lessCF compare x y) eqn:E.
    + constructor; [by constructor|]. constructor.
      * destruct (lessCF compare y x) eqn:E'; [|done].
        pose proof (consistent_less_trans _ _ Hcc x y x Hx Sy Hx E E') as Ex.
        rewrite Hirrefl in Ex by done. done.
      * rewrite Forall_forall in Hy, Hl. apply Forall_forall. intros z Hz.
        destruct (lessCF compare z x) eqn:E'; [|done].
        pose proof (consistent_less_trans _ _ Hcc z x y (Hl z Hz) Hx Sy E' E)
          as Ez.
        rewrite (Hy z Hz) in Ez. done.
    + constructor; [by apply IH|].
      rewrite sorted_insert_permutation. by constructor.
Qed.

Lemma sorted_fold_ordered (compare : value → value → value)
    (S : value → Prop) (l acc : list value) :
  consistentComparator compare S → Forall S l → Forall S acc →
  StronglySorted (λ a b, lessCF compare b a = false) acc →
  StronglySorted (λ a b, lessCF compare b a = false)
    (fold_left (λ acc x, sorted_insert compare x acc) l acc).
Proof.
  intros Hcc. revert acc.
  induction l as [|x l IH]; intros acc Hl Hacc Hsorted; [done|].
  apply Forall_cons in Hl as [Hx Hl]. simpl. apply IH; [done| |].
  - rewrite sorted_insert_permutation. by constructor.
  - by apply (sorted_insert_ordered compare S).
Qed.

Lemma strongly_sorted_lookup {A : Type} (R : A → A → Prop) (l : list A) :
  StronglySorted R l →
  ∀ (p q : nat) (x y : A),
    (p < q)%nat → l !! p = Some x → l !! q = Some y → R x y.
Proof.
  induction 1 as [|z l Hsorted IH Hz]; intros p q x y Hpq Hx Hy; [done|].
  destruct q as [|q]; [lia|]. simpl in Hy. destruct p as [|p].
  - simpl in Hx. injection Hx as <-. rewrite Forall_forall in Hz.
    apply Hz. by apply list_elem_of_lookup_2 in Hy.
  - simpl in Hx. apply (IH p q); [lia|done|done].
Qed.

#[global] Instance rational_native_sort_ordered : NativeSortOrdered value.
Proof.
  split. intros compare l Hdefined Hcc p q x y Hpq Hx Hy.
  cbn [nativeSort host] in Hx, Hy. unfold native_sort in Hx, Hy.
  assert (Hnone : List.filter is_undefined l = []).
  { clear -Hdefined. induction Hdefined as [|z l Hz _ IH]; [done|].
    simpl. by destruct z. }
  assert (Hall : List.filter (λ v, negb (is_undefined v)) l = l).
  { clear -Hdefined. induction Hdefined as [|z l Hz _ IH]; [done|].
    simpl. destruct z; try done; simpl; by rewrite IH. }
  rewrite Hnone, Hall, app_nil_r in Hx, Hy.
  apply (strongly_sorted_lookup (λ a b, lessCF compare b a = false) _
           (sorted_fold_ordered compare (λ x, x ∈ l) l [] Hcc
              ltac:(by apply Forall_forall) ltac:(done) ltac:(constructor))
           p q x y Hpq Hx Hy).
Qed.

End ReferenceSortFacts.

(* ===================================================================== *)
(** * Part III: the properties on concrete lists *)
(* ===================================================================== *)

Section Instances.
Import RationalHost.

(** C1 on [[10, 20, 30, 40]]: the callback calls [continueFn] at index [0];
    the forward loop resumes at index [2] with the world the first visit
    left. *)
Lemma each_continue_skips_next_visit_witness :
  let items := num <$> [10; 20; 30; 40] in
  each_forward (λ _, items) (logging continueAtZero) false 1 4 4 0
    (initState [])
  = each_forward (λ _, items) (logging continueAtZero) false 1 4 2 2
      (initState [0]).
Proof.
  intros items.
  pose proof (each_continue_skips_next_visit (λ _ : list Z, items)
                (logging continueAtZero) false 1 4 0 [] eq_refl eq_refl)
    as (_ & _ & _ & Hloop & _).
  exact (Hloop 2%nat eq_refl eq_refl).
Defined.

(** C1 as stated fails when the callback also calls [breakFn]: on
    [[10, 20, 30]] with both signals raised at index [0], the next visit
    leaves the continue flag set, the visit after it does not call the
    callback (the world stays [[0]] although the callback would extend it),
    and [each] ends having called the callback once. *)
Lemma continue_with_break_counterexample :
  let items := num <$> [10; 20; 30] in
  let callback := logging breakAndContinueAtZero in
  let iterate' := iterate (λ _, items) callback false 1 3 in
  let st1 := iterate' 0 (initState []) in
  let st2 := iterate' 1 st1 in
  let st3 := iterate' 2 st2 in
  continueRequested (invoke (λ _, items) callback false 1 3 0 []).2 = true
  ∧ continueLoop st2 ≠ false
  ∧ world st3 = [0]
  ∧ world st3 ≠ (invoke (λ _, items) callback false 1 3 2 (world st2)).1
  ∧ each (λ _, items) 3 callback noOptions [] = Some [0].
Proof. by vm_compute. Qed.

(** C5 on five elements, forward with step [2]: the third scheduled visit
    is index [4], the last one, and the step divides [length - 1]. *)
Lemma each_isFirst_isLast_witness :
  let items := num <$> [1; 2; 3; 4; 5] in
  isLast (mkContext false 2 5 items 4) = true
  ↔ 3%nat = length (schedule false 2 5) ∧ (2 | 5 - 1).
Proof.
  intros items.
  pose proof (each_isFirst_isLast false 2 items 2 4 eq_refl eq_refl)
    as (_ & _ & Hlast & _).
  exact Hlast.
Defined.

(** C5 as stated fails for a step that does not divide [length - 1]: on four
    elements, forward with step [2], the visits are indices [0] and [2], and
    [isLast] is [false] at index [2], the last element visited. *)
Lemma isLast_step_counterexample :
  let items := num <$> [1; 2; 3; 4] in
  schedule false 2 4 = [0; 2]
  ∧ isLast (mkContext false 2 4 items 2) = false
  ∧ each (λ _, items) 2 flagLogging
      {| reverse := None; step := Some 2 |} []
    = Some [(0, true, false); (2, false, false)].
Proof. by vm_compute. Qed.

(** C2 on [[1, 2, 2, 1]]. *)
Lemma mode_first_to_reach_maximum_witness :
  let items := num <$> [1; 2; 2; 1] in
  occurrences (mode items) items = maxOccurrences items.
Proof.
  intros items.
  pose proof (mode_first_to_reach_maximum items) as [_ Hmode].
  exact (proj1 (Hmode ltac:(discriminate))).
Defined.

(** C2 as stated fails on [[1, 2, 2, 1]]: both values occur twice, [1]
    occurs first (position [0], against position [1] for [2]), yet [mode]
    returns [2], whose count reaches two first. *)
Lemma mode_first_occurrence_counterexample :
  let items := num <$> [1; 2; 2; 1] in
  occurrences (num 1) items = maxOccurrences items
  ∧ occurrences (num 2) items = maxOccurrences items
  ∧ firstIndex (num 1) items = Some 0%nat
  ∧ firstIndex (num 2) items = Some 1%nat
  ∧ mode items = num 2
  ∧ sameValueZero (mode items) (num 1) = false.
Proof. by vm_compute. Qed.

(** C10 on [[4, 1, 4, 2, 1]]. *)
Lemma unique_first_occurrences_witness :
  let items := num <$> [4; 1; 4; 2; 1] in
  ∃ r h', unique 0%nat (singleList items) = Ok (r, h')
          ∧ contents h' 0%nat = Some items.
Proof.
  intros items.
  destruct (unique_first_occurrences (singleList items) 0%nat items eq_refl)
    as (r & h' & u & E & _ & _ & Hthis & _).
  exists r, h'. split; [exact E|exact Hthis].
Defined.

(** C7 on [[1, 2, 3]] with [k = 1]. *)
Lemma rotate_round_trip_witness :
  let items := num <$> [1; 2; 3] in
  ∃ h1 h2, rotate 0%nat 1 (singleList items) = Ok (0%nat, h1)
           ∧ rotate 0%nat (3 - 1) h1 = Ok (0%nat, h2)
           ∧ contents h2 0%nat = Some items.
Proof.
  intros items.
  pose proof (rotate_round_trip (singleList items) 0%nat items eq_refl
                ltac:(discriminate)) as [_ Hround].
  exact (Hround 1 ltac:(subst items; simpl; lia)).
Defined.

(** C9 on five elements with [size = 2] and fuel [3]. *)
Lemma chunk_terminates_iff_positive_size_witness :
  let items := num <$> [1; 2; 3; 4; 5] in
  ∃ chunks, chunk 3 items 2 = Some chunks
            ∧ Z.of_nat (length chunks) = 3.
Proof.
  intros items.
  pose proof (chunk_terminates_iff_positive_size items 2) as [Hpos _].
  exact (Hpos ltac:(lia) 3%nat ltac:(vm_compute; lia)).
Defined.

(** C3 on [[5, 3, -8, 1]]. *)
Lemma sort_radix_falls_back_to_quick_witness :
  let items := num <$> [5; 3; -8; 1] in
  ∃ sorted h1 h2,
    quickSort (getDefaultCompare asc) 4 0 (Z.of_nat (length items) - 1) items
    = Ok sorted
    ∧ sort 4 0%nat (Direction asc) (Some radix) (singleList items)
      = Ok (0%nat, h1)
    ∧ sort 4 0%nat (Direction asc) (Some quick) (singleList items)
      = Ok (0%nat, h2)
    ∧ console h1 = [radixWarning].
Proof.
  intros items.
  assert (Hx : ∃ x, x ∈ items ∧ isRadixSortableItem x = false).
  { exists (num (-8)). split; [|reflexivity].
    right; right; left. }
  destruct (sort_radix_falls_back_to_quick (singleList items) 0%nat items asc
              4 eq_refl Hx ltac:(subst items; simpl; lia))
    as (sorted & h1 & h2 & E & E1 & E2 & Hlog & _).
  exists sorted, h1, h2. repeat split; done.
Defined.

(** C4 on the one-element list [[7]], sorted by radix. *)
Lemma sort_short_list_unchanged_witness :
  let items := num <$> [7] in
  ∃ fuel0 : nat, ∀ fuel : nat, (fuel0 ≤ fuel)%nat →
    ∃ h', sort fuel 0%nat (Direction desc) (Some radix) (singleList items)
          = Ok (0%nat, h')
          ∧ contents h' 0%nat = Some items.
Proof.
  intros items.
  exact (sort_short_list_unchanged (singleList items) 0%nat items
           (Direction desc) (Some radix) eq_refl ltac:(subst items; simpl; lia)).
Defined.

(** C8 on [[4, 1, 3, 2]]: the receiver keeps its order, and the copy is in
    ascending order. *)
Lemma median_sorts_a_copy_witness :
  let items := num <$> [4; 1; 3; 2] in
  ∃ v h', median 0%nat (singleList items) = Ok (v, h')
          ∧ contents h' 0%nat = Some items
          ∧ ∀ (p q : nat) (x y : value),
              (p < q)%nat →
              nativeSort medianCompare items !! p = Some x →
              nativeSort medianCompare items !! q = Some y →
              jsLt y x = false.
Proof.
  intros items.
  assert (Hfin : Forall (λ x, isFiniteNumber x = true) items)
    by (repeat constructor).
  destruct (median_sorts_a_copy (singleList items) 0%nat items eq_refl)
    as (v & h' & E & Hthis & _ & _ & _ & _ & _ & _ & _ & Hasc).
  exists v, h'. split; [exact E|]. split; [exact Hthis|].
  exact (Hasc _ _ Hfin).
Defined.

(** *** The scenarios of the specification *)

(** Reading the contents of the receiver after a method ran. *)
Example sort_quick_scenario :
  (sort 5 0%nat (Direction asc) (Some quick)
     (singleList (num <$> [5; 3; 8; 1; 9]))) ≫= (λ r, Ok (contents r.2 r.1))
  = Ok (Some (num <$> [1; 3; 5; 8; 9])).
Proof. by vm_compute. Qed.

Example sort_radix_scenario :
  (sort 5 0%nat (Direction asc) (Some radix)
     (singleList (num <$> [5; 3; 8; 1; 9]))) ≫= (λ r, Ok (contents r.2 r.1))
  = Ok (Some (num <$> [1; 3; 5; 8; 9])).
Proof. by vm_compute. Qed.

Example sort_methods_agree_scenario :
  Forall
    (λ method,
       (sort 5 0%nat (Direction desc) method
          (singleList (num <$> [5; 3; 8; 1; 9])))
         ≫= (λ r, Ok (contents r.2 r.1))
       = Ok (Some (num <$> [9; 8; 5; 3; 1])))
    [None; Some merge; Some quick; Some bubble; Some insertion;
     Some selection; Some heap; Some radix].
Proof. repeat constructor. Qed.

Example median_scenario :
  (median 0%nat (singleList (num <$> [5; 3; 8; 1; 9]))) ≫= (λ r, Ok r.1)
  = Ok (num 5).
Proof. by vm_compute. Qed.

Example median_even_scenario :
  (median 0%nat (singleList (num <$> [4; 1; 3; 2]))) ≫= (λ r, Ok r.1)
  = Ok (VNumber (5 # 2)).
Proof. by vm_compute. Qed.

Example rotate_scenarios :
  rotated 1 (num <$> [1; 2; 3]) = num <$> [3; 1; 2]
  ∧ rotated (-1) (num <$> [1; 2; 3]) = num <$> [2; 3; 1].
Proof. by vm_compute. Qed.

Example chunk_scenario :
  chunk 3 (num <$> [1; 2; 3; 4; 5]) 2
  = Some [num <$> [1; 2]; num <$> [3; 4]; num <$> [5]].
Proof. by vm_compute. Qed.

(** [continueFn] at index [0] skips index [1]. *)
Example each_continue_scenario :
  each (λ _, num <$> [10; 20; 30; 40]) 4 (logging continueAtZero) noOptions []
  = Some [0; 2; 3]
  ∧ each (λ _, num <$> [10; 20; 30; 40]) 4 (logging continueAtZero)
      {| reverse := Some true; step := Some 2 |} []
    = Some [3; 1].
Proof. by vm_compute. Qed.

Example unique_scenario :
  (unique 0%nat (singleList (num <$> [4; 1; 4; 2; 1])))
    ≫= (λ r, Ok (contents r.2 r.1))
  = Ok (Some (num <$> [4; 1; 2])).
Proof. by vm_compute. Qed.

End Instances.

(* ===================================================================== *)
(** * Part IV: the rest of the class *)
(* ===================================================================== *)

(** ** Arrays *)

Section ArrayFacts.
Context {T : Type} `{JsHost T}.

Lemma arr_get_lookup (items : list T) (k : nat) (x : T) :
  items !! k = Some x → arr_get items (Z.of_nat k) = x.
Proof.
  intros E. unfold arr_get.
  destruct (Z.ltb_spec (Z.of_nat k) 0); [lia|].
  by rewrite Nat2Z.id, E.
Qed.

Lemma arr_get_in_range (items : list T) (i : Z) :
  0 ≤ i < Z.of_nat (length items) →
  items !! Z.to_nat i = Some (arr_get items i).
Proof.
  intros Hi. unfold arr_get. destruct (Z.ltb_spec i 0); [lia|].
  destruct (lookup_lt_is_Some_2 items (Z.to_nat i)) as [x E]; [lia|].
  by rewrite E.
Qed.

Lemma arr_get_out_of_range (items : list T) (i : Z) :
  i < 0 ∨ Z.of_nat (length items) ≤ i → arr_get items i = undefined.
Proof.
  intros Hi. unfold arr_get. destruct (Z.ltb_spec i 0); [done|].
  rewrite lookup_ge_None_2; [done|lia].
Qed.

Lemma arr_get_seqZ (items : list T) :
  arr_get items <$> seqZ 0 (Z.of_nat (length items)) = items.
Proof.
  apply list_eq. intros k. rewrite list_lookup_fmap.
  destruct (items !! k) as [x|] eqn:E.
  - rewrite lookup_seqZ_lt by (apply lookup_lt_Some in E; lia).
    rewrite Z.add_0_l. cbn [fmap option_fmap option_map].
    by rewrite (arr_get_lookup items k x E).
  - rewrite lookup_seqZ_ge; [done|]. apply lookup_ge_None in E. lia.
Qed.

Lemma arr_set_in_range (items : list T) (i : Z) (v : T) :
  0 ≤ i < Z.of_nat (length items) →
  arr_set items i v = <[Z.to_nat i := v]> items.
Proof.
  intros Hi. unfold arr_set. destruct (Z.ltb_spec i 0); [lia|].
  by destruct (Z.ltb_spec i (Z.of_nat (length items))); [|lia].
Qed.

Lemma arr_set_length (items : list T) (i : Z) (v : T) :
  0 ≤ i < Z.of_nat (length items) →
  length (arr_set items i v) = length items.
Proof. intros Hi. by rewrite arr_set_in_range, length_insert. Qed.

(** Exchanging two positions of an array rearranges it. *)
Lemma swap_in_range (items : list T) (i j : Z) :
  0 ≤ i < Z.of_nat (length items) → 0 ≤ j < Z.of_nat (length items) →
  swap items i j ≡ₚ items ∧ length (swap items i j) = length items.
Proof.
  intros Hi Hj. unfold swap.
  rewrite (arr_set_in_range items i) by done.
  rewrite arr_set_in_range by (rewrite length_insert; lia).
  pose proof (arr_get_in_range items i Hi) as Ei.
  pose proof (arr_get_in_range items j Hj) as Ej.
  split; [|by rewrite !length_insert].
  destruct (decide (Z.to_nat i = Z.to_nat j)) as [E|Hne].
  - rewrite E, list_insert_insert_eq.
    rewrite list_insert_id; [done|]. by rewrite <- E.
  - symmetry. apply Permutation_inj. split; [by rewrite !length_insert|].
    exists (λ k, if decide (k = Z.to_nat i) then Z.to_nat j
                 else if decide (k = Z.to_nat j) then Z.to_nat i else k).
    split.
    + intros a b. repeat case_decide; lia.
    + intros k. repeat case_decide; subst.
      * rewrite list_lookup_insert_eq by (rewrite length_insert; lia).
        done.
      * rewrite list_lookup_insert_ne by done.
        rewrite list_lookup_insert_eq by lia. done.
      * by rewrite !list_lookup_insert_ne.
Qed.

End ArrayFacts.

(** ** More on the traversal primitive *)

Section TraversalFacts.
Context {T : Type} `{JsHost T}.

(** Once [breakLoop] is set, the remaining visits do nothing. *)
Lemma fold_iterate_after_break {W : Type} (getItems : W → list T)
    (callback : EachCallback T W) (rev : bool) (stp len : Z)
    (indices : list Z) (st : LoopState W) :
  breakLoop st = true →
  fold_left (λ s i, iterate getItems callback rev stp len i s) indices st = st.
Proof.
  intros Hb. induction indices as [|i indices IH]; [done|].
  simpl. by rewrite iterate_after_break.
Qed.

(** A traversal whose callback stops at the first index that satisfies
    [stop] and otherwise updates the world with [body]. *)
Lemma fold_iterate_until {S : Type} (getItems : S → list T)
    (callback : EachCallback T S) (rev : bool) (stp len : Z)
    (stop : Z → S → bool) (found body : Z → S → S) :
  (∀ i s, invoke getItems callback rev stp len i s
          = if stop i s then (found i s, breakSignal)
            else (body i s, noSignal)) →
  ∀ (indices : list Z) (s : S),
    world (fold_left (λ st i, iterate getItems callback rev stp len i st)
             indices (initState s))
    = (fix run (indices : list Z) (s : S) : S :=
         match indices with
         | [] => s
         | i :: rest => if stop i s then found i s else run rest (body i s)
         end) indices s.
Proof.
  intros Hcb. induction indices as [|i indices IH]; intros s; [done|].
  simpl. rewrite iterate_flags_clear, Hcb.
  destruct (stop i s); simpl.
  - by rewrite fold_iterate_after_break.
  - apply IH.
Qed.

End TraversalFacts.

Lemma rev_indices (n : nat) :
  List.rev ((λ i : nat, Z.of_nat i + 0) <$> seq 0 n)
  = (λ k : nat, Z.of_nat n - 1 - Z.of_nat k * 1) <$> seq 0 n.
Proof.
  induction n as [|n IH]; [done|].
  rewrite seq_S at 1. rewrite fmap_app, rev_app_distr. simpl.
  rewrite IH. f_equal; [lia|].
  rewrite <- fmap_S_seq, <- list_fmap_compose.
  apply list_fmap_ext. intros; simpl; lia.
Qed.

(** With step [1] the schedule is every index, once, in the direction of
    the traversal. *)
Lemma schedule_step_one (rev : bool) (len : Z) :
  0 ≤ len →
  schedule rev 1 len
  = if rev then List.rev (seqZ 0 len) else seqZ 0 len.
Proof.
  intros Hlen. unfold schedule, visitCount.
  replace ((len + 1 - 1) / 1) with len by (rewrite Z.div_1_r; lia).
  unfold seqZ. destruct rev.
  - rewrite rev_indices, Z2Nat.id by lia. done.
  - apply list_fmap_ext. intros; lia.
Qed.

Section DerivedFacts.
Context {T : Type} `{JsHost T} {W : Type}.
Variable items : list T.
Variable options : EachOptions.
Variable fuel : nat.
Hypothesis step_positive : 0 < default 1 (step options).
Hypothesis enough_fuel :
  (visitCount (default 1%Z (step options)) (Z.of_nat (length items))
   ≤ fuel)%nat.

Local Abbreviation rev' := (default false (reverse options)).
Local Abbreviation stp' := (default 1 (step options)).
Local Abbreviation len' := (Z.of_nat (length items)).

(** [each] over a list the callback does not change. *)
Lemma each_fixed_items {S : Type} (callback : EachCallback T S) (s : S) :
  each (λ _, items) fuel callback options s
  = Some (world (fold_left
                   (λ st i, iterate (λ _, items) callback rev' stp' len' i st)
                   (schedule rev' stp' len') (initState s))).
Proof.
  by apply (each_runs_schedule (λ _ : S, items) callback options fuel s).
Qed.

(** A quiet callback is called on every scheduled index, in order. *)
Lemma each_quiet {S : Type} (callback : EachCallback T S) (s : S) :
  (∀ i s, (invoke (λ _, items) callback rev' stp' len' i s).2 = noSignal) →
  each (λ _, items) fuel callback options s
  = Some (fold_left
            (λ s i, (invoke (λ _, items) callback rev' stp' len' i s).1)
            (schedule rev' stp' len') s).
Proof.
  intros Hq. rewrite each_fixed_items. by rewrite fold_iterate_no_signal.
Qed.

Lemma map_pure_visits {U : Type} (f : T → Z → EachContext T → U) (w : W) :
  Traverse.map (λ _, items) fuel (Traverse.pure f) options w
  = Some ((λ '(v, i, c), f v i c) <$> visits items options, w).
Proof.
  unfold Traverse.map. rewrite each_quiet by done. f_equal.
  unfold visits. generalize (schedule rev' stp' len'). intros indices.
  rewrite (fold_left_pointwise _
    (λ (s : list U * W) i,
       (s.1 ++ [f (arr_get items i) i (mkContext rev' stp' len' items i)],
        s.2))) by done.
  assert (G : ∀ acc : list U,
    fold_left
      (λ (s : list U * W) i,
         (s.1 ++ [f (arr_get items i) i (mkContext rev' stp' len' items i)],
          s.2))
      indices (acc, w)
    = (acc ++ ((λ '(v, i, c), f v i c)
               <$> ((λ i, (arr_get items i, i,
                           mkContext rev' stp' len' items i)) <$> indices)),
       w)).
  { induction indices as [|i indices IH]; intros acc; simpl.
    - by rewrite app_nil_r.
    - rewrite IH. by rewrite <- app_assoc. }
  apply (G []).
Qed.

Local Abbreviation visit' :=
  (λ i : Z, (arr_get items i, i, mkContext rev' stp' len' items i)).

Lemma filter_pure_visits (p : T → Z → EachContext T → bool) (w : W) :
  Traverse.filter (λ _, items) fuel (Traverse.pure p) options w
  = Some ((λ v, v.1.1)
            <$> List.filter (λ '(v, i, c), p v i c) (visits items options),
          w).
Proof.
  unfold Traverse.filter. rewrite each_quiet.
  2:{ intros i s. unfold invoke, Traverse.pure. by destruct (p _ _ _). }
  f_equal. unfold visits. generalize (schedule rev' stp' len').
  intros indices.
  rewrite (fold_left_pointwise _
    (λ (s : list T * W) i,
       (if p (arr_get items i) i (mkContext rev' stp' len' items i)
        then s.1 ++ [arr_get items i] else s.1, s.2))) by done.
  assert (G : ∀ acc : list T,
    fold_left
      (λ (s : list T * W) i,
         (if p (arr_get items i) i (mkContext rev' stp' len' items i)
          then s.1 ++ [arr_get items i] else s.1, s.2))
      indices (acc, w)
    = (acc ++ ((λ v, v.1.1)
               <$> List.filter (λ '(v, i, c), p v i c) (visit' <$> indices)),
       w)).
  { induction indices as [|i indices IH]; intros acc; simpl.
    - by rewrite app_nil_r.
    - rewrite IH. destruct (p _ _ _); simpl; [|done].
      by rewrite <- app_assoc. }
  apply (G []).
Qed.

Lemma find_pure_visits (p : T → Z → EachContext T → bool) (w : W) :
  Traverse.find (λ _, items) fuel (Traverse.pure p) options w
  = Some (from_option (λ v, v.1.1) undefined
            (List.find (λ '(v, i, c), p v i c) (visits items options)),
          w).
Proof.
  unfold Traverse.find. rewrite each_fixed_items. f_equal.
  rewrite (fold_iterate_until _ _ _ _ _
             (λ i _, p (arr_get items i) i (mkContext rev' stp' len' items i))
             (λ i s, (arr_get items i, s.2)) (λ _ s, (s.1, s.2))).
  2:{ intros i s. unfold invoke, Traverse.pure. by destruct (p _ _ _). }
  unfold visits. generalize (schedule rev' stp' len') (@undefined T _).
  intros indices res. revert res.
  induction indices as [|i indices IH]; intros res; simpl; [done|].
  destruct (p _ _ _); [done|]. apply IH.
Qed.

Lemma findIndex_pure_visits (p : T → Z → EachContext T → bool) (w : W) :
  Traverse.findIndex (λ _, items) fuel (Traverse.pure p) options w
  = Some (from_option (λ v, v.1.2) (-1)
            (List.find (λ '(v, i, c), p v i c) (visits items options)),
          w).
Proof.
  unfold Traverse.findIndex. rewrite each_fixed_items. f_equal.
  rewrite (fold_iterate_until _ _ _ _ _
             (λ i _, p (arr_get items i) i (mkContext rev' stp' len' items i))
             (λ i s, (i, s.2)) (λ _ s, (s.1, s.2))).
  2:{ intros i s. unfold invoke, Traverse.pure. by destruct (p _ _ _). }
  unfold visits. generalize (schedule rev' stp' len') (-1).
  intros indices res. revert res.
  induction indices as [|i indices IH]; intros res; simpl; [done|].
  destruct (p _ _ _); [done|]. apply IH.
Qed.

Lemma every_pure_visits (p : T → Z → EachContext T → bool) (w : W) :
  Traverse.every (λ _, items) fuel (Traverse.pure p) options w
  = Some (forallb (λ '(v, i, c), p v i c) (visits items options), w).
Proof.
  unfold Traverse.every. rewrite each_fixed_items. f_equal.
  rewrite (fold_iterate_until _ _ _ _ _
             (λ i _, negb (p (arr_get items i) i
                             (mkContext rev' stp' len' items i)))
             (λ i s, (false, s.2)) (λ _ s, (s.1, s.2))).
  2:{ intros i s. unfold invoke, Traverse.pure. by destruct (p _ _ _). }
  unfold visits. generalize (schedule rev' stp' len').
  intros indices.
  induction indices as [|i indices IH]; simpl; [done|].
  destruct (p _ _ _); [apply IH|done].
Qed.

Lemma some_pure_visits (p : T → Z → EachContext T → bool) (w : W) :
  Traverse.some (λ _, items) fuel (Traverse.pure p) options w
  = Some (existsb (λ '(v, i, c), p v i c) (visits items options), w).
Proof.
  unfold Traverse.some. rewrite each_fixed_items. f_equal.
  rewrite (fold_iterate_until _ _ _ _ _
             (λ i _, p (arr_get items i) i (mkContext rev' stp' len' items i))
             (λ i s, (true, s.2)) (λ _ s, (s.1, s.2))).
  2:{ intros i s. unfold invoke, Traverse.pure. by destruct (p _ _ _). }
  unfold visits. generalize (schedule rev' stp' len').
  intros indices.
  induction indices as [|i indices IH]; simpl; [done|].
  destruct (p _ _ _); [done|apply IH].
Qed.

Lemma reduce_pure_visits {U : Type} (f : U → T → Z → EachContext T → U)
    (initialValue : U) (w : W) :
  Traverse.reduce (λ _, items) fuel (λ acc, Traverse.pure (f acc))
    initialValue options w
  = Some (fold_left (λ acc '(v, i, c), f acc v i c) (visits items options)
            initialValue, w).
Proof.
  unfold Traverse.reduce. rewrite each_quiet by done. f_equal.
  unfold visits. generalize (schedule rev' stp' len') initialValue.
  intros indices acc. revert acc.
  induction indices as [|i indices IH]; intros acc; simpl; [done|].
  apply IH.
Qed.

End DerivedFacts.

(** X1.  A callback that raises no signal is called on every scheduled
    index, in schedule order, each call starting in the world the previous
    one left; with the default step the schedule is every index of the list
    exactly once, ascending, or descending when [reverse] is set. *)
Theorem each_quiet_calls_schedule {T : Type} `{JsHost T} {W : Type}
    (getItems : W → list T) (callback : EachCallback T W)
    (options : EachOptions) (fuel : nat) (w : W) :
  let rev := default false (reverse options) in
  let stp := default 1 (step options) in
  let len := Z.of_nat (length (getItems w)) in
  0 < stp →
  (visitCount stp len ≤ fuel)%nat →
  (∀ i w, (invoke getItems callback rev stp len i w).2 = noSignal) →
  each getItems fuel callback options w
  = Some (fold_left (λ w i, (invoke getItems callback rev stp len i w).1)
            (schedule rev stp len) w)
  ∧ (step options = None →
     schedule rev stp len
     = if rev then List.rev (seqZ 0 len) else seqZ 0 len).
Proof.
  intros rev stp len Hs Hf Hq. split.
  - rewrite (each_runs_schedule getItems callback options fuel w Hs Hf).
    fold rev stp len. by rewrite fold_iterate_no_signal.
  - intros E. unfold stp. rewrite E. simpl. apply schedule_step_one. lia.
Qed.

(** X2.  When the scheduled indices before [i] raise no signal and the
    callback at [i] calls [breakFn], [each] ends in the world that call
    left: the call at [i] completes and no later index is visited. *)
Theorem each_break_stops_traversal {T : Type} `{JsHost T} {W : Type}
    (getItems : W → list T) (callback : EachCallback T W)
    (options : EachOptions) (fuel : nat) (w : W)
    (before after : list Z) (i : Z) :
  let rev := default false (reverse options) in
  let stp := default 1 (step options) in
  let len := Z.of_nat (length (getItems w)) in
  let invoke' := invoke getItems callback rev stp len in
  let reached := fold_left (λ w j, (invoke' j w).1) before w in
  0 < stp →
  (visitCount stp len ≤ fuel)%nat →
  schedule rev stp len = before ++ i :: after →
  (∀ j w, j ∈ before → (invoke' j w).2 = noSignal) →
  breakRequested (invoke' i reached).2 = true →
  each getItems fuel callback options w = Some (invoke' i reached).1.
Proof.
  intros rev stp len invoke' reached Hs Hf Hsched Hq Hb.
  rewrite (each_runs_schedule getItems callback options fuel w Hs Hf).
  fold rev stp len. rewrite Hsched, fold_left_app. simpl.
  assert (G : ∀ (pre : list Z) (w0 : W),
             (∀ j w, j ∈ pre → (invoke' j w).2 = noSignal) →
             fold_left (λ s j, iterate getItems callback rev stp len j s)
               pre (initState w0)
             = initState (fold_left (λ w j, (invoke' j w).1) pre w0)).
  { induction pre as [|j pre IH]; intros w0 Hpre; [done|].
    simpl. rewrite iterate_flags_clear. fold (invoke' j w0).
    rewrite (Hpre j w0) by left. simpl.
    apply IH. intros k w' Hk. apply Hpre. by right. }
  rewrite (G before w Hq). fold reached. rewrite iterate_flags_clear. fold (invoke' i reached). rewrite Hb.
  by rewrite fold_iterate_after_break.
Qed.

(** ** Lists *)

Section ListFacts.
Context {A B : Type}.

Lemma filter_fmap_swap (g : A → B) (p : B → bool) (l : list A) :
  List.filter p (g <$> l) = g <$> List.filter (λ x, p (g x)) l.
Proof.
  induction l as [|x l IH]; [done|]. simpl.
  destruct (p (g x)); simpl; [f_equal|]; apply IH.
Qed.

Lemma find_fmap_swap (g : A → B) (p : B → bool) (l : list A) :
  List.find p (g <$> l) = g <$> List.find (λ x, p (g x)) l.
Proof.
  induction l as [|x l IH]; [done|]. simpl. by destruct (p (g x)).
Qed.

Lemma forallb_fmap_swap (g : A → B) (p : B → bool) (l : list A) :
  forallb p (g <$> l) = forallb (λ x, p (g x)) l.
Proof. induction l as [|x l IH]; [done|]. simpl. f_equal. apply IH. Qed.

Lemma existsb_fmap_swap (g : A → B) (p : B → bool) (l : list A) :
  existsb p (g <$> l) = existsb (λ x, p (g x)) l.
Proof. induction l as [|x l IH]; [done|]. simpl. f_equal. apply IH. Qed.

Lemma fold_left_fmap_swap {C : Type} (g : A → B) (f : C → B → C)
    (l : list A) (c : C) :
  fold_left f (g <$> l) c = fold_left (λ c x, f c (g x)) l c.
Proof. revert c. induction l as [|x l IH]; intros c; [done|]. apply IH. Qed.

Lemma fmap_rev (g : A → B) (l : list A) :
  g <$> List.rev l = List.rev (g <$> l).
Proof.
  induction l as [|x l IH]; [done|]. simpl.
  by rewrite fmap_app, IH.
Qed.

End ListFacts.

(** The values a traversal with the default step visits. *)
Lemma visits_values {T : Type} `{JsHost T} (items : list T)
    (options : EachOptions) :
  step options = None →
  (λ v, v.1.1) <$> visits items options
  = if default false (reverse options) then List.rev items else items.
Proof.
  intros E. unfold visits. rewrite E. simpl.
  rewrite schedule_step_one by lia.
  rewrite <- list_fmap_compose.
  destruct (default false (reverse options)).
  - rewrite fmap_rev. f_equal. apply arr_get_seqZ.
  - apply arr_get_seqZ.
Qed.

(** X3.  [map] with an effect-free callback returns the callback's results
    for the scheduled visits, in traversal order, and leaves the world as it
    was; with the default step and a callback of the value alone this is the
    pointwise image of the list, reversed when [reverse] is set. *)
Theorem map_collects_in_traversal_order {T : Type} `{JsHost T} {W U : Type}
    (items : list T) (options : EachOptions) (fuel : nat)
    (f : T → Z → EachContext T → U) (g : T → U) (w : W) :
  0 < default 1 (step options) →
  (visitCount (default 1%Z (step options)) (Z.of_nat (length items))
   ≤ fuel)%nat →
  Traverse.map (λ _, items) fuel (Traverse.pure f) options w
  = Some ((λ '(v, i, c), f v i c) <$> visits items options, w)
  ∧ (step options = None →
     Traverse.map (λ _, items) fuel (Traverse.pure (λ v _ _, g v)) options w
     = Some (g <$> (if default false (reverse options)
                    then List.rev items else items), w)).
Proof.
  intros Hs Hf. split; [by apply map_pure_visits|].
  intros E. rewrite map_pure_visits by done.
  rewrite <- (visits_values items options E), <- list_fmap_compose.
  do 2 f_equal. apply list_fmap_ext. by intros k [[v i] c].
Qed.

(** X4.  [filter] with an effect-free predicate keeps exactly the visited
    values that satisfy it, in traversal order; with the default step and a
    predicate of the value alone this is the ordinary filter of the list,
    of the reversed list when [reverse] is set. *)
Theorem filter_keeps_matches_in_traversal_order {T : Type} `{JsHost T}
    {W : Type} (items : list T) (options : EachOptions) (fuel : nat)
    (p : T → Z → EachContext T → bool) (q : T → bool) (w : W) :
  0 < default 1 (step options) →
  (visitCount (default 1%Z (step options)) (Z.of_nat (length items))
   ≤ fuel)%nat →
  Traverse.filter (λ _, items) fuel (Traverse.pure p) options w
  = Some ((λ v, v.1.1)
            <$> List.filter (λ '(v, i, c), p v i c) (visits items options),
          w)
  ∧ (step options = None →
     Traverse.filter (λ _, items) fuel (Traverse.pure (λ v _ _, q v))
       options w
     = Some (List.filter q (if default false (reverse options)
                            then List.rev items else items), w)).
Proof.
  intros Hs Hf. split; [by apply filter_pure_visits|].
  intros E. rewrite filter_pure_visits by done.
  rewrite <- (visits_values items options E), filter_fmap_swap.
  do 3 f_equal.
  induction (visits items options) as [|[[v i] c] l IH]; [done|].
  simpl. destruct (q v); by rewrite IH.
Qed.

(** X5.  [find] and [findIndex] with an effect-free predicate answer the
    value and the index of the first scheduled visit that satisfies it, and
    [undefined] and [-1] when none does; what [find] answers is the element
    at the index [findIndex] answers. *)
Theorem find_answers_first_match {T : Type} `{JsHost T} {W : Type}
    (items : list T) (options : EachOptions) (fuel : nat)
    (p : T → Z → EachContext T → bool) (w : W) :
  0 < default 1 (step options) →
  (visitCount (default 1%Z (step options)) (Z.of_nat (length items))
   ≤ fuel)%nat →
  let first := List.find (λ '(v, i, c), p v i c) (visits items options) in
  Traverse.find (λ _, items) fuel (Traverse.pure p) options w
  = Some (from_option (λ v, v.1.1) undefined first, w)
  ∧ Traverse.findIndex (λ _, items) fuel (Traverse.pure p) options w
    = Some (from_option (λ v, v.1.2) (-1) first, w)
  ∧ (∀ v i c, first = Some (v, i, c) →
       v = arr_get items i ∧ 0 ≤ i < Z.of_nat (length items)
       ∧ p v i c = true)
  ∧ (first = None →
     ∀ v i c, (v, i, c) ∈ visits items options → p v i c = false).
Proof.
  intros Hs Hf first. split; [by apply find_pure_visits|].
  split; [by apply findIndex_pure_visits|]. split.
  - intros v i c E. apply find_some in E as [Hin Hp].
    apply list_elem_of_In in Hin. unfold visits in Hin.
    apply list_elem_of_fmap in Hin as (j & [= -> -> ->] & Hj).
    split; [done|]. split; [|done].
    unfold schedule in Hj.
    apply list_elem_of_fmap in Hj as (k & -> & Hk).
    apply elem_of_seq in Hk. unfold visitCount in Hk.
    set (s := default 1 (step options)) in *.
    set (len := Z.of_nat (length items)) in *.
    assert (Hq : s * ((len + s - 1) / s) ≤ len + s - 1).
    { apply Z.mul_div_le. lia. }
    assert (Hk' : Z.of_nat k + 1 ≤ (len + s - 1) / s) by lia.
    destruct (default false (reverse options)); nia.
  - intros E v i c Hin. apply list_elem_of_In in Hin.
    by apply (find_none _ _ E (v, i, c)).
Qed.

(** X6.  [every] and [some] with an effect-free predicate are the
    conjunction and the disjunction of the predicate over the scheduled
    visits: [every] is [true] and [some] is [false] when nothing is
    visited, and [some] of a predicate is the negation of [every] of its
    negation. *)
Theorem every_some_over_visits {T : Type} `{JsHost T} {W : Type}
    (items : list T) (options : EachOptions) (fuel : nat)
    (p : T → Z → EachContext T → bool) (w : W) :
  0 < default 1 (step options) →
  (visitCount (default 1%Z (step options)) (Z.of_nat (length items))
   ≤ fuel)%nat →
  Traverse.every (λ _, items) fuel (Traverse.pure p) options w
  = Some (forallb (λ '(v, i, c), p v i c) (visits items options), w)
  ∧ Traverse.some (λ _, items) fuel (Traverse.pure p) options w
    = Some (existsb (λ '(v, i, c), p v i c) (visits items options), w)
  ∧ (items = [] →
     Traverse.every (λ _, items) fuel (Traverse.pure p) options w
     = Some (true, w)
     ∧ Traverse.some (λ _, items) fuel (Traverse.pure p) options w
       = Some (false, w))
  ∧ Traverse.some (λ _, items) fuel (Traverse.pure p) options w
    = (λ r, (negb r.1, r.2))
        <$> Traverse.every (λ _, items) fuel
              (Traverse.pure (λ v i c, negb (p v i c))) options w.
Proof.
  intros Hs Hf. rewrite !every_pure_visits, !some_pure_visits by done.
  split; [done|]. split; [done|]. split.
  - intros ->. unfold visits, schedule, visitCount. simpl.
    rewrite Z.add_0_l.
    rewrite Z.div_small by lia. done.
  - simpl. do 2 f_equal.
    induction (visits items options) as [|[[v i] c] l IH]; [done|].
    simpl. rewrite IH. by destruct (p v i c).
Qed.

(** X7.  [reduce] with an effect-free callback folds it over the scheduled
    visits from the initial value; with the default step and a callback of
    the accumulator and the value alone it is the left fold of the list, of
    the reversed list when [reverse] is set. *)
Theorem reduce_folds_in_traversal_order {T : Type} `{JsHost T} {W U : Type}
    (items : list T) (options : EachOptions) (fuel : nat)
    (f : U → T → Z → EachContext T → U) (g : U → T → U)
    (initialValue : U) (w : W) :
  0 < default 1 (step options) →
  (visitCount (default 1%Z (step options)) (Z.of_nat (length items))
   ≤ fuel)%nat →
  Traverse.reduce (λ _, items) fuel (λ acc, Traverse.pure (f acc))
    initialValue options w
  = Some (fold_left (λ acc '(v, i, c), f acc v i c) (visits items options)
            initialValue, w)
  ∧ (step options = None →
     Traverse.reduce (λ _, items) fuel
       (λ acc, Traverse.pure (λ v _ _, g acc v)) initialValue options w
     = Some (fold_left g (if default false (reverse options)
                          then List.rev items else items) initialValue, w)).
Proof.
  intros Hs Hf. split; [by apply reduce_pure_visits|].
  intros E.
  rewrite (reduce_pure_visits items options fuel Hs Hf
             (λ acc v _ _, g acc v)).
  rewrite <- (visits_values items options E), fold_left_fmap_swap.
  do 2 f_equal. apply fold_left_pointwise. by intros acc [[v i] c].
Qed.

(** ** Searching and reversing with [each] *)

Section IndexOfFacts.
Context {T : Type} `{JsHost T}.

(** Scanning the positions of [l] (a suffix of the items, starting at
    position [o]) upwards and stopping at the first match at or after
    [from]. *)
Lemma scan_upwards (x : T) (from : Z) (items l : list T) :
  ∀ (before : list T) (found o : Z),
    items = before ++ l → o = Z.of_nat (length before) → 0 ≤ from →
    (fix run (indices : list Z) (s : Z) : Z :=
       match indices with
       | [] => s
       | i :: rest =>
           if (from <=? i) && strictEquals (arr_get items i) x then i
           else run rest s
       end) (seqZ o (Z.of_nat (length l))) found
    = let r := indexOf_scan (drop (Z.to_nat (from - o)) l) x (Z.max from o) in
      if decide (r = -1) then found else r.
Proof.
  induction l as [|v l IH]; intros before found o Hitems Ho Hfrom.
  - simpl. by rewrite drop_nil.
  - rewrite seqZ_cons by (simpl; lia).
    assert (Hget : arr_get items o = v).
    { subst. apply arr_get_lookup. by rewrite list_lookup_middle. }
    rewrite Hget.
    replace (Z.pred (Z.of_nat (length (v :: l)))) with (Z.of_nat (length l))
      by (simpl; lia).
    specialize (IH (before ++ [v]) found (Z.succ o)).
    rewrite IH; [|by rewrite <- app_assoc|rewrite length_app; simpl; lia|done].
    cbn zeta.
    destruct (Z.leb_spec from o) as [Hle|Hgt].
    + replace (Z.to_nat (from - o)) with 0%nat by lia.
      replace (Z.max from o) with o by lia. rewrite drop_0. simpl.
      destruct (strictEquals v x); [case_decide; [lia|done]|].
      replace (Z.to_nat (from - Z.succ o)) with 0%nat by lia.
      replace (Z.max from (Z.succ o)) with (o + 1) by lia.
      by rewrite drop_0.
    + simpl.
      replace (Z.to_nat (from - o)) with (S (Z.to_nat (from - Z.succ o)))
        by lia.
      simpl. by replace (Z.max from (Z.succ o)) with (Z.max from o) by lia.
Qed.

End IndexOfFacts.

(** X8.  With a start index that is absent or not negative and fuel for
    every element, [indexOfWithEach] answers what [indexOf] answers. *)
Theorem indexOfWithEach_is_indexOf {T : Type} `{JsHost T}
    (fuel : nat) (items : list T) (x : T) (fromIndex : option Z) :
  0 ≤ default 0 fromIndex →
  (length items ≤ fuel)%nat →
  indexOfWithEach fuel items x fromIndex
  = Some (indexOf items x fromIndex).
Proof.
  intros Hfrom Hf. unfold indexOfWithEach.
  set (from := default 0 fromIndex) in *.
  set (len := Z.of_nat (length items)).
  rewrite (each_runs_schedule (λ _ : Z, items) _ noOptions fuel (-1)).
  2:{ simpl. lia. }
  2:{ unfold visitCount. simpl. rewrite Z.add_simpl_r, Z.div_1_r. lia. }
  f_equal. cbn zeta. simpl default. fold len.
  rewrite (fold_iterate_until _ _ _ _ _
             (λ i _, (from <=? i) && strictEquals (arr_get items i) x)
             (λ i _, i) (λ _ s, s)).
  2:{ intros i s. unfold invoke, indexOfWithEach_callback.
      by destruct (_ && _). }
  rewrite schedule_step_one by lia.
  pose proof (scan_upwards x from items items [] (-1) 0 eq_refl eq_refl Hfrom)
    as R.
  cbn zeta in R. fold len in R.
  unfold indexOf, Array_indexOf. fold from len.
  destruct (Z.leb_spec 0 from); [|lia].
  rewrite Z.sub_0_r, Z.max_l in R by lia.
  etrans; [|etrans; [exact R|by case_decide]].
  generalize (seqZ 0 len) (-1). intros indices s. revert s.
  induction indices as [|i indices IH]; intros s; [done|].
  destruct (_ && _); [done|apply IH].
Qed.

Section LastIndexFacts.
Context {T : Type} `{JsHost T}.

Lemma indexOf_scan_bounds (l : list T) (x : T) (o : Z) :
  indexOf_scan l x o = -1 ∨ o ≤ indexOf_scan l x o.
Proof.
  revert o. induction l as [|v l IH]; intros o; simpl; [by left|].
  destruct (strictEquals v x); [right; lia|].
  destruct (IH (o + 1)); [by left|right; lia].
Qed.

(** Visiting the positions of [l] (a suffix of the items, starting at
    position [o]) from the last one down, and recording every match at a
    position of at most [from], leaves the first match if it is at a
    position of at most [from], and nothing otherwise. *)
Lemma record_bounded_matches_downwards (x : T) (from : Z) (items l : list T) :
  ∀ (before : list T) (found o : Z),
    items = before ++ l → o = Z.of_nat (length before) →
    fold_left
      (λ found i,
         if (i <=? from) && strictEquals (arr_get items i) x
         then i else found)
      ((λ k : nat, o + Z.of_nat (length l) - 1 - Z.of_nat k * 1)
         <$> seq 0 (length l))
      found
    = if decide (indexOf_scan l x o ≠ -1 ∧ indexOf_scan l x o ≤ from)
      then indexOf_scan l x o else found.
Proof.
  induction l as [|v l IH]; intros before found o Hitems Ho.
  { cbn [length seq fmap list_fmap fold_left indexOf_scan].
    by destruct (decide (-1 ≠ -1 ∧ -1 ≤ from)) as [[Hd _]|]. }
  change (length (v :: l)) with (S (length l)).
  rewrite seq_S, fmap_app, fold_left_app.
  rewrite (list_fmap_ext _
             (λ k : nat, (o + 1) + Z.of_nat (length l) - 1 - Z.of_nat k * 1)
             (seq 0 (length l)))
    by (intros; lia).
  rewrite (IH (before ++ [v]) found (o + 1));
    [|by rewrite <- app_assoc|rewrite length_app; simpl; lia].
  cbn [fmap list_fmap fold_left].
  replace (o + Z.of_nat (S (length l)) - 1 - Z.of_nat (0 + length l) * 1)
    with o by lia.
  assert (Hget : arr_get items o = v).
  { subst. unfold arr_get.
    destruct (Z.ltb_spec (Z.of_nat (length before)) 0); [lia|].
    by rewrite Nat2Z.id, list_lookup_middle. }
  rewrite Hget. simpl.
  pose proof (indexOf_scan_bounds l x (o + 1)) as Hb.
  destruct (strictEquals v x).
  - destruct (Z.leb_spec o from); simpl.
    + destruct (decide _) as [|Hd]; [done|]. exfalso. apply Hd. lia.
    + repeat destruct (decide _); try done; lia.
  - rewrite andb_false_r. done.
Qed.

End LastIndexFacts.

(** X9.  With fuel for every element, [lastIndexOfWithEach] answers the
    position of the first occurrence of the value, what [indexOf] answers,
    when that position is at most the start index, and [-1] otherwise; with
    its default start index it answers what [indexOf] answers. *)
Theorem lastIndexOfWithEach_answers_first_occurrence {T : Type} `{JsHost T}
    (fuel : nat) (items : list T) (x : T) (fromIndex : option Z) :
  (length items ≤ fuel)%nat →
  lastIndexOfWithEach fuel items x fromIndex
  = Some (if indexOf items x None
             <=? default (Z.of_nat (length items) - 1) fromIndex
          then indexOf items x None else -1)
  ∧ lastIndexOfWithEach fuel items x None = Some (indexOf items x None).
Proof.
  intros Hf. split; [|by apply lastIndexOfWithEach_is_indexOf].
  unfold lastIndexOfWithEach.
  set (len := Z.of_nat (length items)).
  set (from := default (len - 1) fromIndex).
  pose proof (each_runs_schedule (λ _ : Z, items)
                (lastIndexOfWithEach_callback x from)
                {| reverse := Some true; step := None |} fuel (-1)) as E.
  cbn zeta in E. rewrite E; clear E; [|done|].
  2:{ unfold visitCount. simpl. rewrite Z.add_simpl_r, Z.div_1_r. lia. }
  f_equal. simpl. fold len.
  rewrite fold_iterate_no_signal.
  2:{ intros i w. unfold invoke, lastIndexOfWithEach_callback.
      by destruct (_ && _). }
  simpl. unfold schedule, visitCount.
  replace (Z.to_nat ((len + 1 - 1) / 1)) with (length items)
    by (rewrite Z.add_simpl_r, Z.div_1_r; lia).
  pose proof (record_bounded_matches_downwards x from items items [] (-1) 0
                eq_refl eq_refl) as R.
  pose proof (indexOf_scan_bounds items x 0) as Hb.
  unfold indexOf, Array_indexOf. simpl. rewrite drop_0.
  etrans; [|etrans; [exact R|]].
  - fold len.
    rewrite (list_fmap_ext _
               (λ k : nat, 0 + len - 1 - Z.of_nat k * 1)
               (seq 0 (length items)))
      by (intros; lia).
    apply fold_left_pointwise. intros w i.
    unfold invoke, lastIndexOfWithEach_callback. simpl.
    by destruct (_ && _).
  - destruct (Z.leb_spec (indexOf_scan items x 0) from);
      destruct (decide _) as [Hd|Hd]; try done; lia.
Qed.

Section ReverseFacts.
Context {T : Type} `{JsHost T}.

Lemma reverse_runs (h : Heap T) (this : loc) (items : list T) :
  contents h this = Some items →
  ∃ h', ListMethods.reverse this h = Ok (this, h')
        ∧ contents h' this = Some (List.rev items)
        ∧ lists h' = lists h
        ∧ console h' = console h.
Proof.
  intros Hc. apply contents_Some in Hc as (a & Hl & Ha).
  exists {| arrays := <[a := List.rev items]> (arrays h); lists := lists h;
            console := console h |}.
  split; [|split; [|done]].
  - unfold ListMethods.reverse, heap_bind, loadItems. rewrite Hl.
    unfold readArray. rewrite Ha. unfold writeArray. by rewrite Ha.
  - apply contents_Some. exists a. simpl. by rewrite lookup_insert_eq.
Qed.

Lemma reversed_by_unshift (items : list T) (indices : list Z)
    (reversed : list T) :
  fold_left
    (λ w i, (invoke (λ _ : list T, items) ListMethods.reverseWithEach_callback
               false 1 (Z.of_nat (length items)) i w).1)
    indices reversed
  = List.rev (arr_get items <$> indices) ++ reversed.
Proof.
  revert reversed. induction indices as [|i indices IH]; intros reversed;
    [done|].
  simpl. rewrite IH. unfold invoke, ListMethods.reverseWithEach_callback.
  simpl. by rewrite <- app_assoc.
Qed.

End ReverseFacts.

(** X10.  [reverseWithEach] and [reverse] both leave the reversed sequence
    and return the receiver; [reverse] rearranges the receiver's own array
    while [reverseWithEach] installs a new one; [reverse] twice restores the
    sequence. *)
Theorem reverseWithEach_reverses {T : Type} `{JsHost T}
    (h : Heap T) (this : loc) (items : list T) (fuel : nat) :
  contents h this = Some items →
  (length items ≤ fuel)%nat →
  ∃ h1 h2 h3 : Heap T,
    ListMethods.reverseWithEach fuel this h = Ok (this, h1)
    ∧ contents h1 this = Some (List.rev items)
    ∧ (∃ a, lists h1 !! this = Some a ∧ arrays h !! a = None)
    ∧ ListMethods.reverse this h = Ok (this, h2)
    ∧ contents h2 this = Some (List.rev items)
    ∧ lists h2 = lists h
    ∧ ListMethods.reverse this h2 = Ok (this, h3)
    ∧ contents h3 this = Some items.
Proof.
  intros Hc Hf.
  destruct (reverse_runs h this items Hc) as (h2 & E2 & Hc2 & Hl2 & _).
  destruct (reverse_runs h2 this _ Hc2) as (h3 & E3 & Hc3 & _).
  rewrite rev_involutive in Hc3.
  apply contents_Some in Hc as (a & Hl & Ha).
  set (a' := fresh (dom (arrays h))).
  exists {| arrays := <[a' := List.rev items]> (arrays h);
            lists := <[this := a']> (lists h); console := console h |},
    h2, h3.
  split; [|split; [|split]].
  - unfold ListMethods.reverseWithEach, heap_bind, loadItems. rewrite Hl.
    unfold readArray. rewrite Ha.
    assert (Hfuel : (visitCount (default 1%Z (step noOptions))
                       (Z.of_nat (length items)) ≤ fuel)%nat).
    { unfold visitCount. simpl. rewrite Z.add_simpl_r, Z.div_1_r. lia. }
    rewrite (each_quiet items noOptions fuel eq_refl Hfuel
               ListMethods.reverseWithEach_callback []) by done.
    cbn [default reverse step noOptions].
    rewrite (schedule_step_one false) by lia.
    rewrite reversed_by_unshift, arr_get_seqZ, app_nil_r.
    unfold newArray, storeItems. simpl. by rewrite Hl.
  - apply contents_Some. exists a'. simpl. by rewrite !lookup_insert_eq.
  - exists a'. simpl. rewrite lookup_insert_eq. split; [done|].
    apply fresh_array_unused.
  - done.
Qed.

(** ** Adding and removing elements *)

Section MutatorFacts.
Context {T : Type} `{JsHost T}.

(** A method that reads the receiver's array and overwrites it. *)
Lemma overwrite_runs {A : Type} (h : Heap T) (this a : loc)
    (items items' : list T) (result : A) :
  lists h !! this = Some a → arrays h !! a = Some items →
  let h' := {| arrays := <[a := items']> (arrays h); lists := lists h;
               console := console h |} in
  heap_bind (writeArray a items') (λ _, heap_ret result) h = Ok (result, h')
  ∧ contents h' this = Some items'
  ∧ lists h' !! this = Some a
  ∧ arrays h' !! a = Some items'.
Proof.
  intros Hl Ha h'. split; [|split; [|split]].
  - unfold heap_bind, writeArray. by rewrite Ha.
  - apply contents_Some. exists a. simpl. by rewrite lookup_insert_eq.
  - done.
  - simpl. by rewrite lookup_insert_eq.
Qed.

Lemma slice_all (items : list T) : slice items None None = items.
Proof.
  unfold slice, relIndex. simpl.
  destruct (Z.ltb_spec (Z.of_nat (length items)) 0); [lia|].
  rewrite !Z.min_l by lia. rewrite Z.sub_0_r, Nat2Z.id.
  simpl. by rewrite firstn_all.
Qed.

Lemma removelast_snoc (l : list T) (x : T) : removelast (l ++ [x]) = l.
Proof. apply removelast_last. Qed.

End MutatorFacts.

(** X11.  [push(x)] appends [x] and answers the new length; a [pop] right
    after answers [x] and restores the sequence; [pop] on an empty list
    answers [undefined] and changes nothing. *)
Theorem push_pop_round_trip {T : Type} `{JsHost T}
    (h : Heap T) (this : loc) (items : list T) (x : T) :
  contents h this = Some items →
  (∃ h1 h2 : Heap T,
     ListMethods.push this [x] h = Ok (Z.of_nat (length items) + 1, h1)
     ∧ contents h1 this = Some (items ++ [x])
     ∧ ListMethods.pop this h1 = Ok (x, h2)
     ∧ contents h2 this = Some items)
  ∧ (items = [] → ListMethods.pop this h = Ok (undefined, h)).
Proof.
  intros Hc. apply contents_Some in Hc as (a & Hl & Ha). split.
  - destruct (overwrite_runs h this a items (items ++ [x])
                (Z.of_nat (length (items ++ [x]))) Hl Ha)
      as (E1 & Hc1 & Hl1 & Ha1).
    set (h1 := {| arrays := <[a := items ++ [x]]> (arrays h);
                  lists := lists h; console := console h |}) in *.
    destruct (overwrite_runs h1 this a (items ++ [x]) items x Hl1 Ha1)
      as (E2 & Hc2 & _).
    eexists h1, _. split; [|split; [done|split; [|exact Hc2]]].
    + unfold ListMethods.push, heap_bind at 1, loadItems. rewrite Hl.
      unfold heap_bind at 1, readArray. rewrite Ha, E1.
      do 2 f_equal. rewrite length_app. simpl. lia.
    + unfold ListMethods.pop, heap_bind at 1, loadItems. rewrite Hl1.
      unfold heap_bind at 1, readArray. rewrite Ha1.
      destruct (items ++ [x]) as [|y l] eqn:E; [by destruct items|].
      rewrite <- E, removelast_snoc, last_last. exact E2.
  - intros ->. unfold ListMethods.pop, heap_bind, loadItems. rewrite Hl.
    unfold readArray. by rewrite Ha.
Qed.

(** X12.  [unshift(x)] prepends [x] and answers the new length; a [shift]
    right after answers [x] and restores the sequence; [shift] on an empty
    list answers [undefined] and changes nothing. *)
Theorem unshift_shift_round_trip {T : Type} `{JsHost T}
    (h : Heap T) (this : loc) (items : list T) (x : T) :
  contents h this = Some items →
  (∃ h1 h2 : Heap T,
     ListMethods.unshift this [x] h = Ok (Z.of_nat (length items) + 1, h1)
     ∧ contents h1 this = Some (x :: items)
     ∧ ListMethods.shift this h1 = Ok (x, h2)
     ∧ contents h2 this = Some items)
  ∧ (items = [] → ListMethods.shift this h = Ok (undefined, h)).
Proof.
  intros Hc. apply contents_Some in Hc as (a & Hl & Ha). split.
  - destruct (overwrite_runs h this a items ([x] ++ items)
                (Z.of_nat (length ([x] ++ items))) Hl Ha)
      as (E1 & Hc1 & Hl1 & Ha1).
    set (h1 := {| arrays := <[a := [x] ++ items]> (arrays h);
                  lists := lists h; console := console h |}) in *.
    destruct (overwrite_runs h1 this a ([x] ++ items) items x Hl1 Ha1)
      as (E2 & Hc2 & _).
    eexists h1, _. split; [|split; [done|split; [|exact Hc2]]].
    + unfold ListMethods.unshift, heap_bind at 1, loadItems. rewrite Hl.
      unfold heap_bind at 1, readArray. rewrite Ha, E1.
      do 2 f_equal. simpl. lia.
    + unfold ListMethods.shift, heap_bind at 1, loadItems. rewrite Hl1.
      unfold heap_bind at 1, readArray. rewrite Ha1. exact E2.
  - intros ->. unfold ListMethods.shift, heap_bind, loadItems. rewrite Hl.
    unfold readArray. by rewrite Ha.
Qed.

Section SpliceFacts.
Context {T : Type} `{JsHost T}.

Lemma splice_insert (items : list T) (index : Z) (e : T) :
  0 ≤ index ≤ Z.of_nat (length items) →
  Array_splice items index 0 [e]
  = ([], take (Z.to_nat index) items ++ e :: drop (Z.to_nat index) items).
Proof.
  intros Hi. unfold Array_splice, relIndex.
  destruct (Z.ltb_spec index 0); [lia|].
  rewrite (Z.min_l index) by lia. rewrite (Z.max_l 0 0) by lia.
  rewrite (Z.min_l 0) by lia. by rewrite Z.add_0_r.
Qed.

Lemma splice_remove_inserted (before after : list T) (e : T) :
  Array_splice (before ++ e :: after) (Z.of_nat (length before)) 1 []
  = ([e], before ++ after).
Proof.
  unfold Array_splice, relIndex. rewrite length_app. simpl length.
  destruct (Z.ltb_spec (Z.of_nat (length before)) 0); [lia|].
  rewrite (Z.min_l (Z.of_nat (length before))) by lia.
  rewrite (Z.max_l 1 0) by lia. rewrite (Z.min_l 1) by lia.
  rewrite Nat2Z.id.
  replace (Z.to_nat (Z.of_nat (length before) + 1)) with (S (length before))
    by lia.
  rewrite drop_app_length, take_app_length.
  replace (before ++ e :: after) with ((before ++ [e]) ++ after)
    by by rewrite <- app_assoc.
  rewrite drop_app_length'; [done|]. rewrite length_app. simpl. lia.
Qed.

Lemma splice_remove_past_end (items : list T) (index : Z) :
  Z.of_nat (length items) ≤ index →
  Array_splice items index 1 [] = ([], items).
Proof.
  intros Hi. unfold Array_splice, relIndex.
  destruct (Z.ltb_spec index 0); [lia|].
  rewrite (Z.min_r index) by lia. rewrite (Z.max_l 1 0) by lia.
  rewrite (Z.min_r 1) by lia. rewrite Z.sub_diag, Z.add_0_r, Nat2Z.id.
  simpl. by rewrite firstn_all, drop_all, app_nil_r.
Qed.

Lemma overwritten (h : Heap T) (this a : loc) (l : list T) :
  lists h !! this = Some a →
  let h' := {| arrays := <[a := l]> (arrays h); lists := lists h;
               console := console h |} in
  contents h' this = Some l ∧ lists h' !! this = Some a
  ∧ arrays h' !! a = Some l.
Proof.
  intros Hl h'. split; [|split; [done|]].
  - apply contents_Some. exists a. simpl. by rewrite lookup_insert_eq.
  - simpl. by rewrite lookup_insert_eq.
Qed.

Lemma insert_runs (h : Heap T) (this a : loc) (items : list T) (e : T)
    (index : Z) :
  lists h !! this = Some a → arrays h !! a = Some items →
  ListMethods.insert this e index h
  = Ok (tt, {| arrays := <[a := (Array_splice items index 0 [e]).2]>
                           (arrays h);
               lists := lists h; console := console h |}).
Proof.
  intros Hl Ha. unfold ListMethods.insert, heap_bind, loadItems. rewrite Hl.
  unfold readArray. rewrite Ha. unfold writeArray. by rewrite Ha.
Qed.

Lemma remove_runs (h : Heap T) (this a : loc) (items : list T) (index : Z) :
  lists h !! this = Some a → arrays h !! a = Some items →
  ListMethods.remove this index h
  = Ok (arr_get (Array_splice items index 1 []).1 0,
        {| arrays := <[a := (Array_splice items index 1 []).2]> (arrays h);
           lists := lists h; console := console h |}).
Proof.
  intros Hl Ha.
  unfold ListMethods.remove, heap_bind at 1, loadItems. rewrite Hl.
  unfold heap_bind at 1, readArray. rewrite Ha.
  destruct (Array_splice items index 1 []) as [removed l'].
  unfold heap_bind, writeArray. by rewrite Ha.
Qed.

Lemma splice_insert_before_last (init : list T) (z e : T) :
  Array_splice (init ++ [z]) (-1) 0 [e] = ([], init ++ [e; z]).
Proof.
  unfold Array_splice, relIndex. rewrite length_app.
  change (-1 <? 0) with true. cbv iota.
  change (length [z]) with 1%nat.
  replace (Z.of_nat (length init + 1) + -1) with (Z.of_nat (length init))
    by lia.
  rewrite (Z.max_l (Z.of_nat (length init)) 0) by lia.
  change (Z.max 0 0) with 0.
  rewrite (Z.min_l 0) by lia. rewrite Z.add_0_r, Nat2Z.id.
  change (Z.to_nat 0) with 0%nat.
  rewrite take_app_length, drop_app_length. reflexivity.
Qed.

Lemma splice_remove_last (l : list T) (z : T) :
  Array_splice (l ++ [z]) (-1) 1 [] = ([z], l).
Proof.
  rewrite <- (app_nil_r l) at 2.
  rewrite <- (splice_remove_inserted l [] z).
  unfold Array_splice, relIndex. rewrite !length_app. simpl.
  rewrite (Z.max_l _ 0) by lia.
  destruct (Z.ltb_spec (Z.of_nat (length l)) 0); [lia|].
  rewrite (Z.min_l (Z.of_nat (length l))) by lia.
  repeat f_equal; lia.
Qed.

End SpliceFacts.

(** X13.  For [0 <= index <= length], [insert(e, index)] puts [e] at
    position [index] and a [remove(index)] right after answers [e] and
    restores the sequence; [remove] at or past the length answers
    [undefined] and changes nothing.  A negative index does not round-trip:
    on a list ending in [z], [insert(e, -1)] puts [e] before [z] and
    [remove(-1)] then takes [z]. *)
Theorem insert_remove_round_trip {T : Type} `{JsHost T}
    (h : Heap T) (this : loc) (items : list T) (e : T) (index : Z) :
  contents h this = Some items →
  (0 ≤ index ≤ Z.of_nat (length items) →
   ∃ h1 h2 : Heap T,
     ListMethods.insert this e index h = Ok (tt, h1)
     ∧ contents h1 this
       = Some (take (Z.to_nat index) items ++ e :: drop (Z.to_nat index) items)
     ∧ ListMethods.remove this index h1 = Ok (e, h2)
     ∧ contents h2 this = Some items)
  ∧ (Z.of_nat (length items) ≤ index →
     ∃ h1, ListMethods.remove this index h = Ok (undefined, h1)
           ∧ contents h1 this = Some items)
  ∧ (∀ init z, items = init ++ [z] →
     ∃ h1 h2 : Heap T,
       ListMethods.insert this e (-1) h = Ok (tt, h1)
       ∧ contents h1 this = Some (init ++ [e; z])
       ∧ ListMethods.remove this (-1) h1 = Ok (z, h2)
       ∧ contents h2 this = Some (init ++ [e])).
Proof.
  intros Hc. apply contents_Some in Hc as (a & Hl & Ha).
  split; [|split].
  - intros Hi.
    pose proof (insert_runs h this a items e index Hl Ha) as E1.
    rewrite splice_insert in E1 by done. simpl snd in E1.
    set (l1 := take (Z.to_nat index) items ++ e :: drop (Z.to_nat index) items)
      in *.
    destruct (overwritten h this a l1 Hl) as (Hc1 & Hl1 & Ha1).
    set (h1 := {| arrays := <[a := l1]> (arrays h); lists := lists h;
                  console := console h |}) in *.
    pose proof (remove_runs h1 this a l1 index Hl1 Ha1) as E2.
    assert (Hsplice : Array_splice l1 index 1 [] = ([e], items)).
    { unfold l1.
      replace index with (Z.of_nat (length (take (Z.to_nat index) items)))
        at 3 by (rewrite length_take; lia).
      by rewrite splice_remove_inserted, take_drop. }
    rewrite Hsplice in E2. simpl in E2.
    destruct (overwritten h1 this a items Hl1) as (Hc2 & _).
    eexists h1, _. split; [exact E1|]. split; [exact Hc1|].
    split; [exact E2|exact Hc2].
  - intros Hi.
    pose proof (remove_runs h this a items index Hl Ha) as E.
    rewrite splice_remove_past_end in E by done. simpl in E.
    destruct (overwritten h this a items Hl) as (Hc1 & _).
    eexists. split; [exact E|exact Hc1].
  - intros init z ->.
    pose proof (insert_runs h this a (init ++ [z]) e (-1) Hl Ha) as E1.
    rewrite splice_insert_before_last in E1. simpl snd in E1.
    destruct (overwritten h this a (init ++ [e; z]) Hl) as (Hc1 & Hl1 & Ha1).
    set (h1 := {| arrays := <[a := init ++ [e; z]]> (arrays h);
                  lists := lists h; console := console h |}) in *.
    pose proof (remove_runs h1 this a (init ++ [e; z]) (-1) Hl1 Ha1) as E2.
    replace (init ++ [e; z]) with ((init ++ [e]) ++ [z]) in E2 at 1 2
      by by rewrite <- app_assoc.
    rewrite splice_remove_last in E2. simpl in E2.
    destruct (overwritten h1 this a (init ++ [e]) Hl1) as (Hc2 & _).
    eexists h1, _. split; [exact E1|]. split; [exact Hc1|].
    split; [exact E2|exact Hc2].
Qed.

(** ** Copies and aliases *)

Section CopyFacts.
Context {T : Type} `{JsHost T}.

Lemma push_runs (h : Heap T) (this a : loc) (items elements : list T) :
  lists h !! this = Some a → arrays h !! a = Some items →
  ListMethods.push this elements h
  = Ok (Z.of_nat (length (items ++ elements)),
        {| arrays := <[a := items ++ elements]> (arrays h);
           lists := lists h; console := console h |}).
Proof.
  intros Hl Ha. unfold ListMethods.push, heap_bind, loadItems. rewrite Hl.
  unfold readArray. rewrite Ha. unfold writeArray. by rewrite Ha.
Qed.

(** What [new List(this.items.slice(start, end))] allocates: the array
    [slice] answers, the copy the constructor makes of it, and the object. *)
Lemma sliceOf_runs (h : Heap T) (this a : loc) (items : list T)
    (start end_ : option Z) :
  lists h !! this = Some a → arrays h !! a = Some items →
  let s := fresh (dom (arrays h)) in
  let arrays1 := <[s := slice items start end_]> (arrays h) in
  let a' := fresh (dom arrays1) in
  let c := fresh (dom (lists h)) in
  ListMethods.sliceOf this start end_ h
  = Ok (c, {| arrays := <[a' := slice items start end_]> arrays1;
              lists := <[c := a']> (lists h); console := console h |})
  ∧ c ≠ this ∧ a' ≠ a ∧ arrays1 !! a = Some items.
Proof.
  intros Hl Ha s arrays1 a' c.
  assert (Hs : s ≠ a).
  { intros E. pose proof (fresh_array_unused (arrays h)) as F.
    fold s in F. rewrite E in F. congruence. }
  assert (Ha1 : arrays1 !! a = Some items).
  { unfold arrays1. by rewrite lookup_insert_ne. }
  split; [|split; [|split; [|done]]].
  - unfold ListMethods.sliceOf, heap_bind at 1, loadItems. rewrite Hl.
    unfold heap_bind at 1, readArray at 1. rewrite Ha.
    unfold heap_bind at 1, newArray at 1. fold s.
    unfold newList, heap_bind at 1, readArray. cbn [arrays].
    fold arrays1. unfold arrays1 at 1. rewrite lookup_insert_eq.
    unfold heap_bind, newArray. cbn [arrays lists console]. done.
  - intros E. pose proof (fresh_list_unused (lists h)) as F.
    fold c in F. rewrite E in F. congruence.
  - intros E. pose proof (fresh_array_unused arrays1) as F.
    fold a' in F. rewrite E in F. congruence.
Qed.

End CopyFacts.

(** X14.  [clone()] answers a new [List] with the same elements that shares
    no array with the receiver: pushing onto either one afterwards leaves
    the other as it was. *)
Theorem clone_is_independent {T : Type} `{JsHost T}
    (h : Heap T) (this : loc) (items : list T) :
  contents h this = Some items →
  ∃ (c : loc) (h1 : Heap T),
    ListMethods.clone this h = Ok (c, h1)
    ∧ c ≠ this
    ∧ contents h1 c = Some items
    ∧ contents h1 this = Some items
    ∧ (∀ elements, ∃ n h2,
         ListMethods.push c elements h1 = Ok (n, h2)
         ∧ contents h2 c = Some (items ++ elements)
         ∧ contents h2 this = Some items)
    ∧ (∀ elements, ∃ n h2,
         ListMethods.push this elements h1 = Ok (n, h2)
         ∧ contents h2 this = Some (items ++ elements)
         ∧ contents h2 c = Some items).
Proof.
  intros Hc. apply contents_Some in Hc as (a & Hl & Ha).
  destruct (sliceOf_runs h this a items None None Hl Ha)
    as (E & Hne & Hane & Ha1).
  rewrite slice_all in *.
  set (arrays1 := <[fresh (dom (arrays h)) := items]> (arrays h)) in *.
  set (a' := fresh (dom arrays1)) in *.
  set (c := fresh (dom (lists h))) in *.
  set (h1 := {| arrays := <[a' := items]> arrays1;
                lists := <[c := a']> (lists h); console := console h |}) in *.
  assert (Hlc : lists h1 !! c = Some a') by (simpl; by rewrite lookup_insert_eq).
  assert (Hlt : lists h1 !! this = Some a)
    by (simpl; by rewrite lookup_insert_ne).
  assert (Hac : arrays h1 !! a' = Some items)
    by (simpl; by rewrite lookup_insert_eq).
  assert (Hat : arrays h1 !! a = Some items)
    by (simpl; by rewrite lookup_insert_ne).
  exists c, h1. split; [exact E|]. split; [done|].
  split; [apply contents_Some; by exists a'|].
  split; [apply contents_Some; by exists a|].
  split; intros elements.
  - eexists _, _. split; [exact (push_runs h1 c a' items elements Hlc Hac)|].
    split; apply contents_Some.
    + exists a'. split; [done|]. simpl. by rewrite lookup_insert_eq.
    + exists a. split; [done|]. cbn [arrays]. by rewrite lookup_insert_ne.
  - eexists _, _. split; [exact (push_runs h1 this a items elements Hlt Hat)|].
    split; apply contents_Some.
    + exists a. split; [done|]. simpl. by rewrite lookup_insert_eq.
    + exists a'. split; [done|]. cbn [arrays].
      by rewrite lookup_insert_ne by done.
Qed.

(** X15.  [toJSON()] answers the very array the list holds, so overwriting
    that array changes the list; [toArray()] answers a fresh array with the
    same elements, and overwriting it leaves the list as it was. *)
Theorem toJSON_aliases_toArray_copies {T : Type} `{JsHost T}
    (h : Heap T) (this : loc) (items : list T) :
  contents h this = Some items →
  (∃ a : loc,
     ListMethods.toJSON this h = Ok (a, h)
     ∧ arrays h !! a = Some items
     ∧ ∀ l, ∃ h', writeArray a l h = Ok (tt, h')
                  ∧ contents h' this = Some l)
  ∧ (∃ (b : loc) (h1 : Heap T),
       ListMethods.toArray this h = Ok (b, h1)
       ∧ arrays h1 !! b = Some items
       ∧ contents h1 this = Some items
       ∧ ∀ l, ∃ h', writeArray b l h1 = Ok (tt, h')
                    ∧ arrays h' !! b = Some l
                    ∧ contents h' this = Some items).
Proof.
  intros Hc. apply contents_Some in Hc as (a & Hl & Ha). split.
  - exists a. split; [|split; [done|]].
    + unfold ListMethods.toJSON, loadItems. by rewrite Hl.
    + intros l. eexists. split.
      * unfold writeArray. by rewrite Ha.
      * apply contents_Some. exists a. split; [done|].
        simpl. by rewrite lookup_insert_eq.
  - set (b := fresh (dom (arrays h))).
    assert (Hb : b ≠ a).
    { intros E. pose proof (fresh_array_unused (arrays h)) as F.
      fold b in F. rewrite E in F. congruence. }
    exists b, {| arrays := <[b := items]> (arrays h); lists := lists h;
                 console := console h |}.
    split; [|split; [|split]].
    + unfold ListMethods.toArray, heap_bind, loadItems. rewrite Hl.
      unfold readArray. rewrite Ha. unfold newArray. by rewrite slice_all.
    + simpl. by rewrite lookup_insert_eq.
    + apply contents_Some. exists a. split; [done|].
      simpl. by rewrite lookup_insert_ne.
    + intros l. eexists. split; [|split].
      * unfold writeArray. simpl. by rewrite lookup_insert_eq.
      * simpl. by rewrite lookup_insert_eq.
      * apply contents_Some. exists a. split; [done|].
        simpl. by rewrite !lookup_insert_ne.
Qed.

(** ** Sorting rearranges *)

Section RearrangeFacts.
Context {T : Type} `{JsHost T}.

Lemma fold_left_rearranges {B : Type} (f : list T → B → list T)
    (P : B → Prop) (items : list T) (js : list B) :
  Forall P js →
  (∀ l j, l ≡ₚ items → P j → f l j ≡ₚ items) →
  ∀ l, l ≡ₚ items → fold_left f js l ≡ₚ items.
Proof.
  intros HP Hf. induction HP as [|j js Hj _ IH]; intros l Hl; simpl; [done|].
  apply IH. by apply Hf.
Qed.

Lemma swap_rearranges (items l : list T) (i j : Z) :
  l ≡ₚ items →
  0 ≤ i < Z.of_nat (length items) → 0 ≤ j < Z.of_nat (length items) →
  swap l i j ≡ₚ items.
Proof.
  intros Hl Hi Hj. pose proof (Permutation_length Hl) as E.
  etrans; [|exact Hl]. apply swap_in_range; lia.
Qed.

Variable compare : T → T → T.

Lemma bubbleSort_rearranges (items : list T) :
  bubbleSort compare items ≡ₚ items.
Proof.
  unfold bubbleSort. set (n := Z.of_nat (length items)).
  apply (fold_left_rearranges _ (λ i, 0 ≤ i)); [| |done].
  { apply Forall_seqZ. lia. }
  intros l i Hl Hi.
  apply (fold_left_rearranges _ (λ j, 0 ≤ j < n - i - 1)); [| |done].
  { apply Forall_seqZ. lia. }
  intros l' j Hl' Hj. destruct (gtZero _); [|done].
  apply swap_rearranges; [done|lia|lia].
Qed.

Lemma select_min_bounds (items : list T) (js : list Z) (m : Z) :
  let r := fold_left
             (λ minIndex j,
                if ltZero (compare (arr_get items j) (arr_get items minIndex))
                then j else minIndex)
             js m in
  r = m ∨ r ∈ js.
Proof.
  revert m. induction js as [|j js IH]; intros m; simpl; [by left|].
  destruct (ltZero _).
  - destruct (IH j) as [->|Hr]; right; [left|by right].
  - destruct (IH m) as [->|Hr]; [by left|right; by right].
Qed.

Lemma selectionSort_rearranges (items : list T) :
  selectionSort compare items ≡ₚ items.
Proof.
  unfold selectionSort. set (n := Z.of_nat (length items)).
  apply (fold_left_rearranges _ (λ i, 0 ≤ i < n - 1)); [| |done].
  { apply Forall_seqZ. lia. }
  intros l i Hl Hi.
  pose proof (select_min_bounds l (seqZ (i + 1) (n - (i + 1))) i) as Hm.
  cbn zeta in Hm. cbn beta.
  set (minIndex := fold_left _ (seqZ (i + 1) (n - (i + 1))) i) in *.
  destruct (Z.eqb_spec minIndex i) as [|Hne]; [done|].
  destruct Hm as [Hm|Hm]; [done|]. apply elem_of_seqZ in Hm.
  apply swap_rearranges; [done|lia|lia].
Qed.

End RearrangeFacts.

(** ** Insertion sort *)

Section InsertionFacts.
Context {T : Type} `{JsHost T}.
Variable compare : T → T → T.

Lemma arr_get_middle (pre post : list T) (x : T) :
  arr_get (pre ++ x :: post) (Z.of_nat (length pre)) = x.
Proof. apply arr_get_lookup. by rewrite list_lookup_middle. Qed.

Lemma arr_set_middle (pre post : list T) (x v : T) :
  arr_set (pre ++ x :: post) (Z.of_nat (length pre)) v = pre ++ v :: post.
Proof.
  rewrite arr_set_in_range by (rewrite length_app; simpl; lia).
  rewrite Nat2Z.id.
  replace (length pre) with (length pre + 0)%nat at 1 by lia.
  by rewrite insert_app_r.
Qed.

(** The inner loop, entered with the key taken out of position [c]: it
    stops below the elements the comparator puts after the key, and writing
    the key there inserts it between the two parts of the prefix. *)
Lemma insertion_shift_spec (key : T) (c : nat) :
  ∀ (pre post : list T) (hole : T),
    length pre = c →
    ∃ pre1 pre2,
      pre = pre1 ++ pre2
      ∧ Forall (λ x, gtZero (compare x key) = true) pre2
      ∧ (∀ y, last pre1 = Some y → gtZero (compare y key) = false)
      ∧ arr_set (insertion_shift compare key c (pre ++ hole :: post)).1
          ((insertion_shift compare key c (pre ++ hole :: post)).2 + 1) key
        = pre1 ++ key :: pre2 ++ post.
Proof.
  induction c as [|c IH]; intros pre post hole Hlen.
  - destruct pre; [|done]. exists [], []. simpl.
    split; [done|]. split; [done|]. split; [done|].
    exact (arr_set_middle [] post hole key).
  - destruct pre as [|x pre _] using rev_ind; [done|].
    rewrite length_app in Hlen. simpl in Hlen.
    assert (Hc : length pre = c) by lia.
    clear Hlen. subst c.
    cbn [insertion_shift]. rewrite <- app_assoc. cbn [app]. cbn zeta.
    rewrite arr_get_middle.
    destruct (gtZero (compare x key)) eqn:E.
    + replace (Z.of_nat (length pre) + 1)
        with (Z.of_nat (length (pre ++ [x])))
        by (rewrite length_app; simpl; lia).
      replace (pre ++ x :: hole :: post) with ((pre ++ [x]) ++ hole :: post)
        by by rewrite <- app_assoc.
      rewrite arr_set_middle, <- app_assoc. cbn [app].
      destruct (IH pre (x :: post) x eq_refl) as (p1 & p2 & -> & Hp2 & Hlast & E').
      exists p1, (p2 ++ [x]). split; [by rewrite app_assoc|].
      split; [apply Forall_app; split; [done|by constructor]|].
      split; [done|]. rewrite E'. by rewrite <- (app_assoc p2).
    + exists (pre ++ [x]), []. split; [by rewrite app_nil_r|].
      split; [done|]. split.
      { intros y Hy. rewrite last_snoc in Hy. congruence. }
      cbn [fst snd].
      replace (Z.of_nat (length pre) + 1) with (Z.of_nat (length (pre ++ [x])))
        by (rewrite length_app; simpl; lia).
      replace (pre ++ x :: hole :: post) with ((pre ++ [x]) ++ hole :: post)
        by by rewrite <- app_assoc.
      by rewrite arr_set_middle.
Qed.

(** Inserting the key between the two parts keeps the prefix ordered, as
    long as the comparator never puts two elements after each other. *)
Lemma adjacentOrdered_insert (pre1 pre2 : list T) (key : T) :
  (∀ a b, gtZero (compare a b) = true → gtZero (compare b a) = false) →
  adjacentOrdered compare (pre1 ++ pre2) →
  Forall (λ x, gtZero (compare x key) = true) pre2 →
  (∀ y, last pre1 = Some y → gtZero (compare y key) = false) →
  adjacentOrdered compare (pre1 ++ key :: pre2).
Proof.
  intros Hasym Hord Hp2 Hlast k x y Hx Hy.
  destruct (lt_eq_lt_dec (S k) (length pre1)) as [[Hlt|Heq]|Hgt].
  - rewrite lookup_app_l in Hx by lia. rewrite lookup_app_l in Hy by lia.
    apply (Hord k x y); by rewrite lookup_app_l by lia.
  - rewrite lookup_app_l in Hx by lia.
    rewrite Heq, list_lookup_middle in Hy by done.
    injection Hy as <-. apply Hlast.
    rewrite last_lookup. by replace (pred (length pre1)) with k by lia.
  - destruct (decide (k = length pre1)) as [->|Hne].
    + rewrite list_lookup_middle in Hx by done. injection Hx as <-.
      rewrite lookup_app_r in Hy by lia.
      replace (S (length pre1) - length pre1)%nat with 1%nat in Hy by lia.
      simpl in Hy. apply Hasym.
      rewrite Forall_forall in Hp2. apply Hp2.
      by apply list_elem_of_lookup_2 in Hy.
    + rewrite lookup_app_r in Hx by lia. rewrite lookup_app_r in Hy by lia.
      destruct (k - length pre1)%nat as [|d] eqn:Ed; [lia|].
      replace (S k - length pre1)%nat with (S (S d)) in Hy by lia.
      simpl in Hx, Hy.
      apply (Hord (length pre1 + d)%nat x y).
      * rewrite lookup_app_r by lia.
        by replace (length pre1 + d - length pre1)%nat with d by lia.
      * rewrite lookup_app_r by lia.
        by replace (S (length pre1 + d) - length pre1)%nat with (S d) by lia.
Qed.

(** One iteration of the outer loop. *)
Lemma insertion_step_spec (l : list T) (i : nat) :
  (i < length l)%nat →
  let key := arr_get l (Z.of_nat i) in
  let r := insertion_shift compare key i l in
  ∃ pre1 pre2,
    take i l = pre1 ++ pre2
    ∧ Forall (λ x, gtZero (compare x key) = true) pre2
    ∧ (∀ y, last pre1 = Some y → gtZero (compare y key) = false)
    ∧ arr_set r.1 (r.2 + 1) key = pre1 ++ key :: pre2 ++ drop (S i) l.
Proof.
  intros Hi key r.
  destruct (lookup_lt_is_Some_2 l i Hi) as [x Hx].
  assert (Hkey : key = x) by (by apply arr_get_lookup).
  pose proof (take_drop_middle l i x Hx) as Hl.
  assert (Hlen : length (take i l) = i) by (rewrite length_take; lia).
  destruct (insertion_shift_spec key i (take i l) (drop (S i) l) x Hlen)
    as (pre1 & pre2 & E1 & Hp2 & Hlast & E2).
  rewrite Hl in E2. by exists pre1, pre2.
Qed.

Lemma insertionSort_loop (m : nat) :
  ∀ (s : nat) (l : list T),
    (1 ≤ s)%nat → (s + m ≤ length l)%nat →
    let r := fold_left
               (λ items i,
                  let key := arr_get items i in
                  let '(items', j) :=
                    insertion_shift compare key (Z.to_nat i) items in
                  arr_set items' (j + 1) key)
               (seqZ (Z.of_nat s) (Z.of_nat m)) l in
    r ≡ₚ l
    ∧ ((∀ a b, gtZero (compare a b) = true → gtZero (compare b a) = false) →
       adjacentOrdered compare (take s l) →
       adjacentOrdered compare (take (s + m) r)).
Proof.
  induction m as [|m IH]; intros s l Hs Hm.
  - simpl. split; [done|]. intros _ Hord. by rewrite Nat.add_0_r.
  - rewrite seqZ_cons by lia. cbn [fold_left].
    rewrite Nat2Z.id.
    destruct (insertion_step_spec l s ltac:(lia))
      as (pre1 & pre2 & E1 & Hp2 & Hlast & E2).
    cbn zeta in E2.
    destruct (insertion_shift compare (arr_get l (Z.of_nat s)) s l)
      as [items' j] eqn:Eshift.
    cbn [fst snd] in E2. rewrite E2.
    set (key := arr_get l (Z.of_nat s)) in *.
    set (l' := pre1 ++ key :: pre2 ++ drop (S s) l).
    assert (Hperm : l' ≡ₚ l).
    { assert (Hl : take s l ++ key :: drop (S s) l = l).
      { apply take_drop_middle. rewrite <- (Nat2Z.id s) at 1.
        apply arr_get_in_range. lia. }
      apply (Permutation_trans (l' := take s l ++ key :: drop (S s) l));
        [|by rewrite Hl].
      unfold l'. rewrite E1, <- app_assoc.
      apply Permutation_app_head. apply Permutation_middle. }
    pose proof (Permutation_length Hperm) as Hlen'.
    replace (Z.succ (Z.of_nat s)) with (Z.of_nat (S s)) by lia.
    replace (Z.pred (Z.of_nat (S m))) with (Z.of_nat m) by lia.
    destruct (IH (S s) l' ltac:(lia) ltac:(lia)) as [Hp Ho].
    split; [by etrans|]. intros Hasym Hord.
    replace (s + S m)%nat with (S s + m)%nat by lia.
    apply Ho; [done|].
    assert (Hpre : length (pre1 ++ pre2) = s)
      by (rewrite <- E1, length_take; lia).
    unfold l'.
    replace (pre1 ++ key :: pre2 ++ drop (S s) l)
      with ((pre1 ++ key :: pre2) ++ drop (S s) l)
      by (rewrite <- app_assoc; done).
    rewrite take_app_length'.
    2:{ rewrite length_app in *. simpl. lia. }
    apply adjacentOrdered_insert; [done| |done|done].
    by rewrite <- E1.
Qed.

Lemma insertionSort_rearranges (items : list T) :
  insertionSort compare items ≡ₚ items.
Proof.
  unfold insertionSort. destruct items as [|x items]; [done|].
  pose proof (insertionSort_loop (length items) 1 (x :: items)
                ltac:(lia) ltac:(simpl; lia)) as [Hp _].
  replace (Z.of_nat (length (x :: items)) - 1) with (Z.of_nat (length items))
    by (simpl; lia).
  exact Hp.
Qed.

Lemma insertionSort_ordered (items : list T) :
  (∀ a b, gtZero (compare a b) = true → gtZero (compare b a) = false) →
  adjacentOrdered compare (insertionSort compare items).
Proof.
  intros Hasym. unfold insertionSort. destruct items as [|x items].
  { intros k a b Ha. done. }
  pose proof (insertionSort_loop (length items) 1 (x :: items)
                ltac:(lia) ltac:(simpl; lia)) as Hloop.
  replace (Z.of_nat (length (x :: items)) - 1) with (Z.of_nat (length items))
    by (simpl; lia).
  cbn zeta in Hloop. change (Z.of_nat 1) with 1 in Hloop. cbn zeta.
  set (r := fold_left _ _ _) in *. destruct Hloop as [Hp Ho].
  apply Permutation_length in Hp.
  rewrite (take_ge r) in Ho by (rewrite Hp; simpl; lia).
  apply Ho; [done|]. intros k a b Ha Hb. simpl in Hb.
  by rewrite take_0 in Hb.
Qed.

End InsertionFacts.

(** ** Quick, merge and heap sort *)

Section RecursiveSortFacts.
Context {T : Type} `{JsHost T}.
Variable compare : T → T → T.

Lemma slice_from (l : list T) (i : Z) :
  0 ≤ i ≤ Z.of_nat (length l) → slice l (Some i) None = drop (Z.to_nat i) l.
Proof.
  intros Hi. unfold slice, relIndex. simpl.
  destruct (Z.ltb_spec i 0); [lia|].
  destruct (Z.ltb_spec (Z.of_nat (length l)) 0); [lia|].
  rewrite !Z.min_l by lia.
  apply take_ge. rewrite length_drop. lia.
Qed.

Lemma slice_upto (l : list T) (e : Z) :
  0 ≤ e ≤ Z.of_nat (length l) → slice l (Some 0) (Some e) = take (Z.to_nat e) l.
Proof.
  intros He. unfold slice, relIndex. simpl.
  destruct (Z.ltb_spec e 0); [lia|].
  rewrite !Z.min_l by lia. by rewrite Z.sub_0_r, drop_0.
Qed.

(** *** quick *)

Lemma partition_loop_rearranges (pivot : T) (items : list T) (m : nat) :
  ∀ (s i : Z) (l : list T),
    l ≡ₚ items → 0 ≤ i + 1 → i < s →
    s + Z.of_nat m ≤ Z.of_nat (length items) →
    (fold_left
       (λ '(items, i) j,
          if leZero (compare (arr_get items j) pivot)
          then (swap items (i + 1) j, i + 1)
          else (items, i))
       (seqZ s (Z.of_nat m)) (l, i)).1 ≡ₚ items.
Proof.
  induction m as [|m IH]; intros s i l Hl Hi His Hm; [done|].
  rewrite seqZ_cons by lia. cbn [fold_left].
  replace (Z.pred (Z.of_nat (S m))) with (Z.of_nat m) by lia.
  destruct (leZero _).
  - apply IH; [|lia|lia|lia]. apply swap_rearranges; [done|lia|lia].
  - apply IH; [done|lia|lia|lia].
Qed.

Lemma sortPartition_rearranges (low high : Z) (items l : list T) :
  l ≡ₚ items → 0 ≤ low ≤ high → high < Z.of_nat (length items) →
  (sortPartition compare low high l).1 ≡ₚ items.
Proof.
  intros Hl Hlow Hhigh.
  pose proof (partition_loop_rearranges (arr_get l high) items
                (Z.to_nat (high - low)) low (low - 1) l Hl
                ltac:(lia) ltac:(lia) ltac:(lia)) as Hp.
  pose proof (partition_loop_bounds compare (arr_get l high)
                (seqZ low (high - low)) l (low - 1)) as Hb.
  rewrite Z2Nat.id in Hp by lia.
  unfold sortPartition. cbn zeta in Hb. rewrite length_seqZ in Hb.
  destruct (fold_left _ _ _) as [items' i]. simpl in *.
  apply swap_rearranges; [done|lia|lia].
Qed.

Lemma quickSort_rearranges (items : list T) (fuel : nat) :
  ∀ (low high : Z) (l : list T),
    l ≡ₚ items → 0 ≤ low → high < Z.of_nat (length items) →
    (Z.to_nat (high - low) ≤ fuel)%nat →
    ∃ r, quickSort compare fuel low high l = Ok r ∧ r ≡ₚ items.
Proof.
  induction fuel as [|fuel IH]; intros low high l Hl Hlow Hhigh Hf.
  - exists l. simpl. destruct (Z.ltb_spec low high); [lia|done].
  - simpl. destruct (Z.ltb_spec low high) as [Hlt|]; [|by exists l].
    pose proof (sortPartition_bounds compare low high l ltac:(lia)) as Hp.
    pose proof (sortPartition_rearranges low high items l Hl
                  ltac:(lia) Hhigh) as Hr.
    destruct (sortPartition compare low high l) as [items1 p].
    simpl in Hp, Hr.
    destruct (IH low (p - 1) items1 Hr) as (items2 & E2 & H2);
      [lia|lia|lia|].
    rewrite E2. simpl. apply IH; [done|lia|lia|lia].
Qed.

(** *** merge *)

Lemma merge_loop_rearranges (left right : list T) (fuel : nat) :
  ∀ (leftIndex rightIndex : nat) (result : list T),
    (leftIndex ≤ length left)%nat → (rightIndex ≤ length right)%nat →
    (length left - leftIndex + (length right - rightIndex) ≤ fuel)%nat →
    ∃ r, merge_loop compare fuel left right (Z.of_nat leftIndex)
           (Z.of_nat rightIndex) result = Ok r
         ∧ r ≡ₚ result ++ drop leftIndex left ++ drop rightIndex right.
Proof.
  assert (Hdone : ∀ (li ri : nat) (result : list T),
            (li ≤ length left)%nat → (ri ≤ length right)%nat →
            result ++ slice left (Some (Z.of_nat li)) None
              ++ slice right (Some (Z.of_nat ri)) None
            = result ++ drop li left ++ drop ri right).
  { intros li ri result Hli Hri.
    rewrite !slice_from by lia. by rewrite !Nat2Z.id. }
  induction fuel as [|fuel IH]; intros li ri result Hli Hri Hf.
  - simpl.
    destruct (Z.ltb_spec (Z.of_nat li) (Z.of_nat (length left)));
      destruct (Z.ltb_spec (Z.of_nat ri) (Z.of_nat (length right)));
      simpl; try lia; eexists; (split; [done|]); by rewrite Hdone.
  - simpl.
    destruct (Z.ltb_spec (Z.of_nat li) (Z.of_nat (length left))) as [Hl|];
      [destruct (Z.ltb_spec (Z.of_nat ri) (Z.of_nat (length right)))
         as [Hr|]|];
      simpl; try (eexists; (split; [done|]); by rewrite Hdone).
    destruct (lookup_lt_is_Some_2 left li ltac:(lia)) as [x Hx].
    destruct (lookup_lt_is_Some_2 right ri ltac:(lia)) as [y Hy].
    rewrite (arr_get_lookup left li x Hx), (arr_get_lookup right ri y Hy).
    rewrite (drop_S left x li Hx), (drop_S right y ri Hy).
    destruct (leZero (compare x y)).
    + replace (Z.of_nat li + 1) with (Z.of_nat (S li)) by lia.
      destruct (IH (S li) ri (result ++ [x])) as (r & E & Hp); [lia|lia|lia|].
      exists r. split; [done|]. rewrite Hp, (drop_S right y ri Hy).
      by rewrite <- app_assoc.
    + replace (Z.of_nat ri + 1) with (Z.of_nat (S ri)) by lia.
      destruct (IH li (S ri) (result ++ [y])) as (r & E & Hp); [lia|lia|lia|].
      exists r. split; [done|]. rewrite Hp, (drop_S left x li Hx).
      rewrite <- app_assoc. apply Permutation_app_head. cbn [app].
      exact (Permutation_middle (x :: drop (S li) left) (drop (S ri) right) y).
Qed.

Lemma mergeSort_rearranges (fuel : nat) :
  ∀ arr : list T,
    (length arr ≤ fuel)%nat →
    ∃ r, mergeSort compare fuel arr = Ok r ∧ r ≡ₚ arr.
Proof.
  assert (Hshort : ∀ (fuel : nat) (arr : list T),
            (length arr ≤ 1)%nat → mergeSort compare fuel arr = Ok arr).
  { intros f arr Hlen. destruct f; simpl;
      by destruct (Nat.leb_spec (length arr) 1); [|lia]. }
  induction fuel as [|fuel IH]; intros arr Hf.
  - exists arr. split; [apply Hshort; lia|done].
  - destruct (Nat.leb_spec (length arr) 1) as [Hle|Hgt].
    { exists arr. split; [by apply Hshort|done]. }
    cbn [mergeSort]. destruct (Nat.leb_spec (length arr) 1); [lia|].
    set (mid := Z.of_nat (length arr) / 2).
    assert (Hmid : 1 ≤ mid < Z.of_nat (length arr)).
    { unfold mid. split.
      - apply Z.div_le_lower_bound; lia.
      - apply Z.div_lt_upper_bound; lia. }
    rewrite slice_upto, slice_from by lia.
    destruct (IH (take (Z.to_nat mid) arr)) as (l & El & Hl).
    { rewrite length_take. lia. }
    destruct (IH (drop (Z.to_nat mid) arr)) as (r & Er & Hr).
    { rewrite length_drop. lia. }
    rewrite El. simpl. rewrite Er. simpl. unfold merge_.
    destruct (merge_loop_rearranges l r (length l + length r) 0 0 []
                ltac:(lia) ltac:(lia) ltac:(lia)) as (m & Em & Hm).
    exists m. split; [exact Em|].
    rewrite Hm. simpl. rewrite !drop_0, Hl, Hr. by rewrite take_drop.
Qed.

(** *** heap *)

Lemma heapify_unfold (fuel : nat) (n i : Z) (items : list T) :
  heapify compare fuel n i items
  = let left := 2 * i + 1 in
    let right := 2 * i + 2 in
    let largest :=
      if (left <? n) && gtZero (compare (arr_get items left) (arr_get items i))
      then left else i in
    let largest :=
      if (right <? n)
         && gtZero (compare (arr_get items right) (arr_get items largest))
      then right else largest in
    if largest =? i then Ok items
    else
      match fuel with
      | O => OutOfFuel
      | S fuel' => heapify compare fuel' n largest (swap items i largest)
      end.
Proof. by destruct fuel. Qed.

Lemma heapify_rearranges (items : list T) (fuel : nat) :
  ∀ (n i : Z) (l : list T),
    l ≡ₚ items → 0 ≤ i < Z.of_nat (length items) →
    n ≤ Z.of_nat (length items) → (Z.to_nat (n - i) ≤ fuel)%nat →
    ∃ r, heapify compare fuel n i l = Ok r ∧ r ≡ₚ items.
Proof.
  induction fuel as [|fuel IH]; intros n i l Hl Hi Hn Hf;
    rewrite heapify_unfold; cbn zeta.
  - set (largest1 := if _ && _ then 2 * i + 1 else i).
    set (largest := if _ && _ then 2 * i + 2 else largest1).
    assert (largest = i) as ->.
    { unfold largest, largest1.
      destruct (Z.ltb_spec (2 * i + 1) n); [lia|].
      destruct (Z.ltb_spec (2 * i + 2) n); [lia|]. done. }
    rewrite Z.eqb_refl. by exists l.
  - set (largest1 := if _ && _ then 2 * i + 1 else i).
    set (largest := if _ && _ then 2 * i + 2 else largest1).
    assert (Hlargest : largest = i ∨ (i < largest < n)).
    { unfold largest, largest1.
      destruct (Z.ltb_spec (2 * i + 1) n);
        destruct (Z.ltb_spec (2 * i + 2) n); simpl;
        repeat destruct (gtZero _); lia. }
    destruct (Z.eqb_spec largest i) as [|Hne]; [by exists l|].
    destruct Hlargest as [|Hlargest]; [done|].
    apply IH; [|lia|lia|lia]. apply swap_rearranges; [done|lia|lia].
Qed.

Lemma forM_rearranges (body : list T → Z → Outcome (list T))
    (P : Z → Prop) (items : list T) (js : list Z) :
  Forall P js →
  (∀ l j, l ≡ₚ items → P j → ∃ r, body l j = Ok r ∧ r ≡ₚ items) →
  ∀ l, l ≡ₚ items → ∃ r, forM body js l = Ok r ∧ r ≡ₚ items.
Proof.
  intros HP Hbody. induction HP as [|j js Hj _ IH]; intros l Hl; simpl.
  - by exists l.
  - destruct (Hbody l j Hl Hj) as (r & E & Hr). rewrite E. simpl.
    by apply IH.
Qed.

Lemma heapSort_rearranges (fuel : nat) (items : list T) :
  (length items ≤ fuel)%nat →
  ∃ r, heapSort compare fuel items = Ok r ∧ r ≡ₚ items.
Proof.
  intros Hf. unfold heapSort. set (n := Z.of_nat (length items)).
  destruct (forM_rearranges (λ items i, heapify compare fuel n i items)
              (λ i, 0 ≤ i < n / 2) items (List.rev (seqZ 0 (n / 2))))
    with (l := items) as (items1 & E1 & H1); [| |done|].
  { apply List.Forall_rev, Forall_seqZ. lia. }
  { intros l j Hl Hj.
    assert (n / 2 ≤ n) by (apply Z.div_le_upper_bound; lia).
    apply heapify_rearranges; [done|lia|lia|lia]. }
  rewrite E1. simpl.
  apply (forM_rearranges _ (λ i, 1 ≤ i < n)); [| |done].
  { apply List.Forall_rev, Forall_seqZ. lia. }
  intros l j Hl Hj.
  apply heapify_rearranges; [|lia|lia|lia].
  apply swap_rearranges; [done|lia|lia].
Qed.

End RecursiveSortFacts.

(** ** [sort], method by method *)

Section SortMethodFacts.
Context {T : Type} `{JsHost T}.

(** Every algorithm that works on [this.items] in place rearranges it,
    whatever the comparator answers. *)
Lemma in_place_algorithm_rearranges (compare : T → T → T)
    (method : SortMethod) (fuel : nat) (items : list T) :
  method ≠ merge → method ≠ radix → (length items ≤ fuel)%nat →
  ∃ sorted,
    match method with
    | quick => quickSort compare fuel 0 (Z.of_nat (length items) - 1) items
    | bubble => Ok (bubbleSort compare items)
    | insertion => Ok (insertionSort compare items)
    | selection => Ok (selectionSort compare items)
    | _ => heapSort compare fuel items
    end = Ok sorted
    ∧ sorted ≡ₚ items.
Proof.
  intros Hm Hr Hf. destruct method; try done.
  - apply quickSort_rearranges; [done|lia|lia|lia].
  - eexists. split; [done|]. apply bubbleSort_rearranges.
  - eexists. split; [done|]. apply insertionSort_rearranges.
  - eexists. split; [done|]. apply selectionSort_rearranges.
  - by apply heapSort_rearranges.
Qed.

Lemma default_compare_positive `{!OrderLaws T} (x y : T) :
  gtZero (getDefaultCompare asc x y) = true
  ↔ jsLt y x = true ∧ jsLt x y = false.
Proof.
  unfold getDefaultCompare, gtZero.
  destruct (isNumber x && isNumber y) eqn:E.
  - apply andb_true_iff in E as [Ex Ey]. rewrite jsSub_positive by done.
    split; [|tauto]. intros E. split; [done|]. by apply jsLt_asym.
  - destruct (jsLt x y) eqn:Exy.
    { rewrite zero_lt_minus_one. split; [done|]. by intros [_ ?]. }
    destruct (jsLt y x) eqn:Eyx.
    { rewrite zero_lt_one. done. }
    split; [|by intros [? _]]. intros E0.
    pose proof (jsLt_asym _ _ E0). congruence.
Qed.

Lemma default_compare_asym `{!OrderLaws T} (a b : T) :
  gtZero (getDefaultCompare asc a b) = true →
  gtZero (getDefaultCompare asc b a) = false.
Proof.
  intros E. apply default_compare_positive in E as [E1 E2].
  destruct (gtZero (getDefaultCompare asc b a)) eqn:E'; [|done].
  apply default_compare_positive in E' as [E3 E4]. congruence.
Qed.

(** A list the default ascending comparison orders pairwise passes the
    test of [isSorted]. *)
Lemma adjacentOrdered_isSorted `{!OrderLaws T} (l : list T) :
  adjacentOrdered (getDefaultCompare asc) l → Utilities.isSorted l = true.
Proof.
  intros Hord. unfold Utilities.isSorted. apply forallb_forall.
  intros i Hi. apply list_elem_of_In, elem_of_seqZ in Hi.
  pose proof (arr_get_in_range l i ltac:(lia)) as Ey.
  pose proof (arr_get_in_range l (i - 1) ltac:(lia)) as Ex.
  replace (Z.to_nat i) with (S (Z.to_nat (i - 1))) in Ey by lia.
  pose proof (Hord _ _ _ Ex Ey) as E.
  destruct (jsLt (arr_get l i) (arr_get l (i - 1))) eqn:Elt; [|done].
  assert (gtZero (getDefaultCompare asc (arr_get l (i - 1)) (arr_get l i))
          = true); [|congruence].
  apply default_compare_positive. split; [done|]. by apply jsLt_asym.
Qed.

End SortMethodFacts.

(** X16.  With the methods 'quick', 'bubble', 'insertion', 'selection' and
    'heap', and fuel for the length of the list, [sort] returns the receiver
    for every comparator, however inconsistent: the array the list holds is
    overwritten in place with a rearrangement of its elements, and nothing
    else in the store changes. *)
Theorem sort_in_place_rearranges {T : Type} `{JsHost T}
    (h : Heap T) (this a : loc) (items : list T)
    (directionOrCompare : DirectionOrCompare T) (method : SortMethod)
    (fuel : nat) :
  lists h !! this = Some a → arrays h !! a = Some items →
  method ≠ merge → method ≠ radix →
  (length items ≤ fuel)%nat →
  ∃ sorted : list T,
    sort fuel this directionOrCompare (Some method) h
    = Ok (this, {| arrays := <[a := sorted]> (arrays h); lists := lists h;
                   console := console h |})
    ∧ sorted ≡ₚ items.
Proof.
  intros Hl Ha Hm Hr Hf. unfold sort.
  destruct (match directionOrCompare with
            | NoDirection => _ | Direction d => _ | CompareFn f => _
            end) as [compare direction].
  destruct (in_place_algorithm_rearranges compare method fuel items Hm Hr Hf)
    as (sorted & E & Hp).
  exists sorted. split; [|done]. unfold heap_bind at 1.
  destruct method; try done;
    by erewrite sortInPlace_runs; [|done|done|exact E].
Qed.

(** X17.  [sort(..., 'merge')] also returns the receiver with a
    rearrangement of its elements, for every comparator; but for a list of
    two or more elements it assigns a new array to the list and leaves the
    array the list held before exactly as it was. *)
Theorem sort_merge_builds_new_array {T : Type} `{JsHost T}
    (h : Heap T) (this a : loc) (items : list T)
    (directionOrCompare : DirectionOrCompare T) (fuel : nat) :
  lists h !! this = Some a → arrays h !! a = Some items →
  (length items ≤ fuel)%nat →
  ∃ (sorted : list T) (h' : Heap T),
    sort fuel this directionOrCompare (Some merge) h = Ok (this, h')
    ∧ contents h' this = Some sorted
    ∧ sorted ≡ₚ items
    ∧ arrays h' !! a = Some items
    ∧ ((2 ≤ length items)%nat → lists h' !! this ≠ Some a).
Proof.
  intros Hl Ha Hf. unfold sort.
  destruct (match directionOrCompare with
            | NoDirection => _ | Direction d => _ | CompareFn f => _
            end) as [compare direction].
  destruct (mergeSort_rearranges compare fuel items Hf) as (sorted & E & Hp).
  unfold heap_bind at 1. unfold heap_bind at 1. unfold loadItems at 1.
  rewrite Hl. unfold heap_bind at 1. unfold readArray at 1. rewrite Ha.
  unfold heap_bind at 1. unfold liftOutcome. rewrite E.
  destruct (Nat.leb_spec (length items) 1) as [Hshort|Hlong].
  - unfold storeItems. rewrite Hl. eexists sorted, _. split; [done|].
    assert (sorted = items) as ->.
    { destruct fuel; simpl in E;
        destruct (Nat.leb_spec (length items) 1); (lia || congruence). }
    split; [|split; [done|split; [done|lia]]].
    apply contents_Some. exists a. simpl. by rewrite lookup_insert_eq.
  - unfold heap_bind at 1. unfold newArray. unfold storeItems. simpl.
    rewrite Hl. eexists sorted, _. split; [done|].
    assert (Hfresh : fresh (dom (arrays h)) ≠ a).
    { intros Efresh. pose proof (fresh_array_unused (arrays h)) as F.
      rewrite Efresh in F. congruence. }
    split; [|split; [done|split]].
    + apply contents_Some. eexists. simpl.
      split; by rewrite lookup_insert_eq.
    + simpl. by rewrite lookup_insert_ne.
    + intros _. simpl. rewrite lookup_insert_eq. congruence.
Qed.

(** X18.  After [sort()] or [sort('asc')] with the method 'insertion' the
    list holds a rearrangement of its elements that [isSorted] accepts,
    whatever the elements are. *)
Theorem sort_insertion_then_isSorted {T : Type} `{JsHost T} `{!OrderLaws T}
    (h : Heap T) (this : loc) (items : list T)
    (directionOrCompare : DirectionOrCompare T) (fuel : nat) :
  contents h this = Some items →
  directionOrCompare = NoDirection ∨ directionOrCompare = Direction asc →
  ∃ (sorted : list T) (h' : Heap T),
    sort fuel this directionOrCompare (Some insertion) h = Ok (this, h')
    ∧ contents h' this = Some sorted
    ∧ sorted ≡ₚ items
    ∧ Utilities.isSorted sorted = true.
Proof.
  intros Hc Hd. apply contents_Some in Hc as (a & Hl & Ha).
  exists (insertionSort (getDefaultCompare asc) items). eexists.
  split; [|split; [|split]].
  - unfold sort. destruct Hd as [-> | ->]; unfold heap_bind at 1;
      by erewrite sortInPlace_runs.
  - apply contents_Some. exists a. simpl. by rewrite lookup_insert_eq.
  - apply insertionSort_rearranges.
  - apply adjacentOrdered_isSorted, insertionSort_ordered.
    apply default_compare_asym.
Qed.

(** ** Shuffle and radix sort *)

Section ShuffleFacts.
Context {T : Type} `{JsHost T}.

Lemma shuffled_rearranges (draws : Z → Z) (items : list T) :
  (∀ i, 0 < i < Z.of_nat (length items) → 0 ≤ draws i ≤ i) →
  ListMethods.shuffled draws items ≡ₚ items.
Proof.
  intros Hdraws. unfold ListMethods.shuffled.
  apply (fold_left_rearranges _ (λ i, 0 < i < Z.of_nat (length items)));
    [| |done].
  { apply List.Forall_rev, Forall_seqZ. lia. }
  intros l i Hl Hi. pose proof (Hdraws i Hi).
  apply swap_rearranges; [done|lia|lia].
Qed.

End ShuffleFacts.

Section RadixFacts.
Context {T : Type} `{JsHost T} `{!RadixLaws T}.

Lemma isRadixSortable_Forall (items : list T) :
  isRadixSortable items = true
  ↔ Forall (λ x, isRadixSortableItem x = true) items.
Proof.
  unfold isRadixSortable. rewrite forallb_forall, Forall_forall.
  split; intros Hall x Hx; apply Hall; by apply list_elem_of_In.
Qed.

Lemma concat_rev_rearranges (bs : list (list T)) :
  concat (List.rev bs) ≡ₚ concat bs.
Proof.
  induction bs as [|b bs IH]; [done|]. simpl.
  rewrite concat_app. simpl. rewrite app_nil_r, IH.
  apply Permutation_app_comm.
Qed.

(** Filing the items into the ten buckets loses none and adds none. *)
Lemma bucket_loop_rearranges (digit : Z) :
  0 ≤ digit →
  ∀ (items : list T) (buckets : list (list T)),
    Forall (λ x, isRadixSortableItem x = true) items →
    length buckets = 10%nat →
    ∃ bs, forM (λ buckets item, bucketPush buckets item digit) items buckets
          = Ok bs
          ∧ length bs = 10%nat
          ∧ concat bs ≡ₚ concat buckets ++ items.
Proof.
  intros Hd items. induction items as [|x items IH]; intros buckets Hs Hlen.
  - exists buckets. simpl. by rewrite app_nil_r.
  - apply Forall_cons in Hs as [Hx Hs]. cbn [forM].
    destruct (radix_digit_index x digit Hx Hd) as (d & Ed & Hlt).
    destruct (lookup_lt_is_Some_2 buckets d ltac:(lia)) as [b Hb].
    assert (Epush : bucketPush buckets x digit = Ok (<[d := b ++ [x]]> buckets))
      by (unfold bucketPush; by rewrite Ed, Hb).
    rewrite Epush. cbn [mbind outcome_mbind outcome_bind].
    destruct (IH (<[d := b ++ [x]]> buckets) Hs) as (bs & E & Hl & Hp).
    { by rewrite length_insert. }
    exists bs. split; [done|]. split; [done|]. rewrite Hp.
    rewrite insert_take_drop by lia.
    rewrite <- (take_drop_middle buckets d b Hb) at 3.
    rewrite !concat_app. simpl. rewrite <- !app_assoc.
    do 2 apply Permutation_app_head.
    exact (Permutation_middle (concat (drop (S d) buckets)) items x).
Qed.

Lemma radixPass_rearranges (direction : SortDirection) (digit : Z)
    (items : list T) :
  isRadixSortable items = true → 0 ≤ digit →
  ∃ r, radixPass direction digit items = Ok r ∧ r ≡ₚ items.
Proof.
  intros Hs Hd. apply isRadixSortable_Forall in Hs.
  destruct (bucket_loop_rearranges digit Hd items (replicate 10 []) Hs
              eq_refl) as (bs & E & _ & Hp).
  unfold radixPass. rewrite E. simpl in *. eexists. split; [done|].
  destruct direction; [done|]. by rewrite concat_rev_rearranges.
Qed.

Lemma radix_loop_rearranges (this : loc) (direction : SortDirection)
    (maxDigits : T) (items : list T) (n : nat) :
  isRadixSortable items = true →
  ∀ (fuel : nat) (digit : Z) (h : Heap T) (l : list T),
    0 ≤ digit →
    jsLt (numLit (digit + Z.of_nat n)) maxDigits = false →
    (n ≤ fuel)%nat →
    contents h this = Some l → l ≡ₚ items →
    ∃ h' l', radix_loop fuel this direction maxDigits digit h = Ok (tt, h')
             ∧ contents h' this = Some l'
             ∧ l' ≡ₚ items
             ∧ console h' = console h.
Proof.
  intros Hs.
  induction n as [|n IH]; intros fuel digit h l Hd Hstop Hf Hc Hl.
  - rewrite Z.add_0_r in Hstop. exists h, l.
    destruct fuel; simpl; by rewrite Hstop.
  - destruct (jsLt (numLit digit) maxDigits) eqn:Hgo.
    + destruct fuel as [|fuel]; [lia|]. simpl. rewrite Hgo.
      pose proof Hc as Hc'. apply contents_Some in Hc' as (a & Hla & Ha).
      unfold heap_bind at 1. unfold loadItems at 1. rewrite Hla.
      unfold heap_bind at 1. unfold readArray at 1. rewrite Ha.
      unfold heap_bind at 1. unfold liftOutcome.
      assert (Hsl : isRadixSortable l = true).
      { apply isRadixSortable_Forall. rewrite Hl.
        by apply isRadixSortable_Forall. }
      destruct (radixPass_rearranges direction digit l Hsl Hd)
        as (l1 & -> & Hl1).
      unfold heap_bind at 1. unfold newArray.
      unfold heap_bind at 1. unfold storeItems; simpl. rewrite Hla.
      set (h1 := {| arrays := <[fresh (dom (arrays h)) := l1]> (arrays h);
                    lists := <[this := fresh (dom (arrays h))]> (lists h);
                    console := console h |}).
      destruct (IH fuel (digit + 1) h1 l1) as (h' & l' & E & Hc2 & Hp & Hcon);
        [lia| |lia| |by etrans|].
      * by replace (digit + 1 + Z.of_nat n) with (digit + Z.of_nat (S n))
          by lia.
      * apply contents_Some. eexists. simpl.
        split; by rewrite lookup_insert_eq.
      * exists h', l'. by rewrite E, Hcon.
    + exists h, l. destruct fuel; simpl; by rewrite Hgo.
Qed.

End RadixFacts.

(** X19.  On a list of non-negative integers, [sort(..., 'radix')] with
    enough fuel returns the receiver holding a rearrangement of its
    elements, and logs nothing. *)
Theorem sort_radix_rearranges {T : Type} `{JsHost T} `{!RadixLaws T}
    (h : Heap T) (this : loc) (items : list T)
    (directionOrCompare : DirectionOrCompare T) :
  contents h this = Some items →
  isRadixSortable items = true →
  ∃ fuel0 : nat, ∀ fuel : nat, (fuel0 ≤ fuel)%nat →
    ∃ (sorted : list T) (h' : Heap T),
      sort fuel this directionOrCompare (Some radix) h = Ok (this, h')
      ∧ contents h' this = Some sorted
      ∧ sorted ≡ₚ items
      ∧ console h' = console h.
Proof.
  intros Hc Hs. destruct (radix_digits_finite items Hs) as (n & Hn).
  exists n. intros fuel Hf. unfold sort.
  destruct (match directionOrCompare with
            | NoDirection => _ | Direction d => _ | CompareFn f => _
            end) as [compare direction].
  destruct (radix_loop_rearranges this direction (maxDigitsOf items) items n
              Hs fuel 0 h items ltac:(lia) Hn Hf Hc ltac:(done))
    as (h' & sorted & E & Hc' & Hp & Hcon).
  apply contents_Some in Hc as (a & Hl & Ha).
  exists sorted, h'. split; [|done].
  unfold heap_bind at 1. unfold heap_bind at 1. unfold loadItems at 1.
  rewrite Hl. unfold heap_bind at 1. unfold readArray at 1. rewrite Ha, Hs.
  unfold radixSort, heap_bind at 1, loadItems. rewrite Hl.
  unfold heap_bind at 1, readArray. rewrite Ha, Hs. simpl. by rewrite E.
Qed.

(** X20.  [shuffle()] returns the receiver with its array rearranged in
    place, whatever [Math.random] answers: no element is lost or
    duplicated; a list of at most one element stays as it is. *)
Theorem shuffle_rearranges {T : Type} `{JsHost T}
    (h : Heap T) (this a : loc) (items : list T) (draws : Z → Z) :
  lists h !! this = Some a → arrays h !! a = Some items →
  (∀ i, 0 < i < Z.of_nat (length items) → 0 ≤ draws i ≤ i) →
  ∃ shuffled : list T,
    ListMethods.shuffle draws this h
    = Ok (this, {| arrays := <[a := shuffled]> (arrays h); lists := lists h;
                   console := console h |})
    ∧ shuffled ≡ₚ items
    ∧ ((length items ≤ 1)%nat → shuffled = items).
Proof.
  intros Hl Ha Hdraws. exists (ListMethods.shuffled draws items).
  pose proof (shuffled_rearranges draws items Hdraws) as Hp.
  split; [|split; [done|]].
  - unfold ListMethods.shuffle, heap_bind at 1.
    by erewrite sortInPlace_runs.
  - intros Hshort. by apply short_list_permutation.
Qed.

(** ** Groups and windows *)

Section GroupFacts.
Context {T : Type} `{JsHost T}.

Lemma fold_left_snoc_fmap {A B : Type} (f : A → B) (l : list A)
    (init : list B) :
  fold_left (λ result i, result ++ [f i]) l init = init ++ (f <$> l).
Proof.
  revert init. induction l as [|x l IH]; intros init; simpl.
  - by rewrite app_nil_r.
  - rewrite IH, <- app_assoc. done.
Qed.

(** [items.slice(i, i + w)] inside the array. *)
Lemma slice_window (items : list T) (i w : Z) :
  0 ≤ i ≤ Z.of_nat (length items) → 0 ≤ w →
  slice items (Some i) (Some (i + w))
  = take (Z.to_nat w) (drop (Z.to_nat i) items).
Proof.
  intros Hi Hw. unfold slice, relIndex. simpl.
  destruct (Z.ltb_spec i 0); [lia|].
  destruct (Z.ltb_spec (i + w) 0); [lia|].
  rewrite (Z.min_l i) by lia.
  destruct (Z.le_gt_cases (i + w) (Z.of_nat (length items))).
  - rewrite Z.min_l by lia. f_equal. lia.
  - rewrite Z.min_r by lia.
    rewrite !take_ge; [done|rewrite length_drop; lia|rewrite length_drop; lia].
Qed.

(** What the loop of [chunk] adds from index [i] on. *)
Lemma chunk_loop_spec (items : list T) (size : Z) (fuel : nat) :
  1 ≤ size →
  ∀ (i : Z) (chunks : list (list T)),
    0 ≤ i → (Z.to_nat (Z.of_nat (length items) - i) ≤ fuel)%nat →
    ∃ new,
      chunk_loop fuel items size i chunks = Some (chunks ++ new)
      ∧ concat new = drop (Z.to_nat i) items
      ∧ Forall (λ c, 1 ≤ Z.of_nat (length c) ≤ size) new
      ∧ (∀ (k : nat) c, new !! k = Some c → (S k < length new)%nat →
                        Z.of_nat (length c) = size)
      ∧ (Z.of_nat (length items) ≤ i → new = []).
Proof.
  intros Hs. set (len := Z.of_nat (length items)).
  induction fuel as [|fuel IH]; intros i chunks Hi Hf.
  - exists []. simpl. fold len. destruct (Z.ltb_spec i len); [lia|].
    rewrite app_nil_r, drop_ge by lia. done.
  - simpl. fold len. destruct (Z.ltb_spec i len) as [Hlt|Hge].
    2:{ exists []. rewrite app_nil_r, drop_ge by lia. done. }
    destruct (IH (i + size)
                (chunks ++ [slice items (Some i) (Some (i + size))]))
      as (new & E & Hcat & Hall & Hfull & Hend); [lia|lia|].
    rewrite slice_window in * by lia.
    set (c0 := take (Z.to_nat size) (drop (Z.to_nat i) items)) in *.
    assert (Hc0 : Z.of_nat (length c0) = Z.min size (len - i)).
    { unfold c0. rewrite length_take, length_drop. lia. }
    exists (c0 :: new). split; [by rewrite E, <- app_assoc|].
    split; [|split; [|split; [|lia]]].
    + simpl. rewrite Hcat. unfold c0.
      replace (Z.to_nat (i + size)) with (Z.to_nat i + Z.to_nat size)%nat
        by lia.
      rewrite <- drop_drop. apply take_drop.
    + constructor; [lia|done].
    + intros [|k] c Hc Hk; simpl in *.
      * injection Hc as <-.
        destruct (Z.le_gt_cases len (i + size)) as [Hlast|]; [|lia].
        rewrite (Hend Hlast) in Hk. simpl in Hk. lia.
      * apply (Hfull k c Hc). lia.
Qed.

(** The loop of [divideInto] when a fill value that is not [undefined] was
    given. *)
Lemma divideInto_loop_filled (items : list T) (n : Z) (fill : T)
    (fuel : nat) :
  1 ≤ n → strictEquals fill undefined = false →
  ∀ (i : Z) (result : list (list T)),
    0 ≤ i → (Z.to_nat (Z.of_nat (length items) - i) ≤ fuel)%nat →
    ∃ new (k : nat),
      Utilities.divideInto_loop fuel items n fill i result
      = Some (result ++ new)
      ∧ Forall (λ g, Z.of_nat (length g) = n) new
      ∧ Z.of_nat k < n
      ∧ concat new = drop (Z.to_nat i) items ++ replicate k fill.
Proof.
  intros Hn Hfill. set (len := Z.of_nat (length items)).
  induction fuel as [|fuel IH]; intros i result Hi Hf.
  - exists [], 0%nat. simpl. fold len. destruct (Z.ltb_spec i len); [lia|].
    rewrite app_nil_r, drop_ge by lia. split; [done|].
    split; [done|]. split; [lia|done].
  - simpl. fold len. destruct (Z.ltb_spec i len) as [Hlt|Hge].
    2:{ exists [], 0%nat. rewrite app_nil_r, drop_ge by lia.
        split; [done|]. split; [done|]. split; [lia|done]. }
    rewrite Hfill. cbn [negb andb].
    rewrite slice_window by lia.
    set (c0 := take (Z.to_nat n) (drop (Z.to_nat i) items)).
    assert (Hc0 : Z.of_nat (length c0) = Z.min n (len - i)).
    { unfold c0. rewrite length_take, length_drop. lia. }
    destruct (Z.ltb_spec (Z.of_nat (length c0)) n) as [Hshort|Hfull].
    + (* the last group, padded *)
      set (g := c0 ++ replicate _ fill).
      assert (E : Utilities.divideInto_loop fuel items n fill (i + n)
                    (result ++ [g]) = Some (result ++ [g])).
      { destruct fuel; simpl; fold len;
          by destruct (Z.ltb_spec (i + n) len); [lia|]. }
      exists [g], (Z.to_nat (n - Z.of_nat (length c0))).
      split; [by rewrite E|]. split; [|split; [lia|]].
      * constructor; [|done]. unfold g.
        rewrite length_app, length_replicate. lia.
      * simpl. rewrite app_nil_r. unfold g. f_equal. unfold c0.
        apply take_ge. rewrite length_drop. lia.
    + destruct (IH (i + n) (result ++ [c0])) as (new & k & E & Hall & Hk & Hcat);
        [lia|lia|].
      exists (c0 :: new), k. split; [by rewrite E, <- app_assoc|].
      split; [constructor; [lia|done]|]. split; [done|].
      simpl. rewrite Hcat, app_assoc. f_equal. unfold c0.
      replace (Z.to_nat (i + n)) with (Z.to_nat i + Z.to_nat n)%nat by lia.
      rewrite <- drop_drop. apply take_drop.
Qed.

(** Without a fill value the loop of [divideInto] is the loop of [chunk]. *)
Lemma divideInto_loop_unfilled (items : list T) (n : Z) (fill : T) :
  strictEquals fill undefined = true →
  ∀ (fuel : nat) (i : Z) (result : list (list T)),
    Utilities.divideInto_loop fuel items n fill i result
    = chunk_loop fuel items n i result.
Proof.
  intros Hfill. induction fuel as [|fuel IH]; intros i result; [done|].
  simpl. rewrite Hfill. cbn [negb andb]. by rewrite IH.
Qed.

End GroupFacts.

(** X21.  For [size >= 1] and fuel for the length of the list, [chunk]
    cuts the list into consecutive groups: put back together they give the
    list, every group has between one and [size] elements, and every group
    but the last has exactly [size]. *)
Theorem chunk_cuts_consecutive_groups {T : Type} `{JsHost T}
    (items : list T) (size : Z) (fuel : nat) :
  1 ≤ size → (length items ≤ fuel)%nat →
  ∃ chunks : list (list T),
    chunk fuel items size = Some chunks
    ∧ concat chunks = items
    ∧ Forall (λ c, 1 ≤ Z.of_nat (length c) ≤ size) chunks
    ∧ ∀ (k : nat) (c : list T),
        chunks !! k = Some c → (S k < length chunks)%nat →
        Z.of_nat (length c) = size.
Proof.
  intros Hs Hf.
  destruct (chunk_loop_spec items size fuel Hs 0 [] ltac:(lia) ltac:(lia))
    as (new & E & Hcat & Hall & Hfull & _).
  exists new. split; [exact E|]. split; [by rewrite Hcat|]. done.
Qed.

(** X22.  With a fill value other than [undefined], [n >= 1] and fuel for
    the length of the list, every group [divideInto] builds has exactly [n]
    elements, and together they are the list followed by fewer than [n]
    copies of the fill value.  With [undefined] as fill value, which is also
    what omitting it gives, [divideInto] is [chunk]. *)
Theorem divideInto_pads_last_group {T : Type} `{JsHost T}
    (items : list T) (n : Z) (fill : T) (fuel : nat) :
  (1 ≤ n → strictEquals fill undefined = false → (length items ≤ fuel)%nat →
   ∃ (groups : list (list T)) (k : nat),
     Utilities.divideInto fuel items n fill = Some groups
     ∧ Forall (λ g, Z.of_nat (length g) = n) groups
     ∧ Z.of_nat k < n
     ∧ concat groups = items ++ replicate k fill)
  ∧ (strictEquals fill undefined = true →
     Utilities.divideInto fuel items n fill = chunk fuel items n).
Proof.
  split.
  - intros Hn Hfill Hf.
    destruct (divideInto_loop_filled items n fill fuel Hn Hfill 0 []
                ltac:(lia) ltac:(lia)) as (new & k & E & Hall & Hk & Hcat).
    by exists new, k.
  - intros Hfill. by apply divideInto_loop_unfilled.
Qed.

(** ** Windows, pairs and splits *)

Section PairFacts.
Context {T : Type} `{JsHost T}.

Lemma arr_get_cons_succ (x : T) (l : list T) (i : Z) :
  0 ≤ i → arr_get (x :: l) (Z.succ i) = arr_get l i.
Proof.
  intros Hi. unfold arr_get.
  destruct (Z.ltb_spec (Z.succ i) 0); [lia|].
  destruct (Z.ltb_spec i 0); [lia|].
  by replace (Z.to_nat (Z.succ i)) with (S (Z.to_nat i)) by lia.
Qed.

Lemma seqZ_succ (n : nat) :
  seqZ 0 (Z.of_nat (S n)) = 0 :: (Z.succ <$> seqZ 0 (Z.of_nat n)).
Proof.
  rewrite seqZ_cons by lia. f_equal.
  replace (Z.pred (Z.of_nat (S n))) with (Z.of_nat n) by lia.
  change (Z.succ 0) with (1 + 0). rewrite <- fmap_add_seqZ.
  apply list_fmap_ext. intros; lia.
Qed.

(** The loop of [interleave], as the groups it pushes per index. *)
Lemma interleave_groups (items other : list T) :
  Utilities.interleave items other
  = concat
      ((λ i, (if i <? Z.of_nat (length items) then [arr_get items i] else [])
             ++ (if i <? Z.of_nat (length other) then [arr_get other i]
                 else []))
         <$> seqZ 0 (Z.max (Z.of_nat (length items))
                       (Z.of_nat (length other)))).
Proof.
  unfold Utilities.interleave. cbn zeta.
  set (js := seqZ 0 _). clearbody js.
  set (group := λ i : Z,
         (if i <? Z.of_nat (length items) then [arr_get items i] else [])
         ++ (if i <? Z.of_nat (length other) then [arr_get other i] else [])).
  assert (G : ∀ acc,
            fold_left
              (λ result i,
                 let result :=
                   if i <? Z.of_nat (length items)
                   then result ++ [arr_get items i] else result in
                 if i <? Z.of_nat (length other)
                 then result ++ [arr_get other i] else result)
              js acc
            = acc ++ concat (group <$> js)).
  { induction js as [|j js IH]; intros acc; simpl.
    - by rewrite app_nil_r.
    - rewrite IH. unfold group at 2.
      destruct (j <? Z.of_nat (length items)),
        (j <? Z.of_nat (length other)); simpl;
        by rewrite <- ?app_assoc. }
  apply (G []).
Qed.

End PairFacts.

(** X23.  [slidingApply(w, fn)] is [fn] applied to each window of
    [slidingWindow(w)], for every [w].  For [0 <= w <= length] the windows
    are the [length - w + 1] runs of [w] consecutive elements, in order; for
    [w > length] there is none. *)
Theorem slidingWindow_runs {T : Type} `{JsHost T} {U : Type}
    (items : list T) (windowSize : Z) (fn : list T → U) :
  Utilities.slidingApply items windowSize fn
  = fn <$> Utilities.slidingWindow items windowSize
  ∧ (0 ≤ windowSize ≤ Z.of_nat (length items) →
     Utilities.slidingWindow items windowSize
     = (λ i : nat, take (Z.to_nat windowSize) (drop i items))
         <$> seq 0 (length items - Z.to_nat windowSize + 1))
  ∧ (Z.of_nat (length items) < windowSize →
     Utilities.slidingWindow items windowSize = []).
Proof.
  unfold Utilities.slidingApply, Utilities.slidingWindow. cbn zeta.
  set (len := Z.of_nat (length items)).
  split; [|split].
  - rewrite !fold_left_snoc_fmap. simpl.
    destruct (Z.ltb_spec len windowSize).
    + rewrite seqZ_nil by lia. done.
    + by rewrite <- list_fmap_compose.
  - intros Hw. destruct (Z.ltb_spec len windowSize); [lia|].
    rewrite fold_left_snoc_fmap. simpl.
    unfold seqZ. rewrite <- list_fmap_compose.
    replace (Z.to_nat (len - windowSize + 1))
      with (length items - Z.to_nat windowSize + 1)%nat by lia.
    apply list_fmap_ext. intros k i Hi. simpl.
    apply lookup_seq in Hi as [-> Hi].
    rewrite slice_window by lia. f_equal. f_equal. lia.
  - intros Hw. by destruct (Z.ltb_spec len windowSize); [|lia].
Qed.

(** X24.  [zip] pairs the elements position by position and stops at the
    end of the shorter list. *)
Theorem zip_pairs_positions {T : Type} `{JsHost T} (items other : list T) :
  Utilities.zip items other = zip items other
  ∧ length (Utilities.zip items other)
    = Nat.min (length items) (length other).
Proof.
  assert (E : Utilities.zip items other = zip items other).
  { unfold Utilities.zip. cbn zeta. rewrite fold_left_snoc_fmap. simpl.
    revert other. induction items as [|x items IH]; intros other.
    { by rewrite Z.min_l by (simpl; lia). }
    destruct other as [|y other].
    { by rewrite Z.min_r by (simpl; lia). }
    replace (Z.min (Z.of_nat (length (x :: items)))
               (Z.of_nat (length (y :: other))))
      with (Z.of_nat (S (Nat.min (length items) (length other))))
      by (simpl; lia).
    rewrite seqZ_succ. simpl. f_equal.
    rewrite <- (IH other), <- list_fmap_compose.
    replace (Z.min (Z.of_nat (length items)) (Z.of_nat (length other)))
      with (Z.of_nat (Nat.min (length items) (length other))) by lia.
    apply list_fmap_ext. intros k i Hi. simpl.
    apply lookup_seqZ in Hi as [-> Hi].
    by rewrite !arr_get_cons_succ by lia. }
  split; [done|]. rewrite E. apply length_zip_with.
Qed.

(** X25.  [interleave] alternates the elements of the two lists, starting
    with the receiver's, and once one list is used up it appends what is
    left of the other. *)
Theorem interleave_alternates {T : Type} `{JsHost T} :
  (∀ (x y : T) (items other : list T),
     Utilities.interleave (x :: items) (y :: other)
     = x :: y :: Utilities.interleave items other)
  ∧ (∀ other : list T, Utilities.interleave [] other = other)
  ∧ (∀ items : list T, Utilities.interleave items [] = items).
Proof.
  assert (Hone : ∀ l : list T,
            concat ((λ i, [arr_get l i]) <$> seqZ 0 (Z.of_nat (length l)))
            = l).
  { intros l. etrans; [|apply (arr_get_seqZ l)].
    generalize (seqZ 0 (Z.of_nat (length l))). intros js.
    induction js as [|j js IH]; [done|].
    rewrite !fmap_cons. cbn [concat app]. f_equal. exact IH. }
  split; [|split].
  - intros x y items other. rewrite !interleave_groups.
    replace (Z.max (Z.of_nat (length (x :: items)))
               (Z.of_nat (length (y :: other))))
      with (Z.of_nat (S (Nat.max (length items) (length other))))
      by (simpl; lia).
    rewrite seqZ_succ. simpl. do 2 f_equal.
    rewrite <- list_fmap_compose.
    replace (Z.max (Z.of_nat (length items)) (Z.of_nat (length other)))
      with (Z.of_nat (Nat.max (length items) (length other))) by lia.
    f_equal. apply list_fmap_ext. intros k i Hi. simpl.
    apply lookup_seqZ in Hi as [-> Hi].
    rewrite !arr_get_cons_succ by lia.
    assert (Hlt : ∀ (a : Z) (n : nat),
              (Z.succ a <? Z.of_nat (S n)) = (a <? Z.of_nat n)).
    { intros a n. destruct (Z.ltb_spec a (Z.of_nat n));
        [apply Z.ltb_lt|apply Z.ltb_ge]; lia. }
    by rewrite !Hlt.
  - intros other. rewrite interleave_groups. simpl.
    rewrite Z.max_r by lia. etrans; [|apply (Hone other)].
    f_equal. apply list_fmap_ext. intros k i Hi. simpl.
    apply lookup_seqZ in Hi as [-> Hi].
    repeat match goal with
           | |- context [?a <? ?b] => destruct (Z.ltb_spec a b)
           end; simpl in *; try lia; by rewrite ?app_nil_r.
  - intros items. rewrite interleave_groups. simpl.
    rewrite Z.max_l by lia. etrans; [|apply (Hone items)].
    f_equal. apply list_fmap_ext. intros k i Hi. simpl.
    apply lookup_seqZ in Hi as [-> Hi].
    repeat match goal with
           | |- context [?a <? ?b] => destruct (Z.ltb_spec a b)
           end; simpl in *; try lia; by rewrite ?app_nil_r.
Qed.

(** X26.  [partition] answers the elements that satisfy the predicate and
    the elements that do not, each group in its original order. *)
Theorem partition_splits_in_order {T : Type} `{JsHost T}
    (predicate : T → bool) (items : list T) :
  Utilities.partition predicate items
  = (List.filter predicate items,
     List.filter (λ x, negb (predicate x)) items).
Proof.
  unfold Utilities.partition.
  assert (G : ∀ l trueList falseList,
            fold_left
              (λ '(trueList, falseList) item,
                 if predicate item then (trueList ++ [item], falseList)
                 else (trueList, falseList ++ [item]))
              l (trueList, falseList)
            = (trueList ++ List.filter predicate l,
               falseList ++ List.filter (λ x, negb (predicate x)) l)).
  { induction l as [|x l IH]; intros t f; simpl.
    - by rewrite !app_nil_r.
    - destruct (predicate x); simpl; rewrite IH, <- app_assoc; done. }
  apply (G items [] []).
Qed.

(** ** All orderings *)

Section PermutationsFacts.
Context {T : Type} `{JsHost T}.

(** [[...items.slice(0, i), ...items.slice(i + 1)]] *)
Lemma rest_without (items : list T) (i : nat) :
  (i < length items)%nat →
  slice items (Some 0) (Some (Z.of_nat i))
    ++ slice items (Some (Z.of_nat i + 1)) None
  = take i items ++ drop (S i) items.
Proof.
  intros Hi. rewrite slice_upto, slice_from by lia.
  f_equal; f_equal; lia.
Qed.

Lemma permutations_spec (fuel : nat) :
  ∀ items : list T,
    (length items ≤ fuel)%nat →
    ∃ ps, Utilities.permutations fuel items = Some ps
          ∧ length ps = fact (length items)
          ∧ ∀ p, p ∈ ps ↔ p ≡ₚ items.
Proof.
  assert (Hnil : ∀ fuel, ∃ ps : list (list T),
            Utilities.permutations fuel [] = Some ps
            ∧ length ps = fact (length (@nil T))
            ∧ ∀ p, p ∈ ps ↔ p ≡ₚ []).
  { intros f. exists [[]]. split; [by destruct f|]. split; [done|].
    intros p. rewrite list_elem_of_singleton. split; [by intros ->|].
    apply Permutation_nil_r. }
  induction fuel as [|fuel IH]; intros items Hf.
  { destruct items; [apply Hnil|simpl in Hf; lia]. }
  destruct items as [|x0 items']; [apply Hnil|].
  set (items := x0 :: items') in *. set (n := length items).
  assert (Hn : n = S (length items')) by done.
  cbn [Utilities.permutations]. fold items. fold n.
  replace (n =? 0)%nat with false by (symmetry; apply Nat.eqb_neq; lia).
  set (body := λ (i : Z) (acc : option (list (list T))), _).
  assert (G : ∀ js : list nat,
            Forall (λ i, (i < n)%nat) js →
            ∃ res, foldr body (Some []) (Z.of_nat <$> js) = Some res
                   ∧ length res = (length js * fact (length items'))%nat
                   ∧ ∀ p, p ∈ res
                          ↔ ∃ i x q, i ∈ js ∧ items !! i = Some x
                                     ∧ p = x :: q
                                     ∧ q ≡ₚ take i items ++ drop (S i) items).
  { induction js as [|i js IHjs]; intros Hjs.
    - exists []. split; [done|]. split; [done|]. intros p. split.
      + intros Hp. by apply elem_of_nil in Hp.
      + intros (i & x & q & Hi & _). by apply elem_of_nil in Hi.
    - apply Forall_cons in Hjs as [Hi Hjs].
      destruct (IHjs Hjs) as (later & Elater & Hlen & Hmem).
      destruct (lookup_lt_is_Some_2 items i Hi) as [x Hx].
      destruct (IH (take i items ++ drop (S i) items))
        as (perms & Eperms & Hplen & Hpmem).
      { rewrite length_app, length_take, length_drop. fold n. lia. }
      exists (((λ perm, x :: perm) <$> perms) ++ later).
      split; [|split].
      + rewrite fmap_cons. cbn [foldr]. rewrite Elater. unfold body at 1.
        rewrite rest_without by done. rewrite Eperms. simpl.
        by rewrite (arr_get_lookup items i x Hx).
      + rewrite length_app, length_fmap, Hplen, Hlen.
        rewrite length_app, length_take, length_drop. fold n.
        replace (i `min` n + (n - S i))%nat with (length items') by lia.
        simpl. done.
      + intros p. rewrite elem_of_app, list_elem_of_fmap, Hmem. split.
        * intros [(q & -> & Hq)|(j & y & q & Hj & Hy & -> & Hq)].
          -- exists i, x, q. split; [left|]. split; [done|]. split; [done|].
             by apply Hpmem.
          -- exists j, y, q. split; [by right|done].
        * intros (j & y & q & Hj & Hy & -> & Hq).
          apply elem_of_cons in Hj as [->|Hj].
          -- left. exists q. rewrite Hx in Hy. injection Hy as <-.
             split; [done|]. by apply Hpmem.
          -- right. by exists j, y, q. }
  destruct (G (seq 0 n)) as (res & E & Hlen & Hmem).
  { apply Forall_forall. intros i Hi. apply elem_of_seq in Hi. lia. }
  exists res. split; [|split].
  - rewrite <- E. f_equal. unfold seqZ. rewrite Nat2Z.id.
    apply list_fmap_ext. intros; lia.
  - rewrite Hlen, length_seq, Hn. done.
  - intros p. rewrite Hmem. split.
    + intros (i & x & q & _ & Hx & -> & Hq). rewrite Hq.
      rewrite <- (take_drop_middle items i x Hx) at 3.
      apply Permutation_middle.
    + intros Hp. destruct p as [|x q].
      { apply Permutation_nil_l in Hp. done. }
      assert (Hx : x ∈ items) by (rewrite <- Hp; left).
      apply list_elem_of_lookup in Hx as [i Hi].
      exists i, x, q. split; [|split; [done|split; [done|]]].
      { apply elem_of_seq. apply lookup_lt_Some in Hi. fold n in Hi. lia. }
      apply (Permutation_cons_inv (a := x)). rewrite Hp.
      rewrite <- (take_drop_middle items i x Hi) at 1.
      symmetry. apply Permutation_middle.
Qed.

End PermutationsFacts.

(** X27.  With fuel for the length of the list, [permutations()] returns
    exactly the orderings of the list: a sequence is in the result if and
    only if it is a rearrangement of the list, and the result has
    [length!] entries (so equal elements give repeated entries). *)
Theorem permutations_are_the_orderings {T : Type} `{JsHost T}
    (items : list T) (fuel : nat) :
  (length items ≤ fuel)%nat →
  ∃ ps : list (list T),
    Utilities.permutations fuel items = Some ps
    ∧ length ps = fact (length items)
    ∧ ∀ p : list T, p ∈ ps ↔ p ≡ₚ items.
Proof. apply permutations_spec. Qed.

(** ** Keys, caches and running sums *)

Section KeyedFacts.
Context {T : Type} `{JsHost T} `{!KeyLaws T}.

Lemma filter_none {A : Type} (f : A → bool) (l : list A) :
  existsb f l = false → List.filter f l = [].
Proof.
  induction l as [|x l IH]; [done|]. simpl.
  destruct (f x); [done|]. exact IH.
Qed.

Lemma filter_snoc {A : Type} (f : A → bool) (l : list A) (x : A) :
  List.filter f (l ++ [x])
  = List.filter f l ++ (if f x then [x] else []).
Proof. by rewrite List.filter_app. Qed.

Lemma existsb_snoc {A : Type} (f : A → bool) (l : list A) (x : A) :
  existsb f (l ++ [x]) = existsb f l || f x.
Proof. rewrite existsb_app. simpl. by rewrite orb_false_r. Qed.

(** After [groupBy] has gone through [processed], every key that occurred
    maps to the elements with that key, in order, and no other key is
    present. *)
Lemma groupBy_step_invariant (keyFn : T → T) (groups : JsMap T (list T))
    (processed : list T) (item : T) :
  (∀ k, map_get groups k
        = if existsb (λ x, sameValueZero (keyFn x) k) processed
          then Some (List.filter (λ x, sameValueZero (keyFn x) k) processed)
          else None) →
  ∀ k, map_get (Utilities.groupBy_step keyFn groups item) k
       = if existsb (λ x, sameValueZero (keyFn x) k) (processed ++ [item])
         then Some (List.filter (λ x, sameValueZero (keyFn x) k)
                      (processed ++ [item]))
         else None.
Proof.
  intros Hinv k. unfold Utilities.groupBy_step. cbn zeta.
  set (key := keyFn item).
  set (groups' := match map_get groups key with
                  | Some _ => groups
                  | None => map_set groups key []
                  end).
  assert (Hsame : ∀ k', sameValueZero key k' = false →
            map_get groups' k' = map_get groups k').
  { intros k' Ek'. unfold groups'. destruct (map_get groups key); [done|].
    by rewrite map_get_map_set, Ek'. }
  assert (Hkey : default [] (map_get groups' key)
                 = List.filter (λ x, sameValueZero (keyFn x) key) processed).
  { unfold groups'. pose proof (Hinv key) as Hk.
    destruct (map_get groups key) as [v|] eqn:E.
    - rewrite E. simpl.
      destruct (existsb _ processed); [congruence|done].
    - rewrite map_get_map_set, sameValueZero_refl. simpl.
      destruct (existsb _ processed) eqn:Ex; [done|].
      by rewrite filter_none. }
  rewrite map_get_map_set, Hkey, filter_snoc, existsb_snoc.
  fold key. destruct (sameValueZero key k) eqn:Ek.
  - rewrite orb_true_r. f_equal. f_equal.
    apply List.filter_ext. intros y.
    apply (sameValueZero_congr_r _ _ (keyFn y) Ek).
  - rewrite orb_false_r, app_nil_r, (Hsame k Ek). apply Hinv.
Qed.

End KeyedFacts.

(** X28.  In the map [groupBy] answers, a key is present exactly when the
    key function gives it (up to SameValueZero) for some element, and it
    maps to all the elements with that key, in their original order. *)
Theorem groupBy_collects_by_key {T : Type} `{JsHost T} `{!KeyLaws T}
    (keyFn : T → T) (items : list T) (k : T) :
  map_get (Utilities.groupBy keyFn items) k
  = if existsb (λ x, sameValueZero (keyFn x) k) items
    then Some (List.filter (λ x, sameValueZero (keyFn x) k) items)
    else None.
Proof.
  unfold Utilities.groupBy.
  assert (G : ∀ rest processed groups,
            (∀ k, map_get groups k
                  = if existsb (λ x, sameValueZero (keyFn x) k) processed
                    then Some (List.filter
                                 (λ x, sameValueZero (keyFn x) k) processed)
                    else None) →
            ∀ k, map_get (fold_left (Utilities.groupBy_step keyFn) rest groups)
                   k
                 = if existsb (λ x, sameValueZero (keyFn x) k)
                        (processed ++ rest)
                   then Some (List.filter (λ x, sameValueZero (keyFn x) k)
                                (processed ++ rest))
                   else None).
  { induction rest as [|x rest IH]; intros processed groups Hinv k'.
    - rewrite app_nil_r. apply Hinv.
    - simpl. replace (processed ++ x :: rest) with ((processed ++ [x]) ++ rest)
        by by rewrite <- app_assoc.
      apply IH. by apply groupBy_step_invariant. }
  apply (G items [] []). done.
Qed.

(** X29.  The function [memoize(fn)] answers runs [fn] at most once per
    key: after a call with [item], a call with any key equal to [item]
    (SameValueZero) answers the same result without running [fn] and
    without changing the cache. *)
Theorem memoize_runs_once_per_key {T : Type} `{JsHost T} `{!KeyLaws T}
    {U W : Type} (fn : T → W → U * W) (item item' : T)
    (cache : JsMap T U) (w : W) :
  sameValueZero item item' = true →
  let first := Utilities.memoized fn item (cache, w) in
  Utilities.memoized fn item' first.2 = (first.1, first.2).
Proof.
  intros E. cbn zeta.
  assert (Ehit : ∀ u, map_get cache item = Some u →
            map_get cache item' = Some u).
  { intros u <-. induction cache as [|[k v] cache IH]; [done|].
    simpl. rewrite (sameValueZero_congr_r _ _ k E).
    destruct (sameValueZero k item'); [done|apply IH]. }
  unfold Utilities.memoized.
  destruct (map_get cache item) as [u|] eqn:Eget.
  - simpl. by rewrite (Ehit u eq_refl).
  - destruct (fn item w) as [u w'] eqn:Efn. simpl.
    by rewrite map_get_map_set, E.
Qed.

Section SumFacts.
Context {T : Type} `{JsHost T}.

Lemma cumulativeSum_loop (items : list T) :
  ∀ (acc : T) (out : list T),
    let step := λ acc val, jsAdd acc (if isNumber val then val else numLit 0) in
    fold_left
      (λ '(sum, out) item,
         let sum' := jsAdd sum (if isNumber item then item else numLit 0) in
         (sum', out ++ [sum']))
      items (acc, out)
    = (fold_left step items acc,
       out ++ ((λ k : nat, fold_left step (take (S k) items) acc)
                 <$> seq 0 (length items))).
Proof.
  induction items as [|x items IH]; intros acc out step; simpl.
  - by rewrite app_nil_r.
  - rewrite IH. f_equal. rewrite <- app_assoc. f_equal. simpl. f_equal.
    rewrite <- fmap_S_seq, <- list_fmap_compose. done.
Qed.

End SumFacts.

(** X30.  [cumulativeSum] has one entry per element, and entry [k] is the
    [sum] of the first [k + 1] elements; so its last entry is the [sum] of
    the list. *)
Theorem cumulativeSum_running_sum {T : Type} `{JsHost T} (items : list T) :
  length (Utilities.cumulativeSum items) = length items
  ∧ (∀ k : nat, (k < length items)%nat →
       Utilities.cumulativeSum items !! k
       = Some (Utilities.sum (take (S k) items)))
  ∧ (items ≠ [] →
     last (Utilities.cumulativeSum items) = Some (Utilities.sum items)).
Proof.
  unfold Utilities.cumulativeSum. rewrite cumulativeSum_loop. simpl.
  fold (Utilities.sum).
  assert (Hk : ∀ k : nat, (k < length items)%nat →
            ((λ k : nat, Utilities.sum (take (S k) items))
               <$> seq 0 (length items)) !! k
            = Some (Utilities.sum (take (S k) items))).
  { intros k Hk. rewrite list_lookup_fmap, lookup_seq_lt by done. done. }
  split; [by rewrite length_fmap, length_seq|]. split; [exact Hk|].
  intros Hne. rewrite last_lookup, length_fmap, length_seq.
  destruct items as [|x items]; [done|].
  rewrite Hk by (simpl; lia). do 2 f_equal.
  apply take_ge. simpl. lia.
Qed.

(** ** The reference host orders its values as ECMAScript does *)

Section ReferenceOrderFacts.
Import RationalHost.

Lemma rational_lt_asym (a b : value) : lt a b = true → lt b a = false.
Proof.
  destruct a as [|s| |[]|p], b as [|t| |[]|q]; try done; simpl.
  - unfold String.ltb. rewrite (String.compare_antisym t s).
    by destruct (String.compare s t).
  - intros Hlt. apply Qlt_bool_iff in Hlt.
    destruct (Qlt_bool q p) eqn:E; [|done].
    apply Qlt_bool_iff in E. lra.
Qed.

Lemma rational_sub_positive (a b : value) :
  is_number a = true → is_number b = true →
  lt (num 0) (sub a b) = lt b a.
Proof.
  destruct a as [|s| |[]|p], b as [|t| |[]|q]; try done; intros _ _.
  unfold sub, add, negate, lt, num.
  apply eq_true_iff_eq. rewrite !Qlt_bool_iff, !Qred_correct.
  change (inject_Z 0) with 0%Q. split; intros; lra.
Qed.

#[global] Instance rational_order_laws : OrderLaws value.
Proof.
  split.
  - exact rational_lt_asym.
  - exact rational_sub_positive.
  - reflexivity.
  - reflexivity.
Qed.

End ReferenceOrderFacts.

(** ** The further properties on concrete lists *)

Section FurtherInstances.
Import RationalHost.

(** X1 on [[10, 20, 30]] with a callback that records the indices. *)
Lemma each_quiet_calls_schedule_witness :
  let items := num <$> [10; 20; 30] in
  each (λ _, items) 3 (logging (λ _, noSignal)) noOptions [] = Some [0; 1; 2].
Proof.
  intros items.
  exact (proj1 (each_quiet_calls_schedule (λ _ : list Z, items)
                  (logging (λ _, noSignal)) noOptions 3 [] eq_refl
                  ltac:(vm_compute; lia) (λ _ _, eq_refl))).
Defined.

(** X2 on [[10, 20, 30]] with a callback that calls [breakFn] at index
    [1]. *)
Lemma each_break_stops_traversal_witness :
  let items := num <$> [10; 20; 30] in
  let callback := logging (λ i, if i =? 1 then breakSignal else noSignal) in
  each (λ _, items) 3 callback noOptions [] = Some [0; 1].
Proof.
  intros items callback.
  assert (Hquiet : ∀ (j : Z) (w : list Z), j ∈ [0] →
            (invoke (λ _, items) callback false 1 3 j w).2 = noSignal).
  { intros j w Hj. apply list_elem_of_singleton in Hj as ->. reflexivity. }
  exact (each_break_stops_traversal (λ _ : list Z, items) callback noOptions
           3 [] [0] [2] 1 eq_refl ltac:(vm_compute; lia) eq_refl Hquiet
           eq_refl).
Defined.

(** X3 on [[1, 2, 3]], in reverse. *)
Lemma map_collects_in_traversal_order_witness :
  let items := num <$> [1; 2; 3] in
  Traverse.map (λ _ : unit, items) 3
    (Traverse.pure (λ v _ _, strictEquals v (num 3)))
    {| reverse := Some true; step := None |} tt
  = Some ([true; false; false], tt).
Proof.
  intros items.
  exact (proj2 (map_collects_in_traversal_order items
                  {| reverse := Some true; step := None |} 3
                  (λ v _ _, strictEquals v (num 3))
                  (λ v, strictEquals v (num 3)) tt eq_refl
                  ltac:(vm_compute; lia)) eq_refl).
Defined.

(** X4 on [[1, 2, 3]]: the elements greater than [1]. *)
Lemma filter_keeps_matches_in_traversal_order_witness :
  let items := num <$> [1; 2; 3] in
  Traverse.filter (λ _ : unit, items) 3
    (Traverse.pure (λ v _ _, jsLt (num 1) v)) noOptions tt
  = Some (num <$> [2; 3], tt).
Proof.
  intros items.
  exact (proj2 (filter_keeps_matches_in_traversal_order items noOptions 3
                  (λ v _ _, jsLt (num 1) v) (λ v, jsLt (num 1) v) tt eq_refl
                  ltac:(vm_compute; lia)) eq_refl).
Defined.

(** X5 on [[10, 20, 30]]: the first element at an index of at least [1]. *)
Lemma find_answers_first_match_witness :
  let items := num <$> [10; 20; 30] in
  Traverse.find (λ _ : unit, items) 3 (Traverse.pure (λ _ i _, 1 <=? i))
    noOptions tt
  = Some (num 20, tt)
  ∧ Traverse.findIndex (λ _ : unit, items) 3
      (Traverse.pure (λ _ i _, 1 <=? i)) noOptions tt
    = Some (1, tt).
Proof.
  intros items.
  destruct (find_answers_first_match items noOptions 3 (λ _ i _, 1 <=? i) tt
              eq_refl ltac:(vm_compute; lia)) as (Efind & Eindex & _).
  split; [exact Efind|exact Eindex].
Defined.

(** X6 on [[1, 2, 3]]: not every element is a [3], some element is. *)
Lemma every_some_over_visits_witness :
  let items := num <$> [1; 2; 3] in
  Traverse.every (λ _ : unit, items) 3
    (Traverse.pure (λ v _ _, strictEquals v (num 3))) noOptions tt
  = Some (false, tt)
  ∧ Traverse.some (λ _ : unit, items) 3
      (Traverse.pure (λ v _ _, strictEquals v (num 3))) noOptions tt
    = Some (true, tt).
Proof.
  intros items.
  destruct (every_some_over_visits items noOptions 3
              (λ v _ _, strictEquals v (num 3)) tt eq_refl
              ltac:(vm_compute; lia)) as (Eevery & Esome & _).
  split; [exact Eevery|exact Esome].
Defined.

(** X7 on [[1, 2, 3]]: collecting the elements, in reverse. *)
Lemma reduce_folds_in_traversal_order_witness :
  let items := num <$> [1; 2; 3] in
  Traverse.reduce (λ _ : unit, items) 3
    (λ acc, Traverse.pure (λ v _ _, acc ++ [v])) []
    {| reverse := Some true; step := None |} tt
  = Some (num <$> [3; 2; 1], tt).
Proof.
  intros items.
  exact (proj2 (reduce_folds_in_traversal_order items
                  {| reverse := Some true; step := None |} 3
                  (λ acc v _ _, acc ++ [v]) (λ acc v, acc ++ [v]) [] tt
                  eq_refl ltac:(vm_compute; lia)) eq_refl).
Defined.

(** X8 on [[1, 2, 1]], searching [1] from index [1]. *)
Lemma indexOfWithEach_is_indexOf_witness :
  let items := num <$> [1; 2; 1] in
  indexOfWithEach 3 items (num 1) (Some 1)
  = Some (indexOf items (num 1) (Some 1)).
Proof.
  intros items.
  exact (indexOfWithEach_is_indexOf 3 items (num 1) (Some 1)
           ltac:(simpl; lia) ltac:(simpl; lia)).
Defined.

(** X9 on [[1, 2, 1]], searching [1]. *)
Lemma lastIndexOfWithEach_answers_first_occurrence_witness :
  let items := num <$> [1; 2; 1] in
  lastIndexOfWithEach 3 items (num 1) None = Some (indexOf items (num 1) None).
Proof.
  intros items.
  exact (proj2 (lastIndexOfWithEach_answers_first_occurrence 3 items (num 1)
                  None ltac:(simpl; lia))).
Defined.

(** X10 on [[1, 2, 3]]. *)
Lemma reverseWithEach_reverses_witness :
  let items := num <$> [1; 2; 3] in
  ∃ h1, ListMethods.reverseWithEach 3 0%nat (singleList items)
        = Ok (0%nat, h1)
        ∧ contents h1 0%nat = Some (List.rev items).
Proof.
  intros items.
  destruct (reverseWithEach_reverses (singleList items) 0%nat items 3
              eq_refl ltac:(simpl; lia)) as (h1 & _ & _ & E & Hc & _).
  exists h1. split; [exact E|exact Hc].
Defined.

(** X11 on [[1, 2]], pushing [3]. *)
Lemma push_pop_round_trip_witness :
  let items := num <$> [1; 2] in
  ∃ h1 h2, ListMethods.push 0%nat [num 3] (singleList items) = Ok (3, h1)
           ∧ ListMethods.pop 0%nat h1 = Ok (num 3, h2)
           ∧ contents h2 0%nat = Some items.
Proof.
  intros items.
  destruct (push_pop_round_trip (singleList items) 0%nat items (num 3)
              eq_refl) as [(h1 & h2 & E1 & _ & E2 & Hc) _].
  exists h1, h2. split; [exact E1|]. split; [exact E2|exact Hc].
Defined.

(** X12 on [[1, 2]], prepending [0]. *)
Lemma unshift_shift_round_trip_witness :
  let items := num <$> [1; 2] in
  ∃ h1 h2, ListMethods.unshift 0%nat [num 0] (singleList items) = Ok (3, h1)
           ∧ ListMethods.shift 0%nat h1 = Ok (num 0, h2)
           ∧ contents h2 0%nat = Some items.
Proof.
  intros items.
  destruct (unshift_shift_round_trip (singleList items) 0%nat items (num 0)
              eq_refl) as [(h1 & h2 & E1 & _ & E2 & Hc) _].
  exists h1, h2. split; [exact E1|]. split; [exact E2|exact Hc].
Defined.

(** X13 on [[1, 2, 3]], inserting [9] at index [1]. *)
Lemma insert_remove_round_trip_witness :
  let items := num <$> [1; 2; 3] in
  ∃ h1 h2, ListMethods.insert 0%nat (num 9) 1 (singleList items)
           = Ok (tt, h1)
           ∧ contents h1 0%nat = Some (num <$> [1; 9; 2; 3])
           ∧ ListMethods.remove 0%nat 1 h1 = Ok (num 9, h2)
           ∧ contents h2 0%nat = Some items.
Proof.
  intros items.
  destruct (insert_remove_round_trip (singleList items) 0%nat items (num 9) 1
              eq_refl) as [Hround _].
  exact (Hround ltac:(simpl; lia)).
Defined.

(** X14 on [[1, 2]]. *)
Lemma clone_is_independent_witness :
  let items := num <$> [1; 2] in
  ∃ c h1, ListMethods.clone 0%nat (singleList items) = Ok (c, h1)
          ∧ c ≠ 0%nat
          ∧ contents h1 c = Some items.
Proof.
  intros items.
  destruct (clone_is_independent (singleList items) 0%nat items eq_refl)
    as (c & h1 & E & Hne & Hc & _).
  exists c, h1. split; [exact E|]. split; [exact Hne|exact Hc].
Defined.

(** X15 on [[1, 2]]. *)
Lemma toJSON_aliases_toArray_copies_witness :
  let items := num <$> [1; 2] in
  ∃ a, ListMethods.toJSON 0%nat (singleList items)
       = Ok (a, singleList items)
       ∧ ∀ l, ∃ h', writeArray a l (singleList items) = Ok (tt, h')
                    ∧ contents h' 0%nat = Some l.
Proof.
  intros items.
  destruct (toJSON_aliases_toArray_copies (singleList items) 0%nat items
              eq_refl) as [(a & E & _ & Hwrite) _].
  exists a. split; [exact E|exact Hwrite].
Defined.

(** X16 on [[3, 1, 2]] with heap sort. *)
Lemma sort_in_place_rearranges_witness :
  let items := num <$> [3; 1; 2] in
  ∃ sorted,
    sort 3 0%nat (Direction asc) (Some heap) (singleList items)
    = Ok (0%nat, {| arrays := <[0%nat := sorted]> (arrays (singleList items));
                    lists := lists (singleList items);
                    console := console (singleList items) |})
    ∧ sorted ≡ₚ items.
Proof.
  intros items.
  exact (sort_in_place_rearranges (singleList items) 0%nat 0%nat items
           (Direction asc) heap 3 eq_refl eq_refl ltac:(discriminate)
           ltac:(discriminate) ltac:(simpl; lia)).
Defined.

(** X17 on [[3, 1, 2]]. *)
Lemma sort_merge_builds_new_array_witness :
  let items := num <$> [3; 1; 2] in
  ∃ sorted h',
    sort 3 0%nat (Direction asc) (Some merge) (singleList items)
    = Ok (0%nat, h')
    ∧ contents h' 0%nat = Some sorted
    ∧ sorted ≡ₚ items
    ∧ arrays h' !! 0%nat = Some items.
Proof.
  intros items.
  destruct (sort_merge_builds_new_array (singleList items) 0%nat 0%nat items
              (Direction asc) 3 eq_refl eq_refl ltac:(simpl; lia))
    as (sorted & h' & E & Hc & Hp & Hold & _).
  exists sorted, h'. split; [exact E|]. split; [exact Hc|].
  split; [exact Hp|exact Hold].
Defined.

(** X18 on a list with numbers, [NaN], a string and [undefined]. *)
Lemma sort_insertion_then_isSorted_witness :
  let items := [num 3; VNaN; num 1; VString "a"; VUndefined; num 2] in
  ∃ sorted h',
    sort 0 0%nat NoDirection (Some insertion) (singleList items)
    = Ok (0%nat, h')
    ∧ contents h' 0%nat = Some sorted
    ∧ Utilities.isSorted sorted = true.
Proof.
  intros items.
  destruct (sort_insertion_then_isSorted (singleList items) 0%nat items
              NoDirection 0 eq_refl (or_introl eq_refl))
    as (sorted & h' & E & Hc & _ & Hs).
  exists sorted, h'. split; [exact E|]. split; [exact Hc|exact Hs].
Defined.

(** X19 on [[21, 3, 10]]. *)
Lemma sort_radix_rearranges_witness :
  let items := num <$> [21; 3; 10] in
  ∃ fuel0 : nat, ∀ fuel : nat, (fuel0 ≤ fuel)%nat →
    ∃ sorted h',
      sort fuel 0%nat (Direction asc) (Some radix) (singleList items)
      = Ok (0%nat, h')
      ∧ contents h' 0%nat = Some sorted
      ∧ sorted ≡ₚ items
      ∧ console h' = [].
Proof.
  intros items.
  assert (Hs : isRadixSortable items = true) by (vm_compute; reflexivity).
  exact (sort_radix_rearranges (singleList items) 0%nat items (Direction asc)
           eq_refl Hs).
Defined.

(** X20 on [[1, 2, 3]] when every draw is [0]. *)
Lemma shuffle_rearranges_witness :
  let items := num <$> [1; 2; 3] in
  ∃ shuffled,
    ListMethods.shuffle (λ _, 0) 0%nat (singleList items)
    = Ok (0%nat, {| arrays := <[0%nat := shuffled]>
                                (arrays (singleList items));
                    lists := lists (singleList items);
                    console := console (singleList items) |})
    ∧ shuffled ≡ₚ items.
Proof.
  intros items.
  destruct (shuffle_rearranges (singleList items) 0%nat 0%nat items (λ _, 0)
              eq_refl eq_refl ltac:(intros; lia)) as (shuffled & E & Hp & _).
  exists shuffled. split; [exact E|exact Hp].
Defined.

(** X21 on five elements with [size = 2]. *)
Lemma chunk_cuts_consecutive_groups_witness :
  let items := num <$> [1; 2; 3; 4; 5] in
  ∃ chunks, chunk 5 items 2 = Some chunks ∧ concat chunks = items.
Proof.
  intros items.
  destruct (chunk_cuts_consecutive_groups items 2 5 ltac:(lia)
              ltac:(simpl; lia)) as (chunks & E & Hcat & _).
  exists chunks. split; [exact E|exact Hcat].
Defined.

(** X22 on five elements, in groups of [2] filled with [0]. *)
Lemma divideInto_pads_last_group_witness :
  let items := num <$> [1; 2; 3; 4; 5] in
  ∃ groups k,
    Utilities.divideInto 5 items 2 (num 0) = Some groups
    ∧ Forall (λ g, Z.of_nat (length g) = 2) groups
    ∧ Z.of_nat k < 2
    ∧ concat groups = items ++ replicate k (num 0).
Proof.
  intros items.
  exact (proj1 (divideInto_pads_last_group items 2 (num 0) 5) ltac:(lia)
           eq_refl ltac:(simpl; lia)).
Defined.

(** X23 on [[1, 2, 3]] with windows of [2]. *)
Lemma slidingWindow_runs_witness :
  let items := num <$> [1; 2; 3] in
  Utilities.slidingWindow items 2
  = (λ i : nat, take 2 (drop i items)) <$> seq 0 2.
Proof.
  intros items.
  exact (proj1 (proj2 (slidingWindow_runs items 2 (λ w, w)))
           ltac:(simpl; lia)).
Defined.

(** X27 on [[1, 2, 3]]. *)
Lemma permutations_are_the_orderings_witness :
  let items := num <$> [1; 2; 3] in
  ∃ ps, Utilities.permutations 3 items = Some ps
        ∧ length ps = 6%nat
        ∧ ∀ p, p ∈ ps ↔ p ≡ₚ items.
Proof.
  intros items.
  exact (permutations_are_the_orderings items 3 ltac:(simpl; lia)).
Defined.

(** X28 on [[1, 2, 1, 3]], grouped by the element itself. *)
Lemma groupBy_collects_by_key_witness :
  let items := num <$> [1; 2; 1; 3] in
  map_get (Utilities.groupBy (λ x, x) items) (num 1) = Some (num <$> [1; 1]).
Proof.
  intros items.
  exact (groupBy_collects_by_key (λ x, x) items (num 1)).
Defined.

(** X29 with [NaN] as the key and a function that counts its calls in the
    world. *)
Lemma memoize_runs_once_per_key_witness :
  let fn := λ (item : value) (calls : nat), (jsAdd item (num 1), S calls) in
  let first := Utilities.memoized fn VNaN ([], 0%nat) in
  Utilities.memoized fn VNaN first.2 = (first.1, first.2).
Proof.
  intros fn.
  exact (memoize_runs_once_per_key fn VNaN VNaN [] 0%nat eq_refl).
Defined.

End FurtherInstances.
